(** * A shallow embedding of [advanced-vector/vector.h]

    [RawMemory<T>] and [Vector<T>] are embedded over an explicit world: a heap
    of slot blocks (raw or live slots) with the size in bytes of a slot, a
    store of [Vector] objects indexed by their address, a log of the element
    operations that ran, and the instrumentation of the element type and of
    the allocator (a fuse that makes a later element operation throw, and what
    the allocator has to give).  Every method is a function in a state monad
    whose outcomes are: normal return, a C++ exception, a failed [assert],
    [std::terminate], or detected undefined behaviour.

    Conventions:
    - a [size_t] is a [Z]; subtraction, increment and doubling wrap at 2^64;
    - [assert] is compiled in; a failed one ends the run with [AssertFail];
    - using a slot that holds no object, constructing over a live one or
      past the end of a block, or walking a range backwards ends the run with
      [Undefined];
    - the allocator is asked for bytes: a request of [n] slots is one of
      [n * sizeof(T)] bytes computed in [size_t], so it wraps at 2^64, and the
      block that is granted has as many slots as those bytes hold; a request
      above the allocator's limit throws [std::bad_alloc], and no block has
      more than [PTRDIFF_MAX] bytes;
    - the operands of a pointer comparison belong to one block: comparing
      pointers into different blocks, whose result the language leaves
      unspecified, ends the run with [Undefined];
    - constructor arguments are values: an argument that refers to an element
      of the same Vector is not modelled as an alias;
    - iterators are the raw element addresses of the source. *)

From Stdlib Require Import ZArith Lia.
From stdpp Require Import base decidable option list numbers.

(** ** [size_t] *)

Definition wrap (z : Z) : Z := (z mod 2 ^ 64)%Z.

(** ** The element type [T] and its traits *)

Inductive ElemOp :=
  | DefaultCtor | CopyCtor | MoveCtor | ArgsCtor | CopyAssign | MoveAssign.

#[global] Instance ElemOp_eq_dec : EqDecision ElemOp.
Proof. solve_decision. Defined.

(** What the container needs to know about [T]: its value-initialised value,
    the state a moved-from object is left in, which of its operations are not
    [noexcept], and [std::is_copy_constructible_v<T>]. *)
Class Elem (T : Type) := {
  value_init : T;
  moved_from : T → T;
  may_throw : ElemOp → bool;
  is_copy_constructible : bool
}.

Definition is_nothrow_move_constructible {T} `{Elem T} : bool :=
  negb (may_throw MoveCtor).

(** The [if constexpr] condition of Reserve, EmplaceBack and Emplace. *)
Definition relocate_by_move {T} `{Elem T} : bool :=
  is_nothrow_move_constructible || negb is_copy_constructible.

(** ** Pointers, slots, events *)

(** A [T*]: the block it points into ([None] for [nullptr]) and the offset in
    slots from the start of the block. *)
Record Ptr := MkPtr { p_block : option nat; p_off : Z }.

#[global] Instance Ptr_eq_dec : EqDecision Ptr.
Proof. solve_decision. Defined.

Definition nullptr : Ptr := MkPtr None 0.
Definition ptr_add (p : Ptr) (k : Z) : Ptr := MkPtr (p_block p) (p_off p + k).
Definition ptr_diff (p q : Ptr) : Z := (p_off p - p_off q)%Z.
(** Whether [p] and [q] point into the same block (or are both null), which
    is when the language orders them. *)
Definition same_block (p q : Ptr) : bool := bool_decide (p_block p = p_block q).
(** [p <= q] for two pointers into the same block.  The assertion of Emplace
    and Erase is evaluated on such pointers only (see [check_position]); for
    the ends of an iterator range, which lie in one block, [false] is an
    invalid range. *)
Definition ptr_leb (p q : Ptr) : bool :=
  bool_decide (p_block p = p_block q) && (p_off p <=? p_off q)%Z.

Inductive Slot (T : Type) := Raw | Live (v : T).
Arguments Raw {T}.
Arguments Live {T} v.

(** An element operation that ran to completion.  A place is [Some p] for a
    slot of the heap and [None] for an object outside it (a temporary or a
    caller's argument). *)
Inductive Event :=
  | EvConstruct (op : ElemOp) (dst src : option Ptr)
  | EvAssign (op : ElemOp) (dst src : option Ptr)
  | EvDestroy (dst : option Ptr).

#[global] Instance Event_eq_dec : EqDecision Event.
Proof. solve_decision. Defined.

Definition is_construct (e : Event) : bool :=
  match e with EvConstruct _ _ _ => true | _ => false end.
Definition is_destroy (e : Event) : bool :=
  match e with EvDestroy _ => true | _ => false end.

(** The counters of an instrumented [T]. *)
Definition ctor_count (l : list Event) : nat := length (List.filter is_construct l).
Definition dtor_count (l : list Event) : nat := length (List.filter is_destroy l).
(** How many times the object in slot [p] was destroyed. *)
Definition destroyed_at (p : Ptr) (l : list Event) : nat :=
  length (List.filter (λ e, bool_decide (e = EvDestroy (Some p))) l).

(** ** The two classes' data members *)

Record RawMemory := MkRawMemory { buffer_ : Ptr; capacity_ : Z }.
Record Vector := MkVector { data_ : RawMemory; size_ : Z }.

#[global] Instance RawMemory_eq_dec : EqDecision RawMemory.
Proof. solve_decision. Defined.
#[global] Instance Vector_eq_dec : EqDecision Vector.
Proof. solve_decision. Defined.

(** ** The world *)

Record World (T : Type) := MkWorld {
  heap : list (option (list (Slot T)));  (* [None]: a released block *)
  objs : list (option Vector);           (* [None]: a destroyed object *)
  fuse : option nat;   (* [Some k]: k more throwing-capable element
                          operations succeed, the next one throws *)
  alloc_cap : Z;       (* the slots the allocator has to give, at most *)
  log : list Event;    (* most recent first *)
  elem_size : positive (* [sizeof(T)], the bytes of a slot *)
}.
Arguments MkWorld {T}.
Arguments heap {T}.
Arguments objs {T}.
Arguments fuse {T}.
Arguments alloc_cap {T}.
Arguments log {T}.
Arguments elem_size {T}.

Definition set_heap {T} (h : list (option (list (Slot T)))) (w : World T) :=
  MkWorld h (objs w) (fuse w) (alloc_cap w) (log w) (elem_size w).
Definition set_objs {T} (o : list (option Vector)) (w : World T) :=
  MkWorld (heap w) o (fuse w) (alloc_cap w) (log w) (elem_size w).
Definition set_fuse {T} (f : option nat) (w : World T) :=
  MkWorld (heap w) (objs w) f (alloc_cap w) (log w) (elem_size w).
Definition emit {T} (e : Event) (w : World T) :=
  MkWorld (heap w) (objs w) (fuse w) (alloc_cap w) (e :: log w) (elem_size w).

(** [PTRDIFF_MAX], the most bytes an object has. *)
Definition ptrdiff_max : Z := (2 ^ 63 - 1)%Z.

(** The bytes of a slot, the most slots a block of such slots has, and the
    largest request in slots that [operator new] satisfies: what the
    allocator has to give, and never a block above [PTRDIFF_MAX] bytes. *)
Definition slot_bytes (size : positive) : Z := Z.pos size.
Definition slots_max (size : positive) : Z := (ptrdiff_max / slot_bytes size)%Z.
Definition limit_of (cap : Z) (size : positive) : Z := Z.min cap (slots_max size).

Arguments slot_bytes : simpl never.
Arguments slots_max : simpl never.
Arguments limit_of : simpl never.

(** [sizeof(T)], and the two limits in the world [w]. *)
Abbreviation sizeof w := (slot_bytes (elem_size w)).
Abbreviation max_slots w := (slots_max (elem_size w)).
Abbreviation alloc_limit w := (limit_of (alloc_cap w) (elem_size w)).

(** ** Outcomes and the monad *)

Inductive exn := bad_alloc | element_failure.

Inductive Fault :=
  | NotLive (p : Ptr)     (* use or destruction of a slot holding no object *)
  | NotRaw (p : Ptr)      (* construction outside raw storage *)
  | NoObject (a : nat)    (* use of a Vector that is not alive *)
  | BadFree (p : Ptr)
  | BadRange              (* an iterator range whose end precedes its start
                             or lies in another block *)
  | Unordered (p q : Ptr). (* a comparison of pointers into different blocks *)

Inductive Outcome (A : Type) :=
  | Ok (a : A)
  | Throw (e : exn)
  | AssertFail
  | Terminate
  | Undefined (f : Fault).
Arguments Ok {A} a.
Arguments Throw {A} e.
Arguments AssertFail {A}.
Arguments Terminate {A}.
Arguments Undefined {A} f.

Definition M (T A : Type) : Type := World T → Outcome A * World T.

Definition ret {T A} (a : A) : M T A := λ w, (Ok a, w).

Definition bind {T A B} (m : M T A) (k : A → M T B) : M T B := λ w,
  match m w with
  | (Ok a, w') => k a w'
  | (Throw e, w') => (Throw e, w')
  | (AssertFail, w') => (AssertFail, w')
  | (Terminate, w') => (Terminate, w')
  | (Undefined f, w') => (Undefined f, w')
  end.

Declare Scope vec_scope.
Delimit Scope vec_scope with vec.
Notation "x ← y ; z" := (bind y (λ x : _, z))
  (at level 20, y at level 100, z at level 200, only parsing) : vec_scope.
Notation "x ;; z" := (bind x (λ _, z))
  (at level 100, z at level 200, only parsing, right associativity) : vec_scope.
Open Scope vec_scope.

Definition throw {T A} (e : exn) : M T A := λ w, (Throw e, w).
Definition undefined {T A} (f : Fault) : M T A := λ w, (Undefined f, w).

(** [assert(c)] *)
Definition assert {T} (c : bool) : M T unit := λ w,
  if c then (Ok tt, w) else (AssertFail, w).

(** [try { m } catch (...) { h }] *)
Definition catch {T A} (m : M T A) (h : exn → M T A) : M T A := λ w,
  match m w with
  | (Throw e, w') => h e w'
  | r => r
  end.

(** Stack unwinding: when [m] throws, the destructors of the locals in scope
    ([cleanup]) run and the exception propagates. *)
Definition unwinding {T A} (m : M T A) (cleanup : M T unit) : M T A :=
  catch m (λ e, bind cleanup (λ _, throw e)).

(** A [noexcept] function: an escaping exception calls [std::terminate]. *)
Definition noexcept {T A} (m : M T A) : M T A := λ w,
  match m w with
  | (Throw _, w') => (Terminate, w')
  | r => r
  end.

(** ** Slots of the heap *)

Section Memory.
Context {T : Type} `{Elem T}.

Definition slot_at (h : list (option (list (Slot T)))) (p : Ptr) : option (Slot T) :=
  match p_block p with
  | Some b =>
      if (p_off p <? 0)%Z then None
      else match h !! b with
           | Some (Some blk) => blk !! Z.to_nat (p_off p)
           | _ => None
           end
  | None => None
  end.

Definition write_slot (p : Ptr) (s : Slot T) (h : list (option (list (Slot T))))
  : list (option (list (Slot T))) :=
  match p_block p with
  | Some b =>
      if (p_off p <? 0)%Z then h
      else match h !! b with
           | Some (Some blk) => <[b := Some (<[Z.to_nat (p_off p) := s]> blk)]> h
           | _ => h
           end
  | None => h
  end.

(** The number of slots of an allocated block. *)
Definition block_size (h : list (option (list (Slot T)))) (b : nat) : option nat :=
  match h !! b with
  | Some (Some blk) => Some (length blk)
  | _ => None
  end.

(** *** Operations of [T] *)

(** An operation of [T] that is not [noexcept] burns the fuse. *)
Definition tick (op : ElemOp) : M T unit := λ w,
  if may_throw op then
    match fuse w with
    | Some O => (Throw element_failure, set_fuse None w)
    | Some (S k) => (Ok tt, set_fuse (Some k) w)
    | None => (Ok tt, w)
    end
  else (Ok tt, w).

(** Reads the object that lives at [p]. *)
Definition read (p : Ptr) : M T T := λ w,
  match slot_at (heap w) p with
  | Some (Live v) => (Ok v, w)
  | _ => (Undefined (NotLive p), w)
  end.

(** [new (dst) T(...)]: runs a constructor of kind [op] that produces [v]. *)
Definition construct_at (op : ElemOp) (dst : Ptr) (src : option Ptr) (v : T)
  : M T unit := λ w,
  match slot_at (heap w) dst with
  | Some Raw =>
      bind (tick op) (λ _ w1,
        (Ok tt, emit (EvConstruct op (Some dst) src)
                  (set_heap (write_slot dst (Live v) (heap w1)) w1))) w
  | _ => (Undefined (NotRaw dst), w)
  end.

(** Placement-new of a copy of the object at [src]. *)
Definition copy_construct (dst src : Ptr) : M T unit :=
  v ← read src; construct_at CopyCtor dst (Some src) v.

(** Placement-new by move from the object at [src], which stays alive,
    moved-from. *)
Definition move_construct (dst src : Ptr) : M T unit :=
  v ← read src;
  construct_at MoveCtor dst (Some src) v;;
  λ w, (Ok tt, set_heap (write_slot src (Live (moved_from v)) (heap w)) w).

(** [new (dst) T()] *)
Definition value_construct (dst : Ptr) : M T unit :=
  construct_at DefaultCtor dst None value_init.

(** Assignment of the value [v] into the live object at [dst]. *)
Definition assign_at (op : ElemOp) (dst : Ptr) (src : option Ptr) (v : T)
  : M T unit := λ w,
  match slot_at (heap w) dst with
  | Some (Live _) =>
      bind (tick op) (λ _ w1,
        (Ok tt, emit (EvAssign op (Some dst) src)
                  (set_heap (write_slot dst (Live v) (heap w1)) w1))) w
  | _ => (Undefined (NotLive dst), w)
  end.

(** Copy assignment of the object at [src] to the one at [dst]. *)
Definition copy_assign (dst src : Ptr) : M T unit :=
  v ← read src; assign_at CopyAssign dst (Some src) v.

(** Move assignment of the object at [src] to the one at [dst]. *)
Definition move_assign (dst src : Ptr) : M T unit :=
  v ← read src;
  assign_at MoveAssign dst (Some src) v;;
  λ w, (Ok tt, set_heap (write_slot src (Live (moved_from v)) (heap w)) w).

(** [p->~T()]; the destructor of [T] does not throw. *)
Definition destroy_at (p : Ptr) : M T unit := λ w,
  match slot_at (heap w) p with
  | Some (Live _) =>
      (Ok tt, emit (EvDestroy (Some p)) (set_heap (write_slot p Raw (heap w)) w))
  | _ => (Undefined (NotLive p), w)
  end.

(** *** The algorithms of [<memory>] and [<algorithm>] the container calls *)

Fixpoint destroy_loop (p : Ptr) (n : nat) : M T unit :=
  match n with
  | O => ret tt
  | S n' => destroy_at p;; destroy_loop (ptr_add p 1) n'
  end.

(** [std::destroy_n(p, n)] *)
Definition destroy_n (p : Ptr) (n : Z) : M T unit := destroy_loop p (Z.to_nat n).

(** The loop of the [std::uninitialized_*_n] family: [cur] slots are built
    already; when a construction throws, the slots built so far are destroyed
    and the exception is rethrown. *)
Fixpoint uninit_loop (construct : Ptr → Ptr → M T unit)
    (first d_first : Ptr) (cur n : nat) : M T unit :=
  match n with
  | O => ret tt
  | S n' =>
      catch (construct (ptr_add d_first (Z.of_nat cur)) (ptr_add first (Z.of_nat cur)))
            (λ e, destroy_loop d_first cur;; throw e);;
      uninit_loop construct first d_first (S cur) n'
  end.

Definition uninitialized_copy_n (first : Ptr) (n : Z) (d_first : Ptr) : M T unit :=
  uninit_loop copy_construct first d_first 0 (Z.to_nat n).

Definition uninitialized_move_n (first : Ptr) (n : Z) (d_first : Ptr) : M T unit :=
  uninit_loop move_construct first d_first 0 (Z.to_nat n).

Definition uninitialized_value_construct_n (first : Ptr) (n : Z) : M T unit :=
  uninit_loop (λ dst _, value_construct dst) first first 0 (Z.to_nat n).

(** The relocation of Reserve, EmplaceBack and Emplace. *)
Definition relocate (first : Ptr) (n : Z) (d_first : Ptr) : M T unit :=
  if relocate_by_move then uninitialized_move_n first n d_first
  else uninitialized_copy_n first n d_first.

Fixpoint move_loop (first d_first : Ptr) (n : nat) : M T unit :=
  match n with
  | O => ret tt
  | S n' => move_assign d_first first;;
            move_loop (ptr_add first 1) (ptr_add d_first 1) n'
  end.

(** [std::move(first, last, d_first)] *)
Definition std_move (first last d_first : Ptr) : M T unit :=
  if ptr_leb first last then move_loop first d_first (Z.to_nat (ptr_diff last first))
  else undefined BadRange.

Fixpoint move_backward_loop (last d_last : Ptr) (n : nat) : M T unit :=
  match n with
  | O => ret tt
  | S n' => move_assign (ptr_add d_last (-1)) (ptr_add last (-1));;
            move_backward_loop (ptr_add last (-1)) (ptr_add d_last (-1)) n'
  end.

(** [std::move_backward(first, last, d_last)] *)
Definition std_move_backward (first last d_last : Ptr) : M T unit :=
  if ptr_leb first last
  then move_backward_loop last d_last (Z.to_nat (ptr_diff last first))
  else undefined BadRange.

End Memory.

(** ** [RawMemory<T>] *)

Section RawMemoryMethods.
Context {T : Type} `{Elem T}.

(** [RawMemory() = default] *)
Definition RawMemory_default : RawMemory := MkRawMemory nullptr 0.

(** The bytes [Allocate(n)] asks [operator new] for: the [size_t] product
    [n * sizeof(T)], which wraps. *)
Definition requested_bytes (w : World T) (n : Z) : Z := wrap (n * sizeof w).

(** The slots a block of those bytes holds. *)
Definition granted_slots (w : World T) (n : Z) : nat :=
  Z.to_nat (requested_bytes w n / sizeof w).

(** [Allocate(n)]: [operator new] throws [std::bad_alloc] when it cannot
    satisfy the request; otherwise the result is a fresh block of the bytes
    asked for, which are [n] raw slots unless the product wrapped. *)
Definition Allocate (n : Z) : M T Ptr := λ w,
  if bool_decide (n ≠ 0%Z) then
    if (requested_bytes w n <=? alloc_limit w * sizeof w)%Z then
      (Ok (MkPtr (Some (length (heap w))) 0),
       set_heap (heap w ++ [Some (replicate (granted_slots w n) Raw)]) w)
    else (Throw bad_alloc, w)
  else (Ok nullptr, w).

(** [Deallocate(buf)]: [operator delete]; a no-op on [nullptr]. *)
Definition Deallocate (buf : Ptr) : M T unit := λ w,
  match p_block buf with
  | None => (Ok tt, w)
  | Some b =>
      match heap w !! b with
      | Some (Some _) =>
          if bool_decide (p_off buf = 0%Z)
          then (Ok tt, set_heap (<[b := None]> (heap w)) w)
          else (Undefined (BadFree buf), w)
      | _ => (Undefined (BadFree buf), w)
      end
  end.

(** [explicit RawMemory(size_t capacity)] *)
Definition RawMemory_ctor (capacity : Z) : M T RawMemory :=
  buf ← Allocate capacity; ret (MkRawMemory buf capacity).

(** [~RawMemory()] *)
Definition RawMemory_dtor (m : RawMemory) : M T unit := Deallocate (buffer_ m).

(** [RawMemory(RawMemory&& other)]: the new object and what is left of
    [other]. *)
Definition RawMemory_move_ctor (other : RawMemory) : RawMemory * RawMemory :=
  (MkRawMemory (buffer_ other) (capacity_ other), MkRawMemory nullptr 0).

(** [Swap(other)]: the new [*this] and the new [other]. *)
Definition RawMemory_Swap (this other : RawMemory) : RawMemory * RawMemory :=
  (MkRawMemory (buffer_ other) (capacity_ other),
   MkRawMemory (buffer_ this) (capacity_ this)).

(** [operator+(size_t offset)] *)
Definition RawMemory_plus (m : RawMemory) (offset : Z) : M T Ptr :=
  assert (offset <=? capacity_ m)%Z;; ret (ptr_add (buffer_ m) offset).

(** [operator[](size_t index)], as the address of the slot. *)
Definition RawMemory_index (m : RawMemory) (index : Z) : M T Ptr :=
  assert (index <? capacity_ m)%Z;; ret (ptr_add (buffer_ m) index).

Definition GetAddress (m : RawMemory) : Ptr := buffer_ m.
Definition RawMemory_Capacity (m : RawMemory) : Z := capacity_ m.

End RawMemoryMethods.

(** ** [Vector<T>] *)

(** The arguments forwarded to a constructor of [T]: which constructor runs
    and the value it produces.  [PushBack(const T&)] runs the copy constructor,
    [PushBack(T&&)] the move constructor. *)
Record Args (T : Type) := MkArgs { arg_op : ElemOp; arg_value : T }.
Arguments MkArgs {T}.
Arguments arg_op {T}.
Arguments arg_value {T}.

Section VectorMethods.
Context {T : Type} `{Elem T}.
Local Open Scope Z_scope.

(** *** Vector objects and their addresses *)

Definition load_obj (a : nat) : M T Vector := λ w,
  match objs w !! a with
  | Some (Some v) => (Ok v, w)
  | _ => (Undefined (NoObject a), w)
  end.

Definition store_obj (a : nat) (v : Vector) : M T unit := λ w,
  match objs w !! a with
  | Some (Some _) => (Ok tt, set_objs (<[a := Some v]> (objs w)) w)
  | _ => (Undefined (NoObject a), w)
  end.

Definition new_obj (v : Vector) : M T nat := λ w,
  (Ok (length (objs w)), set_objs (objs w ++ [Some v]) w).

Definition kill_obj (a : nat) : M T unit := λ w,
  match objs w !! a with
  | Some (Some _) => (Ok tt, set_objs (<[a := None]> (objs w)) w)
  | _ => (Undefined (NoObject a), w)
  end.

(** *** Accessors and iterators *)

Definition Size (v : Vector) : Z := size_ v.
Definition Capacity (v : Vector) : Z := RawMemory_Capacity (data_ v).
Definition begin_ (v : Vector) : Ptr := GetAddress (data_ v).
Definition end_ (v : Vector) : Ptr := ptr_add (GetAddress (data_ v)) (size_ v).
Definition cbegin (v : Vector) : Ptr := GetAddress (data_ v).
Definition cend (v : Vector) : Ptr := ptr_add (GetAddress (data_ v)) (size_ v).

Definition Vector_Size (this : nat) : M T Z := v ← load_obj this; ret (Size v).
Definition Vector_Capacity (this : nat) : M T Z :=
  v ← load_obj this; ret (Capacity v).

(** [operator[](size_t index)], as the address of the element. *)
Definition Vector_index (this : nat) (index : Z) : M T Ptr :=
  v ← load_obj this;
  assert (index <? size_ v);;
  RawMemory_index (data_ v) index.

(** *** Construction and destruction *)

(** [Vector() = default] *)
Definition Vector_default : M T nat := new_obj (MkVector RawMemory_default 0).

(** The members and body of [explicit Vector(size_t size)]. *)
Definition Vector_sized (size : Z) : M T Vector :=
  data ← RawMemory_ctor size;
  unwinding (uninitialized_value_construct_n (GetAddress data) size)
            (RawMemory_dtor data);;
  ret (MkVector data size).

Definition Vector_sized_ctor (size : Z) : M T nat :=
  v ← Vector_sized size; new_obj v.

(** The body of [~Vector()] followed by the destructor of [data_]. *)
Definition Vector_destroy (v : Vector) : M T unit :=
  destroy_n (GetAddress (data_ v)) (size_ v);;
  RawMemory_dtor (data_ v).

Definition Vector_dtor (this : nat) : M T unit :=
  v ← load_obj this; Vector_destroy v;; kill_obj this.

(** The members and body of [Vector(const Vector& other)]. *)
Definition Vector_copy (other : Vector) : M T Vector :=
  data ← RawMemory_ctor (size_ other);
  unwinding (uninitialized_copy_n (GetAddress (data_ other)) (size_ other)
                                  (GetAddress data))
            (RawMemory_dtor data);;
  ret (MkVector data (size_ other)).

Definition Vector_copy_ctor (other : nat) : M T nat :=
  o ← load_obj other; v ← Vector_copy o; new_obj v.

(** [Vector(Vector&& other) noexcept]: the member initialisers empty [other]
    before the body runs, so the body moves [other.size_ = 0] elements. *)
Definition Vector_move_ctor (other : nat) : M T nat :=
  noexcept (
    o ← load_obj other;
    let '(data, other_data) := RawMemory_move_ctor (data_ o) in
    let size := size_ o in
    let o' := MkVector other_data 0 in
    store_obj other o';;
    uninitialized_move_n (GetAddress (data_ o')) (size_ o') (GetAddress data);;
    new_obj (MkVector data size)).

(** [Swap(Vector& other)] *)
Definition Vector_Swap (this other : nat) : M T unit :=
  noexcept (
    v ← load_obj this;
    o ← load_obj other;
    let '(d, od) := RawMemory_Swap (data_ v) (data_ o) in
    store_obj this (MkVector d (size_ o));;
    store_obj other (MkVector od (size_ v))).

End VectorMethods.

Section VectorModifiers.
Context {T : Type} `{Elem T}.
Local Open Scope Z_scope.

(** [new (p) T(std::forward<Args>(args)...)] *)
Definition construct_from (a : Args T) (p : Ptr) : M T unit :=
  construct_at (arg_op a) p None (arg_value a).

(** The loop [for(; i < bound; ++i) data_[i] = rhs.data_[i];] of the copy
    assignment, with [n] iterations left; it returns the final [i]. *)
Fixpoint assign_loop (data rhs_data : RawMemory) (i : Z) (n : nat) : M T Z :=
  match n with
  | O => ret i
  | S n' =>
      src ← RawMemory_index rhs_data i;
      dst ← RawMemory_index data i;
      copy_assign dst src;;
      assign_loop data rhs_data (wrap (i + 1)) n'
  end.

(** [Vector& operator=(const Vector& rhs)] *)
Definition Vector_copy_assign (this rhs : nat) : M T unit :=
  if bool_decide (this ≠ rhs) then
    v ← load_obj this;
    r ← load_obj rhs;
    if size_ r >? Capacity v then
      temp ← Vector_copy r;
      (* Swap(temp), then temp's destructor runs on the former *this *)
      store_obj this temp;;
      Vector_destroy v
    else
      (if size_ r <? size_ v then
         assign_loop (data_ v) (data_ r) 0 (Z.to_nat (size_ r));;
         destroy_n (ptr_add (GetAddress (data_ v)) (size_ r))
                   (wrap (size_ v - size_ r))
       else
         i ← assign_loop (data_ v) (data_ r) 0 (Z.to_nat (size_ v));
         uninitialized_copy_n (GetAddress (data_ r)) (wrap (size_ r - size_ v))
                              (ptr_add (GetAddress (data_ v)) i));;
      store_obj this (MkVector (data_ v) (size_ r))
  else ret tt.

(** [Vector& operator=(Vector&& rhs) noexcept] *)
Definition Vector_move_assign (this rhs : nat) : M T unit :=
  noexcept (
    if bool_decide (this ≠ rhs) then
      v ← load_obj this;
      r ← load_obj rhs;
      let '(d, rd) := RawMemory_Swap (data_ v) (data_ r) in
      (* size_ = std::exchange(rhs.size_, 0) *)
      store_obj rhs (MkVector rd 0);;
      store_obj this (MkVector d (size_ r))
    else ret tt).

(** [void Reserve(size_t new_capacity)] *)
Definition Vector_Reserve (this : nat) (new_capacity : Z) : M T unit :=
  v ← load_obj this;
  if new_capacity <=? Capacity v then ret tt
  else
    new_data ← RawMemory_ctor new_capacity;
    unwinding (relocate (GetAddress (data_ v)) (size_ v) (GetAddress new_data))
              (RawMemory_dtor new_data);;
    destroy_n (GetAddress (data_ v)) (size_ v);;
    let '(d, nd) := RawMemory_Swap (data_ v) new_data in
    store_obj this (MkVector d (size_ v));;
    RawMemory_dtor nd.

(** [void Resize(size_t new_size)] *)
Definition Vector_Resize (this : nat) (new_size : Z) : M T unit :=
  v ← load_obj this;
  (if new_size <? size_ v then
     destroy_n (ptr_add (GetAddress (data_ v)) new_size) (wrap (size_ v - new_size))
   else if new_size >? size_ v then
     Vector_Reserve this new_size;;
     v1 ← load_obj this;
     uninitialized_value_construct_n (ptr_add (GetAddress (data_ v1)) (size_ v1))
                                     (wrap (new_size - size_ v1))
   else ret tt);;
  v2 ← load_obj this;
  store_obj this (MkVector (data_ v2) new_size).

(** The capacity the growing paths allocate: [size_ == 0 ? 1 : size_ * 2]. *)
Definition grown_capacity (size : Z) : Z :=
  if bool_decide (size = 0) then 1 else wrap (size * 2).

(** [T& EmplaceBack(Args&&... args)], returning the address of the new
    element. *)
Definition Vector_EmplaceBack (this : nat) (a : Args T) : M T Ptr :=
  v ← load_obj this;
  (if bool_decide (size_ v = Capacity v) then
     new_data ← RawMemory_ctor (grown_capacity (size_ v));
     unwinding (
         new_element ← RawMemory_plus new_data (size_ v);
         construct_from a new_element;;
         catch (relocate (GetAddress (data_ v)) (size_ v) (GetAddress new_data))
               (λ e, destroy_at new_element;; throw e);;
         destroy_n (GetAddress (data_ v)) (size_ v))
       (RawMemory_dtor new_data);;
     let '(d, nd) := RawMemory_Swap (data_ v) new_data in
     store_obj this (MkVector d (size_ v));;
     RawMemory_dtor nd
   else
     p ← RawMemory_plus (data_ v) (size_ v);
     construct_from a p);;
  v' ← load_obj this;
  store_obj this (MkVector (data_ v') (wrap (size_ v' + 1)));;
  ret (ptr_add (GetAddress (data_ v')) (size_ v')).

(** [void PushBack(S&& value)]: [value] is copied when it is an lvalue and
    moved when it is an rvalue. *)
Definition Vector_PushBack (this : nat) (by_move : bool) (value : T) : M T unit :=
  Vector_EmplaceBack this (MkArgs (if by_move then MoveCtor else CopyCtor) value);;
  ret tt.

(** [void PopBack() noexcept] *)
Definition Vector_PopBack (this : nat) : M T unit :=
  noexcept (
    v ← load_obj this;
    assert (negb (bool_decide (size_ v = 0)));;
    destroy_n (ptr_add (GetAddress (data_ v)) (wrap (size_ v - 1))) 1;;
    store_obj this (MkVector (data_ v) (wrap (size_ v - 1)))).

End VectorModifiers.

Section VectorPositional.
Context {T : Type} `{Elem T}.
Local Open Scope Z_scope.

(** [data_[index] = T(std::forward<Args>(args)...)]: a temporary is built,
    move-assigned into the slot and destroyed at the end of the expression. *)
Definition assign_temporary (data : RawMemory) (index : Z) (a : Args T) : M T unit :=
  tick (arg_op a);;
  (λ w, (Ok tt, emit (EvConstruct (arg_op a) None None) w));;
  unwinding (
      dst ← RawMemory_index data index;
      assign_at MoveAssign dst None (arg_value a))
    (λ w, (Ok tt, emit (EvDestroy None) w));;
  (λ w, (Ok tt, emit (EvDestroy None) w)).

(** The expression [pos >= cbegin() && pos <= cend()] asserted at the head of
    both Emplace and Erase. *)
Definition position_assertion (v : Vector) (pos : Ptr) : bool :=
  ptr_leb (cbegin v) pos && ptr_leb pos (cend v).

(** [assert(pos >= cbegin() && pos <= cend())]: the comparisons are those of
    the language when [pos] points into the block of the Vector. *)
Definition check_position (v : Vector) (pos : Ptr) : M T unit :=
  if same_block (cbegin v) pos then assert (position_assertion v pos)
  else undefined (Unordered pos (cbegin v)).

(** [iterator Emplace(const_iterator pos, Args&&... args)] *)
Definition Vector_Emplace (this : nat) (pos : Ptr) (a : Args T) : M T Ptr :=
  v ← load_obj this;
  check_position v pos;;
  let index := wrap (ptr_diff pos (cbegin v)) in
  (if bool_decide (size_ v = Capacity v) then
     new_data ← RawMemory_ctor (grown_capacity (size_ v));
     unwinding (
         new_element ← RawMemory_plus new_data index;
         construct_from a new_element;;
         catch (relocate (GetAddress (data_ v)) index (GetAddress new_data);;
                relocate (ptr_add (GetAddress (data_ v)) index)
                         (wrap (size_ v - index))
                         (ptr_add (GetAddress new_data) (wrap (index + 1))))
               (λ e, destroy_n (GetAddress new_data) index;;
                     destroy_at new_element;;
                     throw e);;
         destroy_n (GetAddress (data_ v)) (size_ v))
       (RawMemory_dtor new_data);;
     let '(d, nd) := RawMemory_Swap (data_ v) new_data in
     store_obj this (MkVector d (wrap (size_ v + 1)));;
     RawMemory_dtor nd
   else
     if index <? size_ v then
       let last_elem := ptr_add (GetAddress (data_ v)) (size_ v) in
       store_obj this (MkVector (data_ v) (wrap (size_ v + 1)));;
       move_construct last_elem (ptr_add last_elem (-1));;
       std_move_backward (ptr_add (GetAddress (data_ v)) index)
                         (ptr_add last_elem (-1)) last_elem;;
       assign_temporary (data_ v) index a
     else
       p ← RawMemory_plus (data_ v) (size_ v);
       construct_from a p;;
       store_obj this (MkVector (data_ v) (wrap (size_ v + 1))));;
  v' ← load_obj this;
  ret (ptr_add (GetAddress (data_ v')) index).

(** [iterator Erase(const_iterator pos) noexcept] *)
Definition Vector_Erase (this : nat) (pos : Ptr) : M T Ptr :=
  noexcept (
    v ← load_obj this;
    check_position v pos;;
    let index := wrap (ptr_diff pos (cbegin v)) in
    std_move (ptr_add (GetAddress (data_ v)) (wrap (index + 1))) (end_ v)
             (ptr_add (GetAddress (data_ v)) index);;
    destroy_n (ptr_add (end_ v) (-1)) 1;;
    store_obj this (MkVector (data_ v) (wrap (size_ v - 1)));;
    ret (ptr_add (GetAddress (data_ v)) index)).

(** [iterator Insert(const_iterator pos, S&& value)] *)
Definition Vector_Insert (this : nat) (pos : Ptr) (by_move : bool) (value : T)
  : M T Ptr :=
  Vector_Emplace this pos (MkArgs (if by_move then MoveCtor else CopyCtor) value).

End VectorPositional.

(** ** Observations *)

Section Observations.
Context {T : Type}.

(** The value of element [i] of the Vector [v], when the slot is live. *)
Definition element (w : World T) (v : Vector) (i : nat) : option T :=
  match slot_at (heap w) (ptr_add (buffer_ (data_ v)) (Z.of_nat i)) with
  | Some (Live x) => Some x
  | _ => None
  end.

(** The elements of [v]: the values in slots [0, Size()), when all are live. *)
Definition contents (w : World T) (v : Vector) : option (list T) :=
  mapM (element w v) (seq 0 (Z.to_nat (size_ v))).

Definition contents_at (w : World T) (a : nat) : option (list T) :=
  match objs w !! a with
  | Some (Some v) => contents w v
  | _ => None
  end.

(** The sum of Size() over the Vector objects that are alive. *)
Definition live_elements (w : World T) : Z :=
  foldr (λ o acc, match o with Some v => (size_ v + acc)%Z | None => acc end)
        0%Z (objs w).

(** Constructions minus destructions, the balance of an instrumented [T]. *)
Definition balance (w : World T) : Z :=
  (Z.of_nat (ctor_count (log w)) - Z.of_nat (dtor_count (log w)))%Z.

(** The world before anything ran; its slots have the 4 bytes of the
    examples' element types. *)
Definition empty_world (limit : Z) (f : option nat) : World T :=
  MkWorld [] [] f limit [] 4.

(** The world reached by running [m], whatever its outcome. *)
Definition exec {A} (m : M T A) (w : World T) : World T := snd (m w).
Definition outcome {A} (m : M T A) (w : World T) : Outcome A := fst (m w).

End Observations.

(** ** Element types used in the examples *)

(** [int]: nothing throws, a moved-from int keeps its value. *)
Definition int_elem : Elem Z :=
  {| value_init := 0%Z; moved_from := λ x, x;
     may_throw := λ _, false; is_copy_constructible := true |}.

(** An instrumented type whose copy and move constructors may throw, so that
    relocation copies. *)
Definition throwing_elem : Elem Z :=
  {| value_init := 0%Z; moved_from := λ x, x;
     may_throw := λ op, match op with CopyCtor | MoveCtor => true | _ => false end;
     is_copy_constructible := true |}.

(** ** The class invariant and the frame of an operation *)

Section Invariant.
Context {T : Type}.

(** [q] is one of the [n] slots that start at [p]. *)
Definition in_range (p : Ptr) (n : nat) (q : Ptr) : Prop :=
  p_block q = p_block p ∧ (p_off p ≤ p_off q < p_off p + Z.of_nat n)%Z.

(** The buffer of a RawMemory is null with capacity 0, or the start of an
    allocated block of [capacity_] slots, which is a block of
    [capacity_ * sizeof(T)] bytes and so of at most [max_slots] slots. *)
Definition owns_block (w : World T) (m : RawMemory) : Prop :=
  (buffer_ m = nullptr ∧ capacity_ m = 0%Z) ∨
  (∃ b, buffer_ m = MkPtr (Some b) 0 ∧ (0 < capacity_ m ≤ max_slots w)%Z ∧
        block_size (heap w) b = Some (Z.to_nat (capacity_ m))).

(** The invariant of Vector: slots [0, n) hold the elements [l], slots
    [n, C) are raw, and n <= C fits a [size_t]. *)
Record holds (w : World T) (v : Vector) (l : list T) : Prop := {
  holds_size : size_ v = Z.of_nat (length l);
  holds_capacity : (size_ v ≤ capacity_ (data_ v) < 2 ^ 64)%Z;
  holds_block : owns_block w (data_ v);
  holds_live : ∀ i x, l !! i = Some x →
     slot_at (heap w) (ptr_add (buffer_ (data_ v)) (Z.of_nat i)) = Some (Live x);
  holds_raw : ∀ i, (size_ v ≤ i < capacity_ (data_ v))%Z →
     slot_at (heap w) (ptr_add (buffer_ (data_ v)) i) = Some Raw
}.

(** [w'] differs from [w] at most in the fuse, the log and the slots that
    satisfy [P]. *)
Record evolves (P : Ptr → Prop) (w w' : World T) : Prop := {
  ev_objs : objs w' = objs w;
  ev_elem : elem_size w' = elem_size w;
  ev_limit : alloc_limit w' = alloc_limit w;
  ev_fuse : fuse w = None → fuse w' = None;
  ev_size : ∀ b, block_size (heap w') b = block_size (heap w) b;
  ev_frame : ∀ q, ¬ P q → slot_at (heap w') q = slot_at (heap w) q
}.

(** The element operation [op] cannot throw in [w]. *)
Definition quiet `{Elem T} (op : ElemOp) (w : World T) : Prop :=
  may_throw op = false ∨ fuse w = None.

Definition construct_events (op : ElemOp) (d s : Ptr) (cur n : nat) : list Event :=
  map (λ i, EvConstruct op (Some (ptr_add d (Z.of_nat i))) (Some (ptr_add s (Z.of_nat i))))
      (seq cur n).
Definition destroy_events (d : Ptr) (cur n : nat) : list Event :=
  map (λ i, EvDestroy (Some (ptr_add d (Z.of_nat i)))) (seq cur n).
Definition move_assign_events (d s : Ptr) (cur n : nat) : list Event :=
  map (λ i, EvAssign MoveAssign (Some (ptr_add d (Z.of_nat i))) (Some (ptr_add s (Z.of_nat i))))
      (seq cur n).

(** The heap once the block of [p] is released. *)
Definition release (p : Ptr) (h : list (option (list (Slot T))))
  : list (option (list (Slot T))) :=
  match p_block p with Some b => <[b := None]> h | None => h end.

End Invariant.

Section RelocationSpec.
Context {T : Type} `{Elem T}.

(** What one step of an uninitialized_x_n loop does: [g] is what the
    constructor leaves in its source. *)
Definition StepSpec (op : ElemOp) (g : T → T) (construct : Ptr → Ptr → M T unit) : Prop :=
  ∀ w dst src x,
    slot_at (heap w) dst = Some Raw → slot_at (heap w) src = Some (Live x) →
    (∃ w', construct dst src w = (Ok tt, w') ∧
           evolves (λ q, q = dst ∨ q = src) w w' ∧
           slot_at (heap w') dst = Some (Live x) ∧
           slot_at (heap w') src = Some (Live (g x)) ∧
           log w' = EvConstruct op (Some dst) (Some src) :: log w) ∨
    (construct dst src w = (Throw element_failure, set_fuse None w) ∧
     fuse w ≠ None ∧ may_throw op = true).

(** A step whose destination is not raw storage is undefined behaviour. *)
Definition StepFault (construct : Ptr → Ptr → M T unit) : Prop :=
  ∀ w dst src x,
    slot_at (heap w) dst ≠ Some Raw → slot_at (heap w) src = Some (Live x) →
    ∃ f, construct dst src w = (Undefined f, w).

(** The constructor a relocation runs and what it leaves in its source. *)
Definition reloc_op : ElemOp := if relocate_by_move then MoveCtor else CopyCtor.
Definition reloc_left (x : T) : T := if relocate_by_move then moved_from x else x.

(** The log of a growing EmplaceBack whose relocation failed after [j]
    elements were placed in the new block [d]; [p] is the slot of the new
    element. *)
Definition failed_growth_log (a : Args T) (p d first : Ptr) (j : nat) : list Event :=
  EvDestroy (Some p) :: rev (destroy_events d 0 j) ++
  rev (construct_events reloc_op d first 0 j) ++
  [EvConstruct (arg_op a) (Some p) None].

End RelocationSpec.

(** ** Scenarios *)

Section Scenarios.
Context {T : Type} `{Elem T}.

Fixpoint push_all (a : nat) (l : list T) : M T unit :=
  match l with
  | [] => ret tt
  | x :: l' => Vector_PushBack a false x;; push_all a l'
  end.

(** A Vector built by PushBack of the elements of [l] onto an empty one. *)
Definition vector_of (l : list T) : M T nat :=
  a ← Vector_default; push_all a l;; ret a.

End Scenarios.

Module IntScenarios.
#[local] Existing Instance int_elem.
Local Open Scope Z_scope.

Definition start : World Z := empty_world 1000 None.

(** One Vector, [1, 2, 3] with capacity 4. *)
Definition three : World Z := exec (vector_of [1; 2; 3]) start.
Definition three_vec : Vector := MkVector (MkRawMemory (MkPtr (Some 2%nat) 0) 4) 3.

(** One Vector, [1, 2] with capacity 2. *)
Definition two : World Z := exec (vector_of [1; 2]) start.
Definition two_vec : Vector := MkVector (MkRawMemory (MkPtr (Some 1%nat) 0) 2) 2.

(** One Vector, [0, ..., 9] with capacity 16. *)
Definition ten : World Z := exec (vector_of [0; 1; 2; 3; 4; 5; 6; 7; 8; 9]) start.
Definition ten_vec : Vector := MkVector (MkRawMemory (MkPtr (Some 4%nat) 0) 16) 10.

(** Vector 0 is [1] with capacity 3, Vector 1 is [7, 8, 9]. *)
Definition assign_before : World Z :=
  exec (a ← Vector_default; Vector_Reserve a 3;; Vector_PushBack a false 1;;
        vector_of [7; 8; 9]) start.

(** Vector 0 is [1, 2], Vector 1 is [7]. *)
Definition move_before : World Z := exec (vector_of [1; 2];; vector_of [7]) start.

(** One empty Vector. *)
Definition empty_one : World Z := exec Vector_default start.

End IntScenarios.

Module ThrowingScenarios.
#[local] Existing Instance throwing_elem.
Local Open Scope Z_scope.

(** One Vector, [1, 2] with capacity 2, of the type whose copies may throw;
    the next [k] copies succeed and the one after throws. *)
Definition two (k : nat) : World Z :=
  set_fuse (Some k) (exec (vector_of [1; 2]) (empty_world 1000 None)).
Definition two_vec : Vector := MkVector (MkRawMemory (MkPtr (Some 1%nat) 0) 2) 2.

(** Slot [i] of the block a growing operation on [two] allocates. *)
Definition new_slot (i : Z) : Ptr := MkPtr (Some 2%nat) i.

End ThrowingScenarios.

(** ** More of [RawMemory<T>] *)

Section RawMemoryAssignment.
Context {T : Type} `{Elem T}.

(** [RawMemory& operator=(RawMemory&& rhs) noexcept]; [same] tells whether
    [this == &rhs].  The result is the new [*this] and what is left of [rhs];
    the temporary that took over the former buffer of [*this] is destroyed at
    the end of the block. *)
Definition RawMemory_move_assign (same : bool) (this rhs : RawMemory)
  : M T (RawMemory * RawMemory) :=
  noexcept (
    if negb same then
      let '(temp, rhs') := RawMemory_move_ctor rhs in
      let '(this', temp') := RawMemory_Swap this temp in
      RawMemory_dtor temp';;
      ret (this', rhs')
    else ret (this, rhs)).

End RawMemoryAssignment.

(** ** Frames over whole blocks *)

Section BlockFrames.
Context {T : Type}.

(** [w'] differs from [w] at most in the fuse, the log and the blocks that
    satisfy [B] (which may have been allocated, changed or released). *)
Record changes_only (B : nat → Prop) (w w' : World T) : Prop := {
  co_objs : objs w' = objs w;
  co_elem : elem_size w' = elem_size w;
  co_limit : alloc_limit w' = alloc_limit w;
  co_fuse : fuse w = None → fuse w' = None;
  co_size : ∀ b, ¬ B b → block_size (heap w') b = block_size (heap w) b;
  co_slot : ∀ q b, p_block q = Some b → ¬ B b →
            slot_at (heap w') q = slot_at (heap w) q
}.

(** The block a pointer points into, as a set of blocks. *)
Definition block_of (p : Ptr) (b : nat) : Prop := p_block p = Some b.

(** The copy assignments of [n] objects from slot [cur] of [s] to slot [cur]
    of [d]. *)
Definition copy_assign_events (d s : Ptr) (cur n : nat) : list Event :=
  map (λ i, EvAssign CopyAssign (Some (ptr_add d (Z.of_nat i)))
                                (Some (ptr_add s (Z.of_nat i)))) (seq cur n).

(** Two Vectors that own different blocks: their buffers point into the same
    block only when both are null. *)
Definition separate (va vb : Vector) : Prop :=
  p_block (buffer_ (data_ va)) = p_block (buffer_ (data_ vb)) →
  p_block (buffer_ (data_ va)) = None.

(** The constructions of [n] value-initialised objects from slot [cur] of [d]. *)
Definition value_events (d : Ptr) (cur n : nat) : list Event :=
  map (λ i, EvConstruct DefaultCtor (Some (ptr_add d (Z.of_nat i))) None) (seq cur n).

(** A capacity reached by doubling from 1. *)
Definition doubled (c : Z) : Prop := ∃ m : nat, c = (2 ^ Z.of_nat m)%Z.

End BlockFrames.

(** ** What no operation touches *)

Section Environment.
Context {T : Type}.

(** A computation that leaves the allocator's limit alone and, started with
    the fuse unset, ends with the fuse unset. *)
Definition keeps_env {A} (m : M T A) : Prop :=
  ∀ w o w', m w = (o, w') →
    alloc_limit w' = alloc_limit w ∧ (fuse w = None → fuse w' = None).

End Environment.

(** ** More scenarios *)

(** The same world with an allocator that has nothing left to give. *)
Definition out_of_memory {T} (w : World T) : World T :=
  MkWorld (heap w) (objs w) (fuse w) 0 (log w) (elem_size w).

Module PairScenarios.
#[local] Existing Instance int_elem.
Local Open Scope Z_scope.

(** Two Vectors: Vector 0 is [1, 2] with capacity 2 in block 1, Vector 1 is
    [7] with capacity 1 in block 2. *)
Definition pair : World Z := exec (vector_of [1; 2];; vector_of [7]) IntScenarios.start.
Definition first_vec : Vector := MkVector (MkRawMemory (MkPtr (Some 1%nat) 0) 2) 2.
Definition second_vec : Vector := MkVector (MkRawMemory (MkPtr (Some 2%nat) 0) 1) 1.

(** Vector 0 is empty with capacity 3, Vector 1 is [7, 8, 9] with capacity 4. *)
Definition reserved : World Z :=
  exec (a ← Vector_default; Vector_Reserve a 3;; vector_of [7; 8; 9]) IntScenarios.start.
Definition reserved_vec : Vector := MkVector (MkRawMemory (MkPtr (Some 0%nat) 0) 3) 0.
Definition source_vec : Vector := MkVector (MkRawMemory (MkPtr (Some 3%nat) 0) 4) 3.

(** A default-constructed Vector. *)
Definition empty_vec : Vector := MkVector RawMemory_default 0.

(** One Vector, [1, 2] with capacity 2, and an allocator that has nothing
    left to give. *)
Definition full : World Z := out_of_memory IntScenarios.two.

(** A count of [int]s whose byte count wraps around [size_t] to 4. *)
Definition wrapping_count : Z := 2 ^ 62 + 1.

End PairScenarios.

Module ThrowingRoom.
#[local] Existing Instance throwing_elem.
Local Open Scope Z_scope.

(** One Vector, [1, 2, 3] with capacity 4, of the type whose copies may
    throw; the next [k] copies succeed and the one after throws. *)
Definition three (k : nat) : World Z :=
  set_fuse (Some k) (exec (vector_of [1; 2; 3]) (empty_world 1000 None)).
Definition three_vec : Vector := MkVector (MkRawMemory (MkPtr (Some 2%nat) 0) 4) 3.

End ThrowingRoom.

(** * Proofs *)

(** ** Slots and blocks *)

Section HeapLemmas.
Context {T : Type}.
Implicit Types (h : list (option (list (Slot T)))) (p q : Ptr) (s : Slot T).

Lemma ptr_add_0 p : ptr_add p 0 = p.
Proof. destruct p; unfold ptr_add; simpl. f_equal. lia. Qed.

Lemma ptr_add_add p a b : ptr_add (ptr_add p a) b = ptr_add p (a + b).
Proof. unfold ptr_add; simpl. f_equal. lia. Qed.

Lemma ptr_eq p q : p_block p = p_block q → p_off p = p_off q → p = q.
Proof. destruct p, q; simpl; congruence. Qed.

Lemma slot_at_write_same h p s s0 :
  slot_at h p = Some s0 → slot_at (write_slot p s h) p = Some s.
Proof.
  unfold slot_at, write_slot. destruct (p_block p) as [b|]; [|done].
  destruct (p_off p <? 0)%Z; [done|].
  destruct (h !! b) as [[blk|]|] eqn:Hb; try done.
  intros Hs. rewrite list_lookup_insert_eq by (by eapply lookup_lt_Some).
  apply list_lookup_insert_eq. by eapply lookup_lt_Some.
Qed.

Lemma slot_at_write_other h p q s :
  p ≠ q → slot_at (write_slot p s h) q = slot_at h q.
Proof.
  intros Hne. unfold slot_at, write_slot.
  destruct (p_block p) as [b|] eqn:Hp; [|done].
  destruct (p_off p <? 0)%Z eqn:Hoff; [done|].
  destruct (h !! b) as [[blk|]|] eqn:Hb; try done.
  destruct (p_block q) as [b'|] eqn:Hq; [|done].
  destruct (p_off q <? 0)%Z eqn:Hoff'; [done|].
  destruct (decide (b = b')) as [->|Hbb].
  - rewrite list_lookup_insert_eq by (by eapply lookup_lt_Some). rewrite Hb.
    apply list_lookup_insert_ne. intros Heq. apply Hne, ptr_eq; [congruence|].
    apply Z.ltb_ge in Hoff, Hoff'. lia.
  - by rewrite list_lookup_insert_ne.
Qed.

Lemma block_size_write h p s b :
  block_size (write_slot p s h) b = block_size h b.
Proof.
  unfold block_size, write_slot.
  destruct (p_block p) as [b0|]; [|done].
  destruct (p_off p <? 0)%Z; [done|].
  destruct (h !! b0) as [[blk|]|] eqn:Hb; try done.
  destruct (decide (b0 = b)) as [->|Hbb].
  - rewrite list_lookup_insert_eq by (by eapply lookup_lt_Some). rewrite Hb.
    by rewrite length_insert.
  - by rewrite list_lookup_insert_ne.
Qed.

Lemma block_size_lt h b n : block_size h b = Some n → (b < length h)%nat.
Proof.
  unfold block_size. destruct (h !! b) as [o|] eqn:Hb; [|done].
  intros _. by eapply lookup_lt_Some.
Qed.

Lemma slot_at_Some_block h p s :
  slot_at h p = Some s →
  ∃ b n, p_block p = Some b ∧ block_size h b = Some n ∧ (0 ≤ p_off p < Z.of_nat n)%Z.
Proof.
  unfold slot_at, block_size. destruct (p_block p) as [b|]; [|done].
  destruct (p_off p <? 0)%Z eqn:Hoff; [done|].
  destruct (h !! b) as [[blk|]|] eqn:Hb; try done.
  intros Hs. exists b, (length blk). rewrite Hb. split_and!; try done.
  - by apply Z.ltb_ge.
  - apply lookup_lt_Some in Hs. apply Z.ltb_ge in Hoff. lia.
Qed.

Lemma decide_raw (o : option (Slot T)) : o = Some Raw ∨ o ≠ Some Raw.
Proof. destruct o as [[|x]|]; [by left|by right..]. Qed.

End HeapLemmas.

(** Two pointers differ because their offsets, or their blocks, differ. *)
Ltac by_offset :=
  let Heq := fresh "Heq" in
  intros Heq; apply (f_equal p_off) in Heq; simpl in Heq; lia.
Ltac by_block :=
  let Heq := fresh "Heq" in
  intros Heq; apply (f_equal p_block) in Heq; simpl in Heq; congruence.

(** The size of a slot is the same in every world an operation went
    through. *)
Ltac solve_elem :=
  simpl;
  repeat match goal with
  | H : evolves _ _ ?w |- context [elem_size ?w] => rewrite (ev_elem _ _ _ H)
  | H : changes_only _ _ ?w |- context [elem_size ?w] => rewrite (co_elem _ _ _ H)
  | H : elem_size ?w = _ |- context [elem_size ?w] => rewrite H
  end;
  done.

(** ** Element operations *)

Section Primitives.
Context {T : Type} `{Elem T}.
Implicit Types (w : World T) (p q dst src : Ptr).

Lemma evolves_refl P w : evolves P w w.
Proof. by split. Qed.

Lemma evolves_weaken (P Q : Ptr → Prop) w w' :
  evolves P w w' → (∀ q, P q → Q q) → evolves Q w w'.
Proof. intros [] HPQ. split; auto. Qed.

Lemma evolves_trans (P : Ptr → Prop) w w1 w2 :
  evolves P w w1 → evolves P w1 w2 → evolves P w w2.
Proof.
  intros [Ho1 Hz1 Ha1 Hf1 Hs1 Hfr1] [Ho2 Hz2 Ha2 Hf2 Hs2 Hfr2]. split.
  - congruence.
  - congruence.
  - congruence.
  - auto.
  - intros b. by rewrite Hs2.
  - intros q Hq. rewrite Hfr2 by done. auto.
Qed.

Lemma evolves_set_fuse P f w : (fuse w = None → f = None) → evolves P w (set_fuse f w).
Proof. by split. Qed.

Lemma evolves_write P p s e w w1 :
  evolves P w w1 → heap w1 = heap w → P p →
  evolves P w (emit e (set_heap (write_slot p s (heap w1)) w1)).
Proof.
  intros [Ho1 Hz1 Ha1 Hf1 Hs1 Hfr1] Hh Hp. split; simpl; auto.
  - intros b. rewrite block_size_write. auto.
  - intros q Hq. rewrite slot_at_write_other by (intros ->; done). auto.
Qed.

Lemma evolves_write_silent P p s w :
  P p → evolves P w (set_heap (write_slot p s (heap w)) w).
Proof.
  intros Hp. split; simpl; auto.
  - intros b. by rewrite block_size_write.
  - intros q Hq. by rewrite slot_at_write_other by (intros ->; done).
Qed.

Lemma tick_cases op w :
  (∃ w', tick op w = (Ok tt, w') ∧ heap w' = heap w ∧ log w' = log w ∧
         evolves (λ _, False) w w') ∨
  (tick op w = (Throw element_failure, set_fuse None w) ∧ fuse w ≠ None ∧
   may_throw op = true).
Proof.
  unfold tick. destruct (may_throw op).
  - destruct (fuse w) as [[|k]|] eqn:Hf.
    + by right.
    + left. eexists. split_and!; [done..|]. apply evolves_set_fuse. congruence.
    + left. eexists. split_and!; [done..|]. apply evolves_refl.
  - left. eexists. split_and!; [done..|]. apply evolves_refl.
Qed.

Lemma tick_quiet op w : quiet op w → tick op w = (Ok tt, w).
Proof. unfold tick. intros [->| ->]; [done|]. by destruct (may_throw op). Qed.

Lemma read_live p x w : slot_at (heap w) p = Some (Live x) → read p w = (Ok x, w).
Proof. unfold read. by intros ->. Qed.

Lemma construct_at_spec op dst from v w :
  slot_at (heap w) dst = Some Raw →
  (∃ w', construct_at op dst from v w = (Ok tt, w') ∧ evolves (eq dst) w w' ∧
         slot_at (heap w') dst = Some (Live v) ∧
         log w' = EvConstruct op (Some dst) from :: log w) ∨
  (construct_at op dst from v w = (Throw element_failure, set_fuse None w) ∧
   fuse w ≠ None ∧ may_throw op = true).
Proof.
  intros Hraw. unfold construct_at. rewrite Hraw. unfold bind.
  destruct (tick_cases op w) as [(w1 & -> & Hh & Hl & Hev)|(-> & ? & ?)]; [left|by right].
  eexists. split; [done|]. split_and!.
  - apply evolves_write; [|done..]. eapply evolves_weaken; [exact Hev|intros ? []].
  - simpl. rewrite Hh. by eapply slot_at_write_same.
  - simpl. by rewrite Hl.
Qed.

Lemma assign_at_spec op dst from v v0 w :
  slot_at (heap w) dst = Some (Live v0) →
  (∃ w', assign_at op dst from v w = (Ok tt, w') ∧ evolves (eq dst) w w' ∧
         slot_at (heap w') dst = Some (Live v) ∧
         log w' = EvAssign op (Some dst) from :: log w) ∨
  (assign_at op dst from v w = (Throw element_failure, set_fuse None w) ∧
   fuse w ≠ None ∧ may_throw op = true).
Proof.
  intros Hlive. unfold assign_at. rewrite Hlive. unfold bind.
  destruct (tick_cases op w) as [(w1 & -> & Hh & Hl & Hev)|(-> & ? & ?)]; [left|by right].
  eexists. split; [done|]. split_and!.
  - apply evolves_write; [|done..]. eapply evolves_weaken; [exact Hev|intros ? []].
  - simpl. rewrite Hh. by eapply slot_at_write_same.
  - simpl. by rewrite Hl.
Qed.

Lemma destroy_at_spec p x w :
  slot_at (heap w) p = Some (Live x) →
  ∃ w', destroy_at p w = (Ok tt, w') ∧ evolves (eq p) w w' ∧
        slot_at (heap w') p = Some Raw ∧ fuse w' = fuse w ∧
        log w' = EvDestroy (Some p) :: log w.
Proof.
  intros Hlive. unfold destroy_at. rewrite Hlive. eexists. split; [done|]. split_and!.
  - apply evolves_write; [apply evolves_refl|done..].
  - simpl. by eapply slot_at_write_same.
  - done.
  - done.
Qed.

Lemma copy_construct_step : StepSpec CopyCtor (λ x, x) copy_construct.
Proof.
  intros w dst src x Hraw Hlive. unfold copy_construct, bind.
  rewrite (read_live _ _ _ Hlive).
  destruct (construct_at_spec CopyCtor dst (Some src) x w Hraw)
    as [(w' & -> & Hev & Hd & Hl)|(-> & ? & ?)]; [left|by right].
  exists w'. split_and!; try done.
  - eapply evolves_weaken; [done|]. intros q <-. by left.
  - rewrite (ev_frame _ _ _ Hev); [done|]. intros <-. congruence.
Qed.

Lemma move_construct_step : StepSpec MoveCtor moved_from move_construct.
Proof.
  intros w dst src x Hraw Hlive. unfold move_construct, bind.
  rewrite (read_live _ _ _ Hlive).
  destruct (construct_at_spec MoveCtor dst (Some src) x w Hraw)
    as [(w' & -> & Hev & Hd & Hl)|(-> & ? & ?)]; [left|by right].
  assert (dst ≠ src) as Hne by (intros <-; congruence).
  assert (slot_at (heap w') src = Some (Live x)) as Hsrc
    by (rewrite (ev_frame _ _ _ Hev); [done|congruence]).
  eexists. split; [done|]. split_and!; simpl.
  - eapply evolves_trans.
    + eapply evolves_weaken; [done|]. intros q <-. by left.
    + apply evolves_write_silent. by right.
  - by rewrite slot_at_write_other.
  - by eapply slot_at_write_same.
  - done.
Qed.

Lemma construct_at_fault op dst from v w :
  slot_at (heap w) dst ≠ Some Raw →
  construct_at op dst from v w = (Undefined (NotRaw dst), w).
Proof.
  intros Hne. unfold construct_at.
  by destruct (slot_at (heap w) dst) as [[|y]|].
Qed.

Lemma copy_construct_fault : StepFault copy_construct.
Proof.
  intros w dst src x Hne Hlive. exists (NotRaw dst). unfold copy_construct, bind.
  by rewrite (read_live _ _ _ Hlive), construct_at_fault.
Qed.

Lemma move_construct_fault : StepFault move_construct.
Proof.
  intros w dst src x Hne Hlive. exists (NotRaw dst). unfold move_construct, bind.
  by rewrite (read_live _ _ _ Hlive), construct_at_fault.
Qed.

End Primitives.

(** ** The loops of the standard algorithms *)

Section Loops.
Context {T : Type} `{Elem T}.
Implicit Types (w : World T) (p q : Ptr).

Lemma in_range_weaken p n p' n' q :
  p_block p' = p_block p →
  (p_off p ≤ p_off p')%Z → (p_off p' + Z.of_nat n' ≤ p_off p + Z.of_nat n)%Z →
  in_range p' n' q → in_range p n q.
Proof. unfold in_range. intros ??? [??]. split; [congruence|lia]. Qed.

Lemma in_range_here p n : in_range p (S n) p.
Proof. unfold in_range. split; [done|lia]. Qed.

Lemma destroy_events_S p cur n :
  destroy_events p cur (S n) =
  EvDestroy (Some (ptr_add p (Z.of_nat cur))) :: destroy_events p (S cur) n.
Proof. done. Qed.

Lemma destroy_events_shift p cur n :
  destroy_events (ptr_add p 1) cur n = destroy_events p (S cur) n.
Proof.
  unfold destroy_events. rewrite <- fmap_S_seq, <- list_fmap_compose.
  apply list_fmap_ext. intros i x _. simpl. rewrite ptr_add_add. do 3 f_equal. lia.
Qed.

Lemma destroy_events_snoc p cur n :
  destroy_events p cur (S n) =
  destroy_events p cur n ++ [EvDestroy (Some (ptr_add p (Z.of_nat (cur + n))))].
Proof. unfold destroy_events. by rewrite seq_S, fmap_app. Qed.

Lemma construct_events_S op d s cur n :
  construct_events op d s cur (S n) =
  EvConstruct op (Some (ptr_add d (Z.of_nat cur))) (Some (ptr_add s (Z.of_nat cur)))
    :: construct_events op d s (S cur) n.
Proof. done. Qed.

(** [std::destroy_n] over live slots turns them raw, in order. *)
Lemma destroy_loop_spec n : ∀ p w,
  (∀ i, (i < n)%nat → ∃ x, slot_at (heap w) (ptr_add p (Z.of_nat i)) = Some (Live x)) →
  ∃ w', destroy_loop p n w = (Ok tt, w') ∧ evolves (in_range p n) w w' ∧
        (∀ i, (i < n)%nat → slot_at (heap w') (ptr_add p (Z.of_nat i)) = Some Raw) ∧
        fuse w' = fuse w ∧
        log w' = rev (destroy_events p 0 n) ++ log w.
Proof.
  induction n as [|n IH]; intros p w Hlive.
  - exists w. split_and!; try done; try apply evolves_refl; intros; lia.
  - destruct (Hlive 0%nat ltac:(lia)) as [x0 Hx0]. simpl in Hx0. rewrite ptr_add_0 in Hx0.
    destruct (destroy_at_spec p x0 w Hx0) as (w1 & Hrun & Hev1 & Hraw1 & Hf1 & Hl1).
    destruct (IH (ptr_add p 1) w1) as (w' & Hrun' & Hev' & Hraw' & Hf' & Hl').
    { intros i Hi. destruct (Hlive (S i) ltac:(lia)) as [x Hx]. exists x.
      rewrite ptr_add_add, (ev_frame _ _ _ Hev1).
      - rewrite <- Hx. do 2 f_equal. lia.
      - by_offset. }
    exists w'. split_and!.
    + simpl. unfold bind. by rewrite Hrun.
    + eapply evolves_trans.
      * eapply evolves_weaken; [exact Hev1|]. intros q <-. apply in_range_here.
      * eapply evolves_weaken; [exact Hev'|]. intros q.
        apply in_range_weaken; simpl; [done|lia..].
    + intros [|i] Hi.
      * simpl. rewrite ptr_add_0, (ev_frame _ _ _ Hev'); [done|].
        unfold in_range. simpl. lia.
      * specialize (Hraw' i ltac:(lia)). rewrite ptr_add_add in Hraw'.
        rewrite <- Hraw'. do 2 f_equal. lia.
    + congruence.
    + rewrite Hl', Hl1, destroy_events_S, destroy_events_shift. simpl.
      rewrite ptr_add_0. by rewrite <- app_assoc.
Qed.

(** The loops of [std::uninitialized_copy_n] and [std::uninitialized_move_n]
    between two different blocks, whatever the destination is: either every
    slot is built, or one construction throws and the slots built so far are
    destroyed again, or the loop reaches a destination that is not raw
    storage. *)
Lemma uninit_loop_cases op g construct (xs : list T) first d_first :
  StepSpec op g construct →
  StepFault construct →
  p_block first ≠ p_block d_first →
  ∀ n cur w,
  (∀ i, (i < cur)%nat → ∃ x, slot_at (heap w) (ptr_add d_first (Z.of_nat i)) = Some (Live x)) →
  (∀ i, (cur ≤ i < cur + n)%nat →
        ∃ x, xs !! i = Some x ∧ slot_at (heap w) (ptr_add first (Z.of_nat i)) = Some (Live x)) →
  ∃ o w', uninit_loop construct first d_first cur n w = (o, w') ∧
    match o with
    | Ok _ =>
        evolves (λ q, in_range (ptr_add d_first (Z.of_nat cur)) n q ∨
                      in_range (ptr_add first (Z.of_nat cur)) n q) w w' ∧
        (∀ i x, (cur ≤ i < cur + n)%nat → xs !! i = Some x →
           slot_at (heap w') (ptr_add d_first (Z.of_nat i)) = Some (Live x) ∧
           slot_at (heap w') (ptr_add first (Z.of_nat i)) = Some (Live (g x))) ∧
        log w' = rev (construct_events op d_first first cur n) ++ log w
    | Throw e =>
        e = element_failure ∧ fuse w ≠ None ∧ may_throw op = true ∧ fuse w' = None ∧
        ∃ j, (j < n)%nat ∧
          evolves (λ q, in_range d_first (cur + j) q ∨
                        in_range (ptr_add first (Z.of_nat cur)) j q) w w' ∧
          (∀ i, (i < cur + j)%nat →
             slot_at (heap w') (ptr_add d_first (Z.of_nat i)) = Some Raw) ∧
          (∀ i x, (cur ≤ i < cur + j)%nat → xs !! i = Some x →
             slot_at (heap w') (ptr_add first (Z.of_nat i)) = Some (Live (g x))) ∧
          log w' = rev (destroy_events d_first 0 (cur + j)) ++
                   rev (construct_events op d_first first cur j) ++ log w
    | Undefined _ =>
        ∃ i, (cur ≤ i < cur + n)%nat ∧
             slot_at (heap w) (ptr_add d_first (Z.of_nat i)) ≠ Some Raw
    | _ => False
    end.
Proof.
  intros HS HF Hblk. induction n as [|n IH]; intros cur w Hplaced Hsrc.
  - exists (Ok tt), w. split; [done|]. split_and!.
    + apply evolves_refl.
    + intros; lia.
    + done.
  - destruct (Hsrc cur ltac:(lia)) as (x0 & Hx0 & Hs0).
    destruct (decide_raw (slot_at (heap w) (ptr_add d_first (Z.of_nat cur))))
      as [Hr0|Hr0]; cycle 1.
    { destruct (HF w _ _ x0 Hr0 Hs0) as [f Hrun]. exists (Undefined f), w. split.
      - simpl. unfold bind, catch. by rewrite Hrun.
      - exists cur. split; [lia|done]. }
    assert (∀ i j : nat, ptr_add d_first (Z.of_nat i) ≠ ptr_add first (Z.of_nat j)) as Hdf.
    { intros i j Heq. apply (f_equal p_block) in Heq. simpl in Heq. congruence. }
    assert (∀ i j : nat, i ≠ j → ∀ p, ptr_add p (Z.of_nat i) ≠ ptr_add p (Z.of_nat j)) as Hij.
    { intros i j Hne p Heq. apply (f_equal p_off) in Heq. simpl in Heq. lia. }
    destruct (HS w _ _ x0 Hr0 Hs0) as [(w1 & Hrun & Hev1 & Hd1 & Hs1 & Hl1)|(Hrun & Hf & Hmt)].
    + (* the construction succeeded *)
      assert (∀ q, q ≠ ptr_add d_first (Z.of_nat cur) → q ≠ ptr_add first (Z.of_nat cur) →
                   slot_at (heap w1) q = slot_at (heap w) q) as Hfr1.
      { intros q ??. apply (ev_frame _ _ _ Hev1). tauto. }
      destruct (IH (S cur) w1) as (o & w' & Hrun' & Hpost).
      { intros i Hi. destruct (decide (i = cur)) as [->|Hne]; [eauto|].
        destruct (Hplaced i ltac:(lia)) as [x Hx]. exists x.
        rewrite Hfr1; [done|by apply Hij|apply Hdf]. }
      { intros i Hi. destruct (Hsrc i ltac:(lia)) as (x & Hx & Hs). exists x.
        split; [done|]. rewrite Hfr1; [done|by apply not_eq_sym, Hdf|apply Hij; lia]. }
      exists o, w'. split.
      { simpl. unfold bind, catch. by rewrite Hrun. }
      destruct o as [[]|e| | |f]; try done.
      * destruct Hpost as (Hev' & Hvals & Hl').
        assert (∀ q, ¬ (in_range (ptr_add d_first (Z.of_nat (S cur))) n q ∨
                        in_range (ptr_add first (Z.of_nat (S cur))) n q) →
                     slot_at (heap w') q = slot_at (heap w1) q) as Hfr'
          by (intros q ?; by apply (ev_frame _ _ _ Hev')).
        split_and!.
        -- eapply evolves_trans.
           ++ eapply evolves_weaken; [exact Hev1|]. intros q [-> | ->]; [left|right];
                apply in_range_here.
           ++ eapply evolves_weaken; [exact Hev'|]. intros q [Hq|Hq]; [left|right];
                revert Hq; apply in_range_weaken; simpl; try done; lia.
        -- intros i x Hi Hx. destruct (decide (i = cur)) as [->|Hne].
           ++ assert (x = x0) as -> by congruence.
              rewrite !Hfr'; [done|..]; unfold in_range; simpl;
                (intros [[Hb ?]|[Hb ?]]; [try lia; congruence..]).
           ++ apply Hvals; [lia|done].
        -- rewrite Hl', Hl1, construct_events_S. cbn [rev]. by rewrite <- app_assoc.
      * destruct Hpost as (-> & Hf & Hmt & Hf' & j & Hj & Hev' & Hraw' & Hsrc' & Hl').
        split_and!; try done.
        { intros Hnone. apply Hf. by apply (ev_fuse _ _ _ Hev1). }
        exists (S j). split; [lia|].
        assert (∀ q, ¬ (in_range d_first (S cur + j) q ∨
                        in_range (ptr_add first (Z.of_nat (S cur))) j q) →
                     slot_at (heap w') q = slot_at (heap w1) q) as Hfr'
          by (intros q ?; by apply (ev_frame _ _ _ Hev')).
        split_and!.
        -- eapply evolves_trans.
           ++ eapply evolves_weaken; [exact Hev1|]. intros q [-> | ->]; [left|right].
              ** unfold in_range. simpl. split; [done|lia].
              ** apply in_range_here.
           ++ eapply evolves_weaken; [exact Hev'|]. intros q [Hq|Hq]; [left|right];
                revert Hq; apply in_range_weaken; simpl; try done; lia.
        -- intros i Hi. apply Hraw'. lia.
        -- intros i x Hi Hx. destruct (decide (i = cur)) as [->|Hne].
           ++ assert (x = x0) as -> by congruence.
              rewrite Hfr'; [done|]. unfold in_range. simpl.
              intros [[Hb ?]|[Hb ?]]; [try lia; congruence..].
           ++ apply Hsrc'; [lia|done].
        -- rewrite Hl', Hl1, construct_events_S. cbn [rev].
           replace (cur + S j)%nat with (S cur + j)%nat by lia.
           by rewrite <- !app_assoc.
      * destruct Hpost as (i & Hi & Hne). exists i. split; [lia|].
        rewrite <- Hfr1; [done|apply Hij; lia|apply Hdf].
    + (* the construction threw: the slots built so far are destroyed *)
      destruct (destroy_loop_spec cur d_first (set_fuse None w))
        as (w' & Hrun' & Hev' & Hraw' & Hf' & Hl'); [done|].
      exists (Throw element_failure), w'. split.
      { simpl. unfold bind, catch. rewrite Hrun. unfold bind. by rewrite Hrun'. }
      split_and!; try done.
      exists 0%nat. split; [lia|]. rewrite Nat.add_0_r. split_and!.
      * eapply evolves_trans; [apply evolves_set_fuse; done|].
        eapply evolves_weaken; [exact Hev'|]. by left.
      * done.
      * intros; lia.
      * by rewrite Hl'.
Qed.

(** The same loops over raw storage. *)
Lemma uninit_loop_spec op g construct (xs : list T) first d_first :
  StepSpec op g construct →
  StepFault construct →
  p_block first ≠ p_block d_first →
  ∀ n cur w,
  (∀ i, (i < cur)%nat → ∃ x, slot_at (heap w) (ptr_add d_first (Z.of_nat i)) = Some (Live x)) →
  (∀ i, (cur ≤ i < cur + n)%nat →
        slot_at (heap w) (ptr_add d_first (Z.of_nat i)) = Some Raw) →
  (∀ i, (cur ≤ i < cur + n)%nat →
        ∃ x, xs !! i = Some x ∧ slot_at (heap w) (ptr_add first (Z.of_nat i)) = Some (Live x)) →
  ∃ o w', uninit_loop construct first d_first cur n w = (o, w') ∧
    match o with
    | Ok _ =>
        evolves (λ q, in_range (ptr_add d_first (Z.of_nat cur)) n q ∨
                      in_range (ptr_add first (Z.of_nat cur)) n q) w w' ∧
        (∀ i x, (cur ≤ i < cur + n)%nat → xs !! i = Some x →
           slot_at (heap w') (ptr_add d_first (Z.of_nat i)) = Some (Live x) ∧
           slot_at (heap w') (ptr_add first (Z.of_nat i)) = Some (Live (g x))) ∧
        log w' = rev (construct_events op d_first first cur n) ++ log w
    | Throw e =>
        e = element_failure ∧ fuse w ≠ None ∧ may_throw op = true ∧ fuse w' = None ∧
        ∃ j, (j < n)%nat ∧
          evolves (λ q, in_range d_first (cur + j) q ∨
                        in_range (ptr_add first (Z.of_nat cur)) j q) w w' ∧
          (∀ i, (i < cur + j)%nat →
             slot_at (heap w') (ptr_add d_first (Z.of_nat i)) = Some Raw) ∧
          (∀ i x, (cur ≤ i < cur + j)%nat → xs !! i = Some x →
             slot_at (heap w') (ptr_add first (Z.of_nat i)) = Some (Live (g x))) ∧
          log w' = rev (destroy_events d_first 0 (cur + j)) ++
                   rev (construct_events op d_first first cur j) ++ log w
    | _ => False
    end.
Proof.
  intros HS HF Hblk n cur w Hplaced Hraw Hsrc.
  destruct (uninit_loop_cases op g construct xs first d_first HS HF Hblk n cur w
              Hplaced Hsrc) as (o & w' & Hrun & Hpost).
  exists o, w'. split; [done|]. destruct o as [[]|e| | |f]; try done.
  destruct Hpost as (i & Hi & Hne). by rewrite Hraw in Hne.
Qed.

End Loops.

(** ** Allocation, release and the object store *)

Section Allocation.
Context {T : Type} `{Elem T}.
Implicit Types (w : World T) (p q : Ptr) (h : list (option (list (Slot T)))).

Lemma slot_at_alloc_old h blk q :
  p_block q ≠ Some (length h) → slot_at (h ++ [Some blk]) q = slot_at h q.
Proof.
  intros Hq. unfold slot_at. destruct (p_block q) as [b|]; [|done].
  destruct (p_off q <? 0)%Z; [done|].
  destruct (decide (b < length h)%nat) as [Hlt|Hge].
  - by rewrite lookup_app_l.
  - assert (b ≠ length h) by congruence.
    rewrite !lookup_ge_None_2; [done|lia|]. rewrite length_app. simpl. lia.
Qed.

Lemma slot_at_alloc_new h n i :
  (0 ≤ i < Z.of_nat n)%Z →
  slot_at (h ++ [Some (replicate n (@Raw T))]) (MkPtr (Some (length h)) i) = Some Raw.
Proof.
  intros Hi. unfold slot_at. simpl.
  destruct (i <? 0)%Z eqn:Hneg; [apply Z.ltb_lt in Hneg; lia|].
  rewrite lookup_app_r, Nat.sub_diag by lia. simpl.
  apply lookup_replicate_2. lia.
Qed.

Lemma block_size_alloc_old h blk b :
  b ≠ length h → block_size (h ++ [Some blk]) b = block_size h b.
Proof.
  intros Hb. unfold block_size.
  destruct (decide (b < length h)%nat) as [Hlt|Hge].
  - by rewrite lookup_app_l.
  - rewrite !lookup_ge_None_2; [done|lia|]. rewrite length_app. simpl. lia.
Qed.

Lemma block_size_alloc_new h blk :
  block_size (h ++ [Some blk]) (length h) = Some (length blk).
Proof. unfold block_size. by rewrite lookup_app_r, Nat.sub_diag by lia. Qed.

Lemma slot_at_release h p q :
  p_block q ≠ p_block p → slot_at (release p h) q = slot_at h q.
Proof.
  intros Hq. unfold release, slot_at. destruct (p_block p) as [b|]; [|done].
  destruct (p_block q) as [b'|]; [|done].
  destruct (p_off q <? 0)%Z; [done|].
  rewrite list_lookup_insert_ne; [done|congruence].
Qed.

Lemma block_size_release h p b :
  p_block p ≠ Some b → block_size (release p h) b = block_size h b.
Proof.
  intros Hb. unfold release, block_size. destruct (p_block p) as [b'|]; [|done].
  rewrite list_lookup_insert_ne; [done|congruence].
Qed.

Lemma sizeof_pos w : (0 < sizeof w)%Z.
Proof. unfold slot_bytes. lia. Qed.

Lemma max_slots_spec w n : (n ≤ max_slots w ↔ n * sizeof w ≤ ptrdiff_max)%Z.
Proof.
  unfold slots_max. pose proof (sizeof_pos w) as Hs. split.
  - intros Hn. pose proof (Z.mul_div_le ptrdiff_max (sizeof w) Hs). nia.
  - intros Hn. apply Z.div_le_lower_bound; [done|lia].
Qed.

Lemma alloc_limit_max w : (alloc_limit w ≤ max_slots w)%Z.
Proof. unfold limit_of. lia. Qed.

(** A request the allocator grants, and the capacity of a block, have a byte
    count that does not wrap. *)
Lemma max_slots_fits w n :
  (0 ≤ n ≤ max_slots w)%Z → (0 ≤ n * sizeof w < 2 ^ 64)%Z.
Proof.
  intros [Hn Hle]. apply max_slots_spec in Hle. pose proof (sizeof_pos w).
  unfold ptrdiff_max in Hle. split; [nia|lia].
Qed.

Lemma max_slots_doubled_fits w n :
  (0 ≤ n ≤ max_slots w)%Z → (0 ≤ (2 * n) * sizeof w < 2 ^ 64)%Z.
Proof.
  intros [Hn Hle]. apply max_slots_spec in Hle. pose proof (sizeof_pos w).
  unfold ptrdiff_max in Hle. split; [nia|lia].
Qed.

Lemma alloc_limit_fits w n :
  (0 ≤ n ≤ alloc_limit w)%Z → (0 ≤ n * sizeof w < 2 ^ 64)%Z.
Proof. intros Hn. apply max_slots_fits. pose proof (alloc_limit_max w). lia. Qed.

Lemma requested_bytes_fits w n :
  (0 ≤ n * sizeof w < 2 ^ 64)%Z → requested_bytes w n = (n * sizeof w)%Z.
Proof. intros Hn. unfold requested_bytes, wrap. by apply Z.mod_small. Qed.

Lemma granted_slots_fits w n :
  (0 ≤ n * sizeof w < 2 ^ 64)%Z → granted_slots w n = Z.to_nat n.
Proof.
  intros Hn. unfold granted_slots. rewrite requested_bytes_fits by done.
  rewrite Z.div_mul; [done|]. pose proof (sizeof_pos w). lia.
Qed.

(** When the byte count wraps, the block has fewer slots than were asked
    for. *)
Lemma granted_slots_wrapped w n :
  (0 ≤ n)%Z → (2 ^ 64 ≤ n * sizeof w)%Z → (Z.of_nat (granted_slots w n) < n)%Z.
Proof.
  intros Hn Hw. unfold granted_slots, requested_bytes, wrap.
  pose proof (sizeof_pos w) as Hs.
  pose proof (Z.mod_pos_bound (n * sizeof w) (2 ^ 64) ltac:(lia)) as Hm.
  rewrite Z2Nat.id by (apply Z.div_pos; lia).
  apply Z.div_lt_upper_bound; [done|]. lia.
Qed.

(** The outcome of the constructor of RawMemory, whatever the request. *)
Lemma RawMemory_ctor_cases n w :
  n ≠ 0%Z →
  RawMemory_ctor n w =
    if (requested_bytes w n <=? alloc_limit w * sizeof w)%Z
    then (Ok (MkRawMemory (MkPtr (Some (length (heap w))) 0) n),
          set_heap (heap w ++ [Some (replicate (granted_slots w n) Raw)]) w)
    else (Throw bad_alloc, w).
Proof.
  intros Hn. unfold RawMemory_ctor, bind, Allocate.
  rewrite bool_decide_true by done.
  by destruct (requested_bytes w n <=? alloc_limit w * sizeof w)%Z.
Qed.

(** A request whose byte count does not wrap is granted when it is within
    the limit, and then gives a block of [n] slots. *)
Lemma RawMemory_ctor_spec n w :
  n ≠ 0%Z → (0 ≤ n * sizeof w < 2 ^ 64)%Z →
  RawMemory_ctor n w =
    if (n <=? alloc_limit w)%Z
    then (Ok (MkRawMemory (MkPtr (Some (length (heap w))) 0) n),
          set_heap (heap w ++ [Some (replicate (Z.to_nat n) Raw)]) w)
    else (Throw bad_alloc, w).
Proof.
  intros Hn Hfit. rewrite RawMemory_ctor_cases by done.
  rewrite granted_slots_fits, requested_bytes_fits by done.
  pose proof (sizeof_pos w) as Hs.
  destruct (n <=? alloc_limit w)%Z eqn:Hle.
  - apply Z.leb_le in Hle. rewrite (proj2 (Z.leb_le _ _)); [done|nia].
  - apply Z.leb_gt in Hle. rewrite (proj2 (Z.leb_gt _ _)); [done|nia].
Qed.

(** The destructor of a RawMemory whose buffer is the start of a block that
    is still allocated, whatever its size. *)
Lemma RawMemory_dtor_block m w b :
  buffer_ m = MkPtr (Some b) 0 → is_Some (block_size (heap w) b) →
  RawMemory_dtor m w = (Ok tt, set_heap (release (buffer_ m) (heap w)) w).
Proof.
  unfold RawMemory_dtor, Deallocate, release. intros -> [n Hn]. simpl.
  unfold block_size in Hn. by destruct (heap w !! b) as [[blk|]|].
Qed.

Lemma RawMemory_dtor_spec m w :
  owns_block w m →
  RawMemory_dtor m w = (Ok tt, set_heap (release (buffer_ m) (heap w)) w).
Proof.
  unfold RawMemory_dtor, Deallocate, release.
  intros [[-> _]|(b & -> & _ & Hsz)]; simpl.
  - by destruct w.
  - unfold block_size in Hsz. by destruct (heap w !! b) as [[blk|]|].
Qed.

(** The destructor of a RawMemory in a later world that still has its
    block. *)
Lemma RawMemory_dtor_frame w w' m m' :
  owns_block w m → buffer_ m' = buffer_ m →
  (∀ b, p_block (buffer_ m) = Some b → block_size (heap w') b = block_size (heap w) b) →
  RawMemory_dtor m' w' = (Ok tt, set_heap (release (buffer_ m') (heap w')) w').
Proof.
  intros [[Hnull _]|(b & Hb & _ & Hsz)] Hm Hbs.
  - unfold RawMemory_dtor, Deallocate, release. rewrite Hm, Hnull. simpl. by destruct w'.
  - apply (RawMemory_dtor_block _ _ b); [congruence|]. rewrite Hbs by (by rewrite Hb). eauto.
Qed.

Lemma check_position_same v pos :
  p_block pos = p_block (buffer_ (data_ v)) →
  check_position (T:=T) v pos = assert (position_assertion v pos).
Proof.
  intros Hb. unfold check_position, same_block, cbegin, GetAddress.
  by rewrite bool_decide_true.
Qed.

Lemma load_obj_ok a v w : objs w !! a = Some (Some v) → load_obj a w = (Ok v, w).
Proof. unfold load_obj. by intros ->. Qed.

Lemma store_obj_ok a v v0 w :
  objs w !! a = Some (Some v0) →
  store_obj a v w = (Ok tt, set_objs (<[a := Some v]> (objs w)) w).
Proof. unfold store_obj. by intros ->. Qed.

Lemma owns_block_fresh w m :
  owns_block w m → p_block (buffer_ m) ≠ Some (length (heap w)).
Proof.
  intros [[-> _]|(b & -> & _ & Hsz)]; simpl; [done|].
  apply block_size_lt in Hsz. intros [=]. lia.
Qed.

Lemma owns_block_frame w w' m :
  owns_block w m → elem_size w' = elem_size w →
  (∀ b, p_block (buffer_ m) = Some b → block_size (heap w') b = block_size (heap w) b) →
  owns_block w' m.
Proof.
  intros [?|(b & Hb & ? & ?)] Hsize Hbs; [by left|right].
  exists b. rewrite Hsize. split; [done|]. split; [done|].
  rewrite Hbs; [done|]. by rewrite Hb.
Qed.

(** The invariant of a Vector only reads the block of its buffer. *)
Lemma holds_frame w w' v l :
  holds w v l →
  elem_size w' = elem_size w →
  (∀ b, p_block (buffer_ (data_ v)) = Some b →
        block_size (heap w') b = block_size (heap w) b) →
  (∀ q, p_block q = p_block (buffer_ (data_ v)) →
        slot_at (heap w') q = slot_at (heap w) q) →
  holds w' v l.
Proof.
  intros [Hsz Hcap Hblk Hlive Hraw] Hsize Hbs Hfr. split; try done.
  - by apply (owns_block_frame w).
  - intros i x Hx. rewrite Hfr; [by apply Hlive|done].
  - intros i Hi. rewrite Hfr; [by apply Hraw|done].
Qed.

(** *** Relocation *)

Lemma relocate_unfold first n d :
  relocate first n d =
  uninit_loop (if relocate_by_move then move_construct else copy_construct)
              first d 0 (Z.to_nat n).
Proof.
  unfold relocate, uninitialized_move_n, uninitialized_copy_n.
  by destruct relocate_by_move.
Qed.

Lemma relocate_step :
  StepSpec reloc_op reloc_left
           (if relocate_by_move then move_construct else copy_construct).
Proof.
  unfold reloc_op, reloc_left. destruct relocate_by_move.
  - apply move_construct_step.
  - apply copy_construct_step.
Qed.

Lemma relocate_fault :
  StepFault (if relocate_by_move then move_construct else copy_construct).
Proof.
  destruct relocate_by_move.
  - apply move_construct_fault.
  - apply copy_construct_fault.
Qed.

End Allocation.

(** ** Reserve *)

Section Reserve.
Context {T : Type} `{Elem T}.
Implicit Types (w : World T) (p q : Ptr) (v : Vector) (l : list T).

(** The relocation of [l] from [first] to [d], whatever [d] points to. *)
Lemma relocate_cases w l first d :
  p_block first ≠ p_block d →
  (∀ i x, l !! i = Some x →
     slot_at (heap w) (ptr_add first (Z.of_nat i)) = Some (Live x)) →
  ∃ o w', relocate first (Z.of_nat (length l)) d w = (o, w') ∧
    match o with
    | Ok _ =>
        evolves (λ q, in_range d (length l) q ∨ in_range first (length l) q) w w' ∧
        (∀ i x, l !! i = Some x →
           slot_at (heap w') (ptr_add d (Z.of_nat i)) = Some (Live x) ∧
           slot_at (heap w') (ptr_add first (Z.of_nat i)) = Some (Live (reloc_left x))) ∧
        log w' = rev (construct_events reloc_op d first 0 (length l)) ++ log w
    | Throw e =>
        e = element_failure ∧ fuse w ≠ None ∧ may_throw reloc_op = true ∧
        fuse w' = None ∧
        ∃ j, (j < length l)%nat ∧
          evolves (λ q, in_range d j q ∨ in_range first j q) w w' ∧
          (∀ i, (i < j)%nat →
             slot_at (heap w') (ptr_add d (Z.of_nat i)) = Some Raw) ∧
          (∀ i x, (i < j)%nat → l !! i = Some x →
             slot_at (heap w') (ptr_add first (Z.of_nat i)) = Some (Live (reloc_left x))) ∧
          log w' = rev (destroy_events d 0 j) ++
                   rev (construct_events reloc_op d first 0 j) ++ log w
    | Undefined _ =>
        ∃ i, (i < length l)%nat ∧ slot_at (heap w) (ptr_add d (Z.of_nat i)) ≠ Some Raw
    | _ => False
    end.
Proof.
  intros Hblk Hsrc. rewrite relocate_unfold, Nat2Z.id.
  destruct (uninit_loop_cases _ _ _ l first d relocate_step relocate_fault Hblk
              (length l) 0 w) as (o & w' & Hrun & Hpost).
  - intros; lia.
  - intros i Hi. destruct (lookup_lt_is_Some_2 l i ltac:(lia)) as [x Hx]. eauto.
  - exists o, w'. split; [done|]. simpl in Hpost. rewrite !ptr_add_0 in Hpost.
    destruct o as [[]|e| | |f]; try done.
    + destruct Hpost as (Hev & Hvals & Hl). split_and!; try done.
      intros i x Hx. apply Hvals; [|done]. apply lookup_lt_Some in Hx. lia.
    + destruct Hpost as (-> & ? & ? & ? & j & ? & ? & ? & Hs & ?).
      split_and!; try done. exists j. split_and!; try done.
      intros i x Hi Hx. apply Hs; [lia|done].
    + destruct Hpost as (i & Hi & Hne). exists i. split; [lia|done].
Qed.

(** The relocation into raw storage. *)
Lemma relocate_spec w l first d :
  p_block first ≠ p_block d →
  (∀ i x, l !! i = Some x →
     slot_at (heap w) (ptr_add first (Z.of_nat i)) = Some (Live x)) →
  (∀ i, (i < length l)%nat → slot_at (heap w) (ptr_add d (Z.of_nat i)) = Some Raw) →
  ∃ o w', relocate first (Z.of_nat (length l)) d w = (o, w') ∧
    match o with
    | Ok _ =>
        evolves (λ q, in_range d (length l) q ∨ in_range first (length l) q) w w' ∧
        (∀ i x, l !! i = Some x →
           slot_at (heap w') (ptr_add d (Z.of_nat i)) = Some (Live x) ∧
           slot_at (heap w') (ptr_add first (Z.of_nat i)) = Some (Live (reloc_left x))) ∧
        log w' = rev (construct_events reloc_op d first 0 (length l)) ++ log w
    | Throw e =>
        e = element_failure ∧ fuse w ≠ None ∧ may_throw reloc_op = true ∧
        fuse w' = None ∧
        ∃ j, (j < length l)%nat ∧
          evolves (λ q, in_range d j q ∨ in_range first j q) w w' ∧
          (∀ i, (i < j)%nat →
             slot_at (heap w') (ptr_add d (Z.of_nat i)) = Some Raw) ∧
          (∀ i x, (i < j)%nat → l !! i = Some x →
             slot_at (heap w') (ptr_add first (Z.of_nat i)) = Some (Live (reloc_left x))) ∧
          log w' = rev (destroy_events d 0 j) ++
                   rev (construct_events reloc_op d first 0 j) ++ log w
    | _ => False
    end.
Proof.
  intros Hblk Hsrc Hdst.
  destruct (relocate_cases w l first d Hblk Hsrc) as (o & w' & Hrun & Hpost).
  exists o, w'. split; [done|]. destruct o as [[]|e| | |f]; try done.
  destruct Hpost as (i & Hi & Hne). by rewrite Hdst in Hne.
Qed.

(** A relocation by copy that fails part-way leaves every block other than
    the destination as it was. *)
Lemma reloc_copy_source_intact w w' l first d j :
  relocate_by_move = false →
  p_block first ≠ p_block d → (j ≤ length l)%nat →
  evolves (λ q, in_range d j q ∨ in_range first j q) w w' →
  (∀ i x, l !! i = Some x →
     slot_at (heap w) (ptr_add first (Z.of_nat i)) = Some (Live x)) →
  (∀ i x, (i < j)%nat → l !! i = Some x →
     slot_at (heap w') (ptr_add first (Z.of_nat i)) = Some (Live (reloc_left x))) →
  ∀ q, p_block q ≠ p_block d → slot_at (heap w') q = slot_at (heap w) q.
Proof.
  intros Hcopy Hblk Hj Hev Hsrc Hsrc' q Hq.
  destruct (decide (p_block q = p_block first ∧
                    (p_off first ≤ p_off q < p_off first + Z.of_nat j)%Z)) as [[Hb Hoff]|Hout].
  - assert (∃ i, (i < j)%nat ∧ q = ptr_add first (Z.of_nat i)) as (i & Hi & ->).
    { exists (Z.to_nat (p_off q - p_off first)). split; [lia|].
      apply ptr_eq; simpl; [done|lia]. }
    destruct (lookup_lt_is_Some_2 l i ltac:(lia)) as [x Hx].
    rewrite (Hsrc _ _ Hx), (Hsrc' _ _ Hi Hx). unfold reloc_left. by rewrite Hcopy.
  - apply (ev_frame _ _ _ Hev). unfold in_range. intros [[? _]|?]; [done|tauto].
Qed.

Lemma contents_live w v l :
  size_ v = Z.of_nat (length l) →
  (∀ i x, l !! i = Some x →
     slot_at (heap w) (ptr_add (buffer_ (data_ v)) (Z.of_nat i)) = Some (Live x)) →
  contents w v = Some l.
Proof.
  intros Hsz Hlive. unfold contents. rewrite Hsz, Nat2Z.id.
  apply mapM_Some. apply Forall2_same_length_lookup. split.
  - by rewrite length_seq.
  - intros i j x Hj Hx. apply lookup_seq in Hj as [-> _]. simpl.
    unfold element. by rewrite (Hlive _ _ Hx).
Qed.

Lemma holds_contents w v l : holds w v l → contents w v = Some l.
Proof. intros [Hsz _ _ Hlive _]. by apply contents_live. Qed.

(** The capacity of a Vector that satisfies its invariant has a byte count
    that does not wrap, and neither has its double. *)
Lemma holds_max_slots w v l :
  holds w v l → (0 ≤ capacity_ (data_ v) ≤ max_slots w)%Z.
Proof.
  intros [Hsz Hcap Hblk _ _]. destruct Hblk as [[_ ->]|(b & _ & ? & _)]; [|lia].
  split; [done|]. apply max_slots_spec. unfold ptrdiff_max. lia.
Qed.

(** Reserve beyond the capacity, whatever the request: on normal return the
    Vector has its elements in a fresh block, which has [k] slots when the
    byte count of the request did not wrap; when it wrapped, the block is
    smaller and the relocation may run past its end. *)
Lemma Reserve_grow w this v l k :
  objs w !! this = Some (Some v) → holds w v l →
  (Capacity v < k < 2 ^ 64)%Z →
  ∃ o w', Vector_Reserve this k w = (o, w') ∧
    match o with
    | Ok _ =>
        let v' := MkVector (MkRawMemory (MkPtr (Some (length (heap w))) 0) k) (size_ v) in
        objs w' = <[this := Some v']> (objs w) ∧
        elem_size w' = elem_size w ∧
        block_size (heap w') (length (heap w)) = Some (granted_slots w k) ∧
        (∀ i x, l !! i = Some x →
           slot_at (heap w') (MkPtr (Some (length (heap w))) (Z.of_nat i)) = Some (Live x)) ∧
        ((k * sizeof w < 2 ^ 64)%Z → holds w' v' l)
    | Throw _ => objs w' = objs w ∧ (relocate_by_move = false → holds w' v l)
    | Undefined _ => (2 ^ 64 ≤ k * sizeof w)%Z
    | _ => False
    end ∧
    (fuse w = None → (k ≤ alloc_limit w)%Z → o = Ok tt).
Proof.
  intros Hobj Hh Hk. pose proof Hh as [Hsz Hcap Hblk Hlive Hraw].
  unfold Capacity, RawMemory_Capacity in Hk.
  set (buf := buffer_ (data_ v)) in *.
  pose proof (owns_block_fresh _ _ Hblk) as Hfresh. fold buf in Hfresh.
  pose proof (sizeof_pos w) as Hspos.
  unfold Vector_Reserve, bind. rewrite (load_obj_ok _ _ _ Hobj).
  unfold Capacity, RawMemory_Capacity.
  destruct (k <=? capacity_ (data_ v))%Z eqn:Hle; [apply Z.leb_le in Hle; lia|].
  rewrite RawMemory_ctor_cases by lia.
  destruct (requested_bytes w k <=? alloc_limit w * sizeof w)%Z eqn:Hlim; cycle 1.
  { eexists _, _. split; [done|]. split; [done|]. intros _ Hkl. apply Z.leb_gt in Hlim.
    rewrite requested_bytes_fits in Hlim by (apply alloc_limit_fits; lia). nia. }
  apply Z.leb_le in Hlim.
  assert ((k * sizeof w < 2 ^ 64)%Z →
          granted_slots w k = Z.to_nat k ∧ (k ≤ max_slots w)%Z) as Hfit.
  { intros Hlt. assert (0 ≤ k * sizeof w < 2 ^ 64)%Z as Hin by nia.
    split; [by apply granted_slots_fits|]. rewrite requested_bytes_fits in Hlim by done.
    pose proof (alloc_limit_max w). nia. }
  set (m := granted_slots w k) in *.
  set (w1 := set_heap _ w).
  assert (block_size (heap w1) (length (heap w)) = Some m) as Hnew_bs
    by (unfold w1; simpl; by rewrite block_size_alloc_new, length_replicate).
  assert (∀ i, (0 ≤ i < Z.of_nat m)%Z →
               slot_at (heap w1) (MkPtr (Some (length (heap w))) i) = Some Raw) as Hnew_raw
    by (intros; unfold w1; simpl; apply slot_at_alloc_new; lia).
  assert (∀ b, b ≠ length (heap w) → block_size (heap w1) b = block_size (heap w) b)
    as Hold_bs by (intros; by apply block_size_alloc_old).
  assert (∀ q, p_block q ≠ Some (length (heap w)) → slot_at (heap w1) q = slot_at (heap w) q)
    as Hold by (intros; by apply slot_at_alloc_old).
  assert (objs w1 = objs w ∧ fuse w1 = fuse w ∧ elem_size w1 = elem_size w)
    as (Hobjs1 & Hfuse1 & Helem1) by done.
  set (nb := length (heap w)) in *. clearbody w1 nb.
  destruct (relocate_cases w1 l buf (MkPtr (Some nb) 0)) as (o & w2 & Hrun & Hpost).
  { done. }
  { intros i x Hx. rewrite Hold by done. by apply Hlive. }
  rewrite <- Hsz in Hrun. unfold unwinding, catch, GetAddress. simpl. fold buf. rewrite Hrun.
  destruct o as [[]|e| | |f]; try done.
  - (* the relocation succeeded *)
    destruct Hpost as (Hev2 & Hvals & Hl2).
    destruct (destroy_loop_spec (length l) buf w2) as (w3 & Hrun3 & Hev3 & Hraw3 & Hf3 & Hl3).
    { intros i Hi. destruct (lookup_lt_is_Some_2 l i Hi) as [x Hx].
      exists (reloc_left x). by apply Hvals. }
    unfold destroy_n. rewrite Hsz, Nat2Z.id, Hrun3.
    assert (objs w3 = objs w) as Hobjs
      by (rewrite (ev_objs _ _ _ Hev3), (ev_objs _ _ _ Hev2); done).
    assert (elem_size w3 = elem_size w) as Helem
      by (rewrite (ev_elem _ _ _ Hev3), (ev_elem _ _ _ Hev2); done).
    erewrite store_obj_ok by (rewrite Hobjs; done).
    set (w4 := set_objs _ w3).
    assert (∀ b, b ≠ nb → block_size (heap w3) b = block_size (heap w) b) as Hbs.
    { intros b Hb. rewrite (ev_size _ _ _ Hev3), (ev_size _ _ _ Hev2). by apply Hold_bs. }
    rewrite RawMemory_dtor_spec; cycle 1.
    { destruct Hblk as [?|(b & Hb & ? & Hbsz)]; [by left|right]. exists b.
      unfold w4. cbn [elem_size set_objs heap]. rewrite Helem.
      split; [done|]. split; [done|]. rewrite Hbs; [done|].
      fold buf in Hb. rewrite Hb in Hfresh. simpl in Hfresh. congruence. }
    assert (block_size (heap w3) nb = Some m) as Hbs3
      by (by rewrite (ev_size _ _ _ Hev3), (ev_size _ _ _ Hev2)).
    assert (∀ i x, l !! i = Some x →
              slot_at (heap w3) (MkPtr (Some nb) (Z.of_nat i)) = Some (Live x)) as Hvals3.
    { intros i x Hx. rewrite (ev_frame _ _ _ Hev3).
      - by apply (Hvals _ _ Hx).
      - unfold in_range. simpl. intros [Hb _]. congruence. }
    eexists _, _. split; [done|]. split; [|done]. simpl. split_and!.
    + by rewrite Hobjs.
    + done.
    + by rewrite block_size_release by (fold buf; done).
    + intros i x Hx. rewrite slot_at_release by (simpl; fold buf; congruence).
      by apply Hvals3.
    + intros Hlt. destruct (Hfit Hlt) as [Hm Hmax]. split; simpl.
      * done.
      * lia.
      * right. exists nb. unfold w4. simpl. rewrite Helem. split_and!; [done|lia|done|].
        rewrite block_size_release by (fold buf; done). by rewrite Hbs3, Hm.
      * intros i x Hx. rewrite slot_at_release by (simpl; fold buf; congruence).
        by apply Hvals3.
      * intros i Hi. rewrite slot_at_release by (simpl; fold buf; congruence).
        rewrite (ev_frame _ _ _ Hev3), (ev_frame _ _ _ Hev2).
        -- apply Hnew_raw. simpl. lia.
        -- unfold in_range. simpl. intros [[_ ?]|[Hb _]]; [lia|congruence].
        -- unfold in_range. simpl. intros [Hb _]. congruence.
  - (* the relocation threw *)
    destruct Hpost as (_ & Hf & _ & _ & j & Hj & Hev2 & _ & Hsrc2 & _). unfold bind, throw.
    rewrite (RawMemory_dtor_block _ _ nb); [|done|]; cycle 1.
    { simpl. rewrite (ev_size _ _ _ Hev2), Hnew_bs. by eexists. }
    eexists _, _. split; [done|]. split; [|intros Hnone; destruct Hf; congruence].
    simpl. split; [by rewrite (ev_objs _ _ _ Hev2)|]. intros Hcopy.
    eapply holds_frame; [exact Hh|solve_elem|..]; simpl; fold buf.
    + intros b Hb. rewrite block_size_release by (simpl; congruence).
      rewrite (ev_size _ _ _ Hev2). apply Hold_bs. congruence.
    + intros q Hq. rewrite slot_at_release by (simpl; congruence).
      rewrite (reloc_copy_source_intact w1 w2 l buf (MkPtr (Some nb) 0) j); try done.
      * apply Hold. congruence.
      * lia.
      * intros i x Hx. rewrite Hold by done. by apply Hlive.
      * simpl. congruence.
  - (* the relocation ran past the end of the block *)
    destruct Hpost as (i & Hi & Hne).
    assert (2 ^ 64 ≤ k * sizeof w)%Z as Hwrapped.
    { destruct (decide (k * sizeof w < 2 ^ 64)%Z) as [Hlt|]; [|lia].
      destruct (Hfit Hlt) as [Hm _]. destruct Hne. apply Hnew_raw. simpl. lia. }
    eexists _, _. split; [done|]. split; [done|]. intros _ Hkl.
    pose proof (alloc_limit_fits w k ltac:(lia)). lia.
Qed.

End Reserve.

(** ** EmplaceBack *)

Section EmplaceBack.
Context {T : Type} `{Elem T}.
Implicit Types (w : World T) (p q : Ptr) (v : Vector) (l : list T).
Implicit Types (h : list (option (list (Slot T)))).

Lemma wrap_small z : (0 ≤ z < 2 ^ 64)%Z → wrap z = z.
Proof. intros. unfold wrap. by apply Z.mod_small. Qed.

Lemma grown_capacity_spec n :
  (0 ≤ n)%Z → (2 * n < 2 ^ 64)%Z → grown_capacity n = Z.max 1 (2 * n).
Proof.
  intros ??. unfold grown_capacity. case_bool_decide; [subst; done|].
  rewrite wrap_small by lia. lia.
Qed.

Lemma EmplaceBack_grow w this v l a :
  objs w !! this = Some (Some v) → holds w v l →
  size_ v = capacity_ (data_ v) →
  let nb := length (heap w) in
  let n := size_ v in
  let p := MkPtr (Some nb) n in
  ∃ o w', Vector_EmplaceBack this a w = (o, w') ∧
    match o with
    | Ok r =>
        let v' := MkVector (MkRawMemory (MkPtr (Some nb) 0) (Z.max 1 (2 * n))) (n + 1) in
        r = p ∧ objs w' = <[this := Some v']> (objs w) ∧ holds w' v' (l ++ [arg_value a])
    | Throw _ =>
        objs w' = objs w ∧ block_size (heap w') nb = None ∧
        (relocate_by_move = false → holds w' v l) ∧
        (log w' = log w ∨
         ∃ j, (j < length l)%nat ∧
           log w' = failed_growth_log a p (MkPtr (Some nb) 0) (buffer_ (data_ v)) j ++ log w)
    | Undefined _ => n = 0%Z ∧ (2 ^ 64 ≤ sizeof w)%Z
    | _ => False
    end ∧
    (fuse w = None → (grown_capacity n ≤ alloc_limit w)%Z → (2 * n < 2 ^ 64)%Z →
     ∃ r, o = Ok r).
Proof.
  intros Hobj Hh Hfull nb n p. pose proof Hh as [Hsz Hcap Hblk Hlive Hraw].
  set (buf := buffer_ (data_ v)) in *.
  pose proof (owns_block_fresh _ _ Hblk) as Hfresh. fold buf in Hfresh.
  assert (0 ≤ n)%Z as Hn0 by (unfold n; lia).
  pose proof (sizeof_pos w) as Hspos.
  pose proof (holds_max_slots _ _ _ Hh) as Hmax. rewrite <- Hfull in Hmax. fold n in Hmax.
  pose proof (max_slots_doubled_fits w n Hmax) as Hdouble.
  assert (2 * n < 2 ^ 64)%Z as Hno by nia.
  unfold Vector_EmplaceBack, bind. rewrite (load_obj_ok _ _ _ Hobj).
  unfold Capacity, RawMemory_Capacity. rewrite bool_decide_true by done. fold n.
  destruct (decide (n = 0 ∧ 2 ^ 64 ≤ sizeof w)%Z) as [[Hn Hbig]|Hsmall].
  { (* a slot that is itself larger than a size_t counts: the byte count of
       the one-slot request wraps and the block has no slot *)
    rewrite Hn. unfold grown_capacity. rewrite bool_decide_true by done.
    rewrite RawMemory_ctor_cases by done.
    assert (¬ (1 ≤ alloc_limit w)%Z) as Hnolimit.
    { intros Hl. pose proof (alloc_limit_fits w 1 ltac:(lia)). lia. }
    destruct (requested_bytes w 1 <=? alloc_limit w * sizeof w)%Z.
    - pose proof (granted_slots_wrapped w 1 ltac:(lia) ltac:(lia)) as Hnone.
      assert (granted_slots w 1 = 0%nat) as -> by lia.
      unfold unwinding, catch, RawMemory_plus, bind, assert, construct_from, ret. simpl.
      rewrite construct_at_fault; cycle 1.
      { unfold slot_at, ptr_add. simpl. by rewrite lookup_app_r, Nat.sub_diag by lia. }
      eexists _, _. split; [done|]. split; [done|]. intros _ Hl _. done.
    - eexists _, _. split; [done|]. split; [|intros _ Hl _; done].
      split_and!; try done. unfold block_size. by rewrite lookup_ge_None_2. by left. }
  assert (0 ≤ grown_capacity n * sizeof w < 2 ^ 64)%Z as Hfit.
  { rewrite grown_capacity_spec by lia. destruct (decide (n = 0%Z)) as [->|Hn]; [|nia].
    simpl (Z.max _ _). lia. }
  rewrite RawMemory_ctor_spec by (rewrite ?grown_capacity_spec; lia).
  destruct (grown_capacity n <=? alloc_limit w)%Z eqn:Hlim; cycle 1.
  { eexists _, _. split; [done|]. split.
    - split_and!; try done. unfold block_size. by rewrite lookup_ge_None_2. by left.
    - intros _ ? _. apply Z.leb_gt in Hlim. lia. }
  apply Z.leb_le in Hlim. pose proof (alloc_limit_max w) as Hlimmax.
  rewrite grown_capacity_spec in Hlim by lia.
  rewrite grown_capacity_spec by lia.
  set (C' := Z.max 1 (2 * n)) in *.
  set (w1 := set_heap _ w).
  assert (block_size (heap w1) nb = Some (Z.to_nat C')) as Hnew_bs
    by (unfold w1, nb; simpl; by rewrite block_size_alloc_new, length_replicate).
  assert (∀ i, (0 ≤ i < C')%Z → slot_at (heap w1) (MkPtr (Some nb) i) = Some Raw) as Hnew_raw
    by (intros; unfold w1, nb; simpl; apply slot_at_alloc_new; lia).
  assert (∀ b, b ≠ nb → block_size (heap w1) b = block_size (heap w) b)
    as Hold_bs by (intros; by apply block_size_alloc_old).
  assert (∀ q, p_block q ≠ Some nb → slot_at (heap w1) q = slot_at (heap w) q)
    as Hold by (intros; by apply slot_at_alloc_old).
  assert (objs w1 = objs w ∧ fuse w1 = fuse w ∧ log w1 = log w) as (Hobjs1 & Hfuse1 & Hlog1)
    by done.
  assert (elem_size w1 = elem_size w) as Helem1 by done.
  assert (p_block buf ≠ Some nb) as Hbuf by done.
  change (length (heap w)) with nb. clearbody w1 nb.
  set (d := MkPtr (Some nb) 0).
  assert (∀ w0, block_size (heap w0) nb = Some (Z.to_nat C') →
                RawMemory_dtor (MkRawMemory d C') w0 =
                (Ok tt, set_heap (release d (heap w0)) w0)) as Hdtor_new.
  { intros w0 Hw0. apply (RawMemory_dtor_block (MkRawMemory d C') w0 nb); [done|].
    rewrite Hw0. eauto. }
  assert (∀ h, block_size (release d h) nb = None) as Hreleased.
  { intros h. unfold release, block_size. simpl.
    destruct (decide (nb < length h)%nat).
    - by rewrite list_lookup_insert_eq.
    - rewrite lookup_ge_None_2; [done|]. rewrite length_insert. lia. }
  assert (∀ w0 w0', (∀ b, b ≠ nb → block_size (heap w0) b = block_size (heap w) b) →
            (∀ q, p_block q ≠ Some nb → slot_at (heap w0) q = slot_at (heap w) q) →
            heap w0' = release d (heap w0) → elem_size w0' = elem_size w →
            holds w0' v l) as Hkeep.
  { intros w0 w0' Hb0 Hs0 Hh0 He0. eapply holds_frame; [exact Hh|done|..]; fold buf;
      rewrite Hh0.
    - intros b Hb. rewrite block_size_release by (simpl; congruence). apply Hb0. congruence.
    - intros q Hq. rewrite slot_at_release by (simpl; congruence). apply Hs0. congruence. }
  (* the new element is built first, in slot n of the new block *)
  unfold unwinding, catch, RawMemory_plus, bind, assert, construct_from, GetAddress, ret.
  simpl.
  destruct (n <=? C')%Z eqn:Hle; [|apply Z.leb_gt in Hle; lia].
  fold d. change (ptr_add d n) with (MkPtr (Some nb) (0 + n)). rewrite Z.add_0_l. fold p.
  destruct (construct_at_spec (arg_op a) p None (arg_value a) w1)
    as [(w2 & -> & Hev2 & Hp2 & Hl2)|(-> & Hf & _)].
  { apply Hnew_raw. lia. }
  2:{ unfold bind, throw. rewrite Hdtor_new by done.
      eexists _, _. split; [done|]. split; [|intros Hnone; destruct Hf; congruence].
      simpl. split_and!; [done|done| |by left].
      intros _. by apply (Hkeep w1 (set_heap (release d (heap w1)) (set_fuse None w1))). }
  assert (elem_size w2 = elem_size w) as Helem2 by (by rewrite (ev_elem _ _ _ Hev2)).
  (* relocation of the n elements *)
  destruct (relocate_spec w2 l buf d) as (o & w3 & Hrun & Hpost).
  { done. }
  { intros i x Hx. rewrite (ev_frame _ _ _ Hev2).
    - rewrite Hold by done. by apply Hlive.
    - by_block. }
  { intros i Hi. rewrite (ev_frame _ _ _ Hev2).
    - apply Hnew_raw. simpl. lia.
    - unfold p, ptr_add. simpl. intros [=]. lia. }
  rewrite <- Hsz in Hrun. fold n in Hrun. fold buf n. rewrite Hrun.
  destruct o as [[]|e| | |f]; try done; cycle 1.
  { (* relocation threw: destroy the new element, release the new block *)
    destruct Hpost as (_ & Hf & _ & _ & j & Hj & Hev3 & _ & Hsrc3 & Hl3).
    assert (slot_at (heap w3) p = Some (Live (arg_value a))) as Hp3.
    { rewrite (ev_frame _ _ _ Hev3); [done|]. unfold in_range, p. simpl.
      intros [[_ ?]|[Hb _]]; [lia|congruence]. }
    destruct (destroy_at_spec p _ w3 Hp3) as (w4 & Hrun4 & Hev4 & _ & _ & Hl4).
    unfold bind, throw. rewrite Hrun4.
    rewrite Hdtor_new
      by (by rewrite (ev_size _ _ _ Hev4), (ev_size _ _ _ Hev3), (ev_size _ _ _ Hev2)).
    eexists _, _. split; [done|]. split.
    2:{ intros Hnone. destruct Hf. apply (ev_fuse _ _ _ Hev2). congruence. }
    simpl. split_and!.
    - by rewrite (ev_objs _ _ _ Hev4), (ev_objs _ _ _ Hev3), (ev_objs _ _ _ Hev2).
    - done.
    - intros Hcopy. apply (Hkeep w4 (set_heap (release d (heap w4)) w4)); [| |done|]; cycle 2.
      { simpl. by rewrite (ev_elem _ _ _ Hev4), (ev_elem _ _ _ Hev3). }
      + intros b Hb.
        rewrite (ev_size _ _ _ Hev4), (ev_size _ _ _ Hev3), (ev_size _ _ _ Hev2). auto.
      + intros q Hq. rewrite (ev_frame _ _ _ Hev4) by (intros Heq; apply Hq; by rewrite <- Heq).
        rewrite (reloc_copy_source_intact w2 w3 l buf d j); try done.
        * rewrite (ev_frame _ _ _ Hev2) by (intros Heq; apply Hq; by rewrite <- Heq). auto.
        * lia.
        * intros i x Hx. rewrite (ev_frame _ _ _ Hev2).
          -- rewrite Hold by done. by apply Hlive.
          -- by_block.
    - right. exists j. split; [done|]. unfold failed_growth_log.
      rewrite Hl4, Hl3, Hl2, Hlog1. simpl. by rewrite <- !app_assoc. }
  (* relocation succeeded: destroy the old elements, swap, release *)
  destruct Hpost as (Hev3 & Hvals & Hl3).
  destruct (destroy_loop_spec (length l) buf w3) as (w4 & Hrun4 & Hev4 & Hraw4 & Hf4 & Hl4).
  { intros i Hi. destruct (lookup_lt_is_Some_2 l i Hi) as [x Hx].
    exists (reloc_left x). by apply Hvals. }
  unfold destroy_n. unfold n at 1. rewrite Hsz, Nat2Z.id, Hrun4.
  assert (objs w4 = objs w) as Hobjs
    by (rewrite (ev_objs _ _ _ Hev4), (ev_objs _ _ _ Hev3), (ev_objs _ _ _ Hev2); done).
  erewrite store_obj_ok by (rewrite Hobjs; done).
  assert (∀ b, block_size (heap w4) b = block_size (heap w1) b) as Hbs
    by (intros b; by rewrite (ev_size _ _ _ Hev4), (ev_size _ _ _ Hev3), (ev_size _ _ _ Hev2)).
  assert (elem_size w4 = elem_size w) as Helem4
    by (by rewrite (ev_elem _ _ _ Hev4), (ev_elem _ _ _ Hev3)).
  rewrite (RawMemory_dtor_frame w _ (data_ v) _ Hblk); [|done|]; cycle 1.
  { intros b Hb. simpl. rewrite Hbs, Hold_bs; [done|]. fold buf in Hb. congruence. }
  assert (this < length (objs w4))%nat as Hthis
    by (rewrite Hobjs; by eapply lookup_lt_Some).
  erewrite load_obj_ok by (simpl; by apply list_lookup_insert_eq).
  erewrite store_obj_ok by (simpl; by apply list_lookup_insert_eq).
  simpl. rewrite list_insert_insert_eq, Hobjs.
  rewrite wrap_small by lia.
  eexists _, _. split; [done|]. split; [|eauto]. simpl.
  split; [done|]. split; [done|].
  assert (∀ q, p_block q = Some nb →
               slot_at (heap (set_heap (release buf (heap w4)) w4)) q = slot_at (heap w3) q)
    as Hfin.
  { intros q Hq. simpl. rewrite slot_at_release by congruence.
    apply (ev_frame _ _ _ Hev4). unfold in_range. intros [? _]. congruence. }
  split; simpl.
  - rewrite length_app. simpl. unfold n. lia.
  - lia.
  - right. exists nb. simpl. rewrite Helem4. split_and!; [done|lia|lia|].
    rewrite block_size_release by done. by rewrite Hbs.
  - intros i x Hx. rewrite Hfin by done.
    destruct (decide (i < length l)%nat) as [Hi|Hi].
    + rewrite lookup_app_l in Hx by done. by apply Hvals.
    + rewrite lookup_app_r in Hx by lia.
      destruct (i - length l)%nat as [|k] eqn:Hk; [|done]. injection Hx as <-.
      assert (ptr_add d (Z.of_nat i) = p) as ->
        by (unfold p, d, ptr_add, n; simpl; f_equal; lia).
      rewrite (ev_frame _ _ _ Hev3); [done|]. unfold in_range, p. simpl.
      intros [[_ ?]|[Hb _]]; [unfold n in *; lia|congruence].
  - intros i Hi. rewrite Hfin by done.
    rewrite (ev_frame _ _ _ Hev3), (ev_frame _ _ _ Hev2).
    + apply Hnew_raw. simpl. lia.
    + unfold p, d, ptr_add. simpl. intros [=]. lia.
    + unfold in_range, d. simpl. intros [[_ ?]|[Hb _]]; [unfold n in *; lia|congruence].
Qed.

End EmplaceBack.

Section EmplaceBackRoom.
Context {T : Type} `{Elem T}.
Implicit Types (w : World T) (p q : Ptr) (v : Vector) (l : list T).

(** EmplaceBack with spare capacity constructs in slot n of the same block. *)
Lemma EmplaceBack_room w this v l a :
  objs w !! this = Some (Some v) → holds w v l →
  (size_ v < capacity_ (data_ v))%Z →
  ∃ o w', Vector_EmplaceBack this a w = (o, w') ∧
    match o with
    | Ok r =>
        let v' := MkVector (data_ v) (size_ v + 1) in
        r = ptr_add (buffer_ (data_ v)) (size_ v) ∧
        objs w' = <[this := Some v']> (objs w) ∧ holds w' v' (l ++ [arg_value a])
    | Throw _ => w' = set_fuse None w
    | _ => False
    end ∧
    (fuse w = None → ∃ r, o = Ok r).
Proof.
  intros Hobj Hh Hroom. pose proof Hh as [Hsz Hcap Hblk Hlive Hraw].
  set (buf := buffer_ (data_ v)) in *. set (n := size_ v) in *.
  unfold Vector_EmplaceBack, bind. rewrite (load_obj_ok _ _ _ Hobj).
  unfold Capacity, RawMemory_Capacity. rewrite bool_decide_false by (fold n; lia).
  unfold RawMemory_plus, bind, assert, construct_from, ret. fold n buf.
  destruct (n <=? capacity_ (data_ v))%Z eqn:Hle; [|apply Z.leb_gt in Hle; lia].
  destruct (construct_at_spec (arg_op a) (ptr_add buf n) None (arg_value a) w)
    as [(w2 & -> & Hev2 & Hp2 & Hl2)|(-> & Hf & _)].
  { apply Hraw. lia. }
  2:{ eexists _, _. split; [done|]. split; [done|]. intros; congruence. }
  assert (objs w2 !! this = Some (Some v)) as Hobj2 by (by rewrite (ev_objs _ _ _ Hev2)).
  rewrite (load_obj_ok _ _ _ Hobj2). erewrite store_obj_ok by done.
  fold n buf. rewrite wrap_small by lia.
  eexists _, _. split; [done|]. split; [|eauto]. simpl.
  split; [done|]. split; [by rewrite (ev_objs _ _ _ Hev2)|].
  split; simpl; fold buf n.
  - rewrite length_app. simpl. lia.
  - lia.
  - apply (owns_block_frame w); [done|solve_elem|].
    intros b Hb. by rewrite (ev_size _ _ _ Hev2).
  - intros i x Hx. destruct (decide (i < length l)%nat) as [Hi|Hi].
    + rewrite lookup_app_l in Hx by done. rewrite (ev_frame _ _ _ Hev2); [by apply Hlive|].
      by_offset.
    + rewrite lookup_app_r in Hx by lia.
      destruct (i - length l)%nat as [|k] eqn:Hk; [|done]. injection Hx as <-.
      replace (Z.of_nat i) with n by lia. done.
  - intros i Hi. rewrite (ev_frame _ _ _ Hev2); [apply Hraw; lia|].
    by_offset.
Qed.

End EmplaceBackRoom.

(** ** Erase *)

Section Erase.
Context {T : Type} `{Elem T}.
Implicit Types (w : World T) (p q : Ptr) (v : Vector) (l : list T).

Lemma move_assign_spec w dst src x0 y :
  slot_at (heap w) dst = Some (Live x0) → slot_at (heap w) src = Some (Live y) →
  dst ≠ src →
  (∃ w', move_assign dst src w = (Ok tt, w') ∧
         evolves (λ q, q = dst ∨ q = src) w w' ∧
         slot_at (heap w') dst = Some (Live y) ∧
         slot_at (heap w') src = Some (Live (moved_from y)) ∧
         log w' = EvAssign MoveAssign (Some dst) (Some src) :: log w) ∨
  (move_assign dst src w = (Throw element_failure, set_fuse None w) ∧
   fuse w ≠ None ∧ may_throw MoveAssign = true).
Proof.
  intros Hdst Hsrc Hne. unfold move_assign, bind. rewrite (read_live _ _ _ Hsrc).
  destruct (assign_at_spec MoveAssign dst (Some src) y x0 w Hdst)
    as [(w1 & -> & Hev & Hd & Hl)|(-> & ? & ?)]; [left|by right].
  assert (slot_at (heap w1) src = Some (Live y)) as Hsrc1
    by (rewrite (ev_frame _ _ _ Hev); [done|congruence]).
  eexists. split; [done|]. split_and!.
  - eapply evolves_trans.
    + eapply evolves_weaken; [exact Hev|]. intros q <-. by left.
    + apply evolves_write_silent. by right.
  - simpl. by rewrite slot_at_write_other.
  - simpl. by eapply slot_at_write_same.
  - done.
Qed.

Lemma move_assign_events_S d s cur n :
  move_assign_events d s cur (S n) =
  EvAssign MoveAssign (Some (ptr_add d (Z.of_nat cur))) (Some (ptr_add s (Z.of_nat cur)))
    :: move_assign_events d s (S cur) n.
Proof. done. Qed.

Lemma move_assign_events_shift d s cur n :
  move_assign_events (ptr_add d 1) (ptr_add s 1) cur n = move_assign_events d s (S cur) n.
Proof.
  unfold move_assign_events. rewrite <- fmap_S_seq, <- list_fmap_compose.
  apply list_fmap_ext. intros i x _. simpl. rewrite !ptr_add_add.
  replace (1 + Z.of_nat x)%Z with (Z.of_nat (S x)) by lia. done.
Qed.

(** [std::move(d + 1, d + 1 + m, d)]: every slot takes the value of its right
    neighbour, unless a move assignment throws; [ys] holds the values of the
    slots from offset [k + 1] on. *)
Lemma move_loop_spec (ys : list T) m : ∀ k d w,
  (∃ x0, slot_at (heap w) d = Some (Live x0)) →
  (∀ j, (j < m)%nat → ∃ y, ys !! (k + j)%nat = Some y ∧
        slot_at (heap w) (ptr_add d (Z.of_nat (S j))) = Some (Live y)) →
  ∃ o w', move_loop (ptr_add d 1) d m w = (o, w') ∧
    match o with
    | Ok _ =>
        evolves (in_range d (S m)) w w' ∧
        (∀ j y, (j < m)%nat → ys !! (k + j)%nat = Some y →
           slot_at (heap w') (ptr_add d (Z.of_nat j)) = Some (Live y)) ∧
        (∃ y, slot_at (heap w') (ptr_add d (Z.of_nat m)) = Some (Live y)) ∧
        log w' = rev (move_assign_events d (ptr_add d 1) 0 m) ++ log w
    | Throw _ => may_throw MoveAssign = true ∧ fuse w ≠ None
    | _ => False
    end.
Proof.
  induction m as [|m IH]; intros k d w [x0 Hx0] Hsrc.
  - exists (Ok tt), w. split; [done|]. split_and!; try done;
      first [apply evolves_refl | (intros; lia) | (exists x0; by rewrite ptr_add_0)].
  - destruct (Hsrc 0%nat ltac:(lia)) as (y0 & Hy0 & Hs0). rewrite Nat.add_0_r in Hy0.
    change (Z.of_nat 1) with 1%Z in Hs0.
    destruct (move_assign_spec w d (ptr_add d 1) x0 y0 Hx0 Hs0)
      as [(w1 & Hrun1 & Hev1 & Hd1 & Hs1 & Hl1)|(Hrun1 & Hf & Hmt)].
    { by_offset. }
    2:{ eexists _, _. split; [simpl; unfold bind; by rewrite Hrun1|]. done. }
    destruct (IH (S k) (ptr_add d 1) w1) as (o & w' & Hrun' & Hpost).
    { eauto. }
    { intros j Hj. destruct (Hsrc (S j) ltac:(lia)) as (y & Hy & Hs). exists y. split.
      - rewrite <- Hy. f_equal. lia.
      - rewrite ptr_add_add, (ev_frame _ _ _ Hev1).
        + rewrite <- Hs. do 2 f_equal. lia.
        + intros [Heq|Heq]; apply (f_equal p_off) in Heq; simpl in Heq; lia. }
    exists o, w'. split; [simpl; unfold bind; by rewrite Hrun1|].
    destruct o as [[]|e| | |f]; try done.
    2:{ destruct Hpost as [? Hf]. split; [done|]. intros Hnone. apply Hf.
        by apply (ev_fuse _ _ _ Hev1). }
    destruct Hpost as (Hev' & Hvals' & Hlast' & Hl'). split_and!.
    + eapply evolves_trans.
      * eapply evolves_weaken; [exact Hev1|]. intros q [-> | ->].
        -- apply in_range_here.
        -- unfold in_range. simpl. split; [done|lia].
      * eapply evolves_weaken; [exact Hev'|]. intros q.
        apply in_range_weaken; simpl; [done|lia..].
    + intros [|j] y Hj Hy.
      * rewrite Nat.add_0_r in Hy. assert (y = y0) as -> by congruence.
        simpl. rewrite ptr_add_0, (ev_frame _ _ _ Hev'); [done|].
        unfold in_range. simpl. lia.
      * specialize (Hvals' j y ltac:(lia)). rewrite ptr_add_add in Hvals'.
        replace (1 + Z.of_nat j)%Z with (Z.of_nat (S j)) in Hvals' by lia.
        apply Hvals'. rewrite <- Hy. f_equal. lia.
    + destruct Hlast' as [y Hy]. exists y. rewrite ptr_add_add in Hy.
      rewrite <- Hy. do 2 f_equal. lia.
    + rewrite Hl', Hl1, move_assign_events_S, move_assign_events_shift. cbn [rev].
      rewrite !ptr_add_0. by rewrite <- app_assoc.
Qed.

End Erase.

Section EraseMain.
Context {T : Type} `{Elem T}.
Implicit Types (w : World T) (p q : Ptr) (v : Vector) (l : list T).

(** Erase at a valid position either completes, or a move assignment throws
    and the [noexcept] function terminates the program. *)
Lemma Erase_valid w this v l i x :
  objs w !! this = Some (Some v) → holds w v l → l !! i = Some x →
  let buf := buffer_ (data_ v) in
  let pos := ptr_add buf (Z.of_nat i) in
  let v' := MkVector (data_ v) (size_ v - 1) in
  ∃ o w', Vector_Erase this pos w = (o, w') ∧
    match o with
    | Ok r =>
        r = pos ∧
        objs w' = <[this := Some v']> (objs w) ∧
        holds w' v' (delete i l) ∧
        log w' = EvDestroy (Some (ptr_add buf (size_ v - 1))) ::
                 rev (move_assign_events pos (ptr_add pos 1) 0 (length l - 1 - i)) ++ log w ∧
        (∀ y, l !! S i = Some y → slot_at (heap w') pos = Some (Live y))
    | Terminate => may_throw MoveAssign = true ∧ fuse w ≠ None
    | _ => False
    end.
Proof.
  intros Hobj Hh Hx buf pos v'. pose proof Hh as [Hsz Hcap Hblk Hlive Hraw].
  pose proof (lookup_lt_Some _ _ _ Hx) as Hi.
  set (n := size_ v) in *. fold buf in Hlive, Hraw.
  set (m := (length l - 1 - i)%nat).
  unfold Vector_Erase, noexcept, bind. rewrite (load_obj_ok _ _ _ Hobj).
  rewrite check_position_same by done.
  unfold assert, position_assertion, cbegin, cend, end_, GetAddress. fold buf n.
  assert (ptr_leb buf pos && ptr_leb pos (ptr_add buf n) = true) as ->.
  { unfold ptr_leb, pos. simpl. rewrite !bool_decide_true by done. simpl.
    apply andb_true_iff. split; apply Z.leb_le; lia. }
  assert (wrap (ptr_diff pos buf) = Z.of_nat i) as ->.
  { unfold ptr_diff, pos. simpl. rewrite wrap_small; lia. }
  rewrite wrap_small by lia. fold pos.
  replace (ptr_add buf (Z.of_nat i + 1)) with (ptr_add pos 1)
    by (unfold pos; by rewrite ptr_add_add).
  unfold std_move.
  assert (ptr_leb (ptr_add pos 1) (ptr_add buf n) = true) as ->.
  { unfold ptr_leb, pos. simpl. rewrite bool_decide_true by done. simpl.
    apply Z.leb_le. lia. }
  assert (Z.to_nat (ptr_diff (ptr_add buf n) (ptr_add pos 1)) = m) as ->.
  { unfold ptr_diff, pos, m. simpl. lia. }
  destruct (move_loop_spec l m (S i) pos w) as (o & w1 & Hrun1 & Hpost).
  { exists x. by apply Hlive. }
  { intros j Hj. destruct (lookup_lt_is_Some_2 l (S i + j) ltac:(unfold m in Hj; lia)) as [y Hy].
    exists y. split; [done|]. unfold pos. rewrite ptr_add_add.
    replace (Z.of_nat i + Z.of_nat (S j))%Z with (Z.of_nat (S i + j)) by lia.
    by apply Hlive. }
  rewrite Hrun1. destruct o as [[]|e| | |f]; try done.
  2:{ eexists _, _. split; [done|]. done. }
  destruct Hpost as (Hev1 & Hvals1 & Hlast1 & Hl1).
  assert (ptr_add (ptr_add buf n) (-1) = ptr_add pos (Z.of_nat m)) as Hend.
  { unfold pos, m. rewrite !ptr_add_add. f_equal. lia. }
  assert (ptr_add buf (n - 1) = ptr_add pos (Z.of_nat m)) as Hend'.
  { unfold pos, m. rewrite !ptr_add_add. f_equal. lia. }
  rewrite Hend. destruct Hlast1 as [ylast Hlast1].
  destruct (destroy_at_spec _ _ _ Hlast1) as (w2 & Hrun2 & Hev2 & Hraw2 & Hf2 & Hl2).
  unfold destroy_n. simpl. unfold bind, ret. rewrite Hrun2.
  assert (objs w2 = objs w) as Hobjs
    by (by rewrite (ev_objs _ _ _ Hev2), (ev_objs _ _ _ Hev1)).
  erewrite store_obj_ok by (rewrite Hobjs; done).
  rewrite wrap_small by lia.
  eexists _, _. split; [done|]. simpl.
  assert (∀ q, q ≠ ptr_add pos (Z.of_nat m) → slot_at (heap w2) q = slot_at (heap w1) q)
    as Hfr2 by (intros q Hne; apply (ev_frame _ _ _ Hev2); congruence).
  assert (∀ j : nat, (j < i)%nat ∨ (length l ≤ j)%nat →
            slot_at (heap w1) (ptr_add buf (Z.of_nat j)) = slot_at (heap w) (ptr_add buf (Z.of_nat j)))
    as Hfr1.
  { intros j Hj. apply (ev_frame _ _ _ Hev1). unfold in_range, pos, m. simpl. lia. }
  assert (∀ j : nat, (i ≤ j)%nat → ∀ y, l !! S j = Some y →
            slot_at (heap w1) (ptr_add buf (Z.of_nat j)) = Some (Live y)) as Hmoved.
  { intros j Hj y Hy. pose proof (lookup_lt_Some _ _ _ Hy).
    specialize (Hvals1 (j - i)%nat y). unfold pos in Hvals1. rewrite ptr_add_add in Hvals1.
    replace (Z.of_nat i + Z.of_nat (j - i))%Z with (Z.of_nat j) in Hvals1 by lia.
    apply Hvals1; [unfold m; lia|]. rewrite <- Hy. f_equal. lia. }
  split_and!.
  - done.
  - by rewrite Hobjs.
  - split; simpl; fold buf n.
    + rewrite length_delete by eauto. lia.
    + lia.
    + apply (owns_block_frame w); [done|solve_elem|].
      intros b Hb. by rewrite (ev_size _ _ _ Hev2), (ev_size _ _ _ Hev1).
    + intros j y Hy.
      assert (j < length l - 1)%nat as Hj.
      { apply lookup_lt_Some in Hy. rewrite length_delete in Hy by eauto. lia. }
      rewrite Hfr2; cycle 1.
      { unfold pos, m. by_offset. }
      destruct (decide (j < i)%nat) as [Hlt|Hge].
      * rewrite list_lookup_delete_lt in Hy by done. rewrite Hfr1 by lia. by apply Hlive.
      * rewrite list_lookup_delete_ge in Hy by lia. apply Hmoved; [lia|done].
    + intros z Hz. destruct (decide (z = n - 1)%Z) as [->|Hne].
      * by rewrite Hend'.
      * rewrite Hfr2; cycle 1.
        { unfold pos, m. by_offset. }
        replace z with (Z.of_nat (Z.to_nat z)) by lia. rewrite Hfr1 by lia.
        apply Hraw. lia.
  - by rewrite Hl2, Hl1, Hend'.
  - intros y Hy. pose proof (lookup_lt_Some _ _ _ Hy).
    rewrite Hfr2; cycle 1.
    { unfold pos, m. by_offset. }
    by apply Hmoved.
Qed.

End EraseMain.

(** ** Counting events *)

Section Counting.

Lemma count_app (f : Event → bool) l1 l2 :
  length (List.filter f (l1 ++ l2)) =
  (length (List.filter f l1) + length (List.filter f l2))%nat.
Proof. by rewrite List.filter_app, length_app. Qed.

Lemma count_rev (f : Event → bool) l :
  length (List.filter f (rev l)) = length (List.filter f l).
Proof. by rewrite List.filter_rev, List.length_rev. Qed.

Lemma count_map_all {A} (f : Event → bool) (g : A → Event) (l : list A) :
  (∀ x, f (g x) = true) → length (List.filter f (map g l)) = length l.
Proof. intros Hf. induction l as [|x l IH]; simpl; [done|]. rewrite Hf. simpl. by rewrite IH. Qed.

Lemma count_map_none {A} (f : Event → bool) (g : A → Event) (l : list A) :
  (∀ x, x ∈ l → f (g x) = false) → length (List.filter f (map g l)) = 0%nat.
Proof.
  induction l as [|x l IH]; simpl; [done|]. intros Hf.
  rewrite Hf by apply list_elem_of_here. apply IH. intros y Hy. apply Hf.
  by apply list_elem_of_further.
Qed.

Lemma failed_growth_log_balanced {T} `{Elem T} (a : Args T) p d first j :
  ctor_count (failed_growth_log a p d first j) =
  dtor_count (failed_growth_log a p d first j).
Proof.
  unfold ctor_count, dtor_count, failed_growth_log, construct_events, destroy_events.
  cbn [List.filter is_construct is_destroy length]. rewrite !count_app, !count_rev.
  rewrite (count_map_none is_construct), (count_map_all is_construct) by done.
  rewrite (count_map_all is_destroy), (count_map_none is_destroy) by done.
  simpl. rewrite !length_seq. lia.
Qed.

Lemma failed_growth_log_destroys_once {T} `{Elem T} (a : Args T) b n j :
  (Z.of_nat j ≤ n)%Z →
  let p := MkPtr (Some b) n in
  ∀ first, destroyed_at p (failed_growth_log a p (MkPtr (Some b) 0) first j) = 1%nat.
Proof.
  intros Hj p first.
  unfold destroyed_at, failed_growth_log, construct_events, destroy_events.
  cbn [List.filter]. rewrite bool_decide_true by done. cbn [length].
  rewrite !count_app, !count_rev.
  rewrite !count_map_none; [done|done|].
  intros i Hi. apply elem_of_seq in Hi. apply bool_decide_false.
  unfold p, ptr_add. simpl. intros [=]. lia.
Qed.

End Counting.

(** ** The operations on a Vector that satisfies its invariant *)

Section Invariants.
Context {T : Type} `{Elem T}.
Implicit Types (w : World T) (p q : Ptr) (v : Vector) (l : list T).

(** A Vector whose block is literally [l] followed by raw slots satisfies the
    invariant. *)
Lemma holds_intro w v l :
  size_ v = Z.of_nat (length l) →
  (size_ v ≤ capacity_ (data_ v) < 2 ^ 64)%Z →
  (buffer_ (data_ v) = nullptr ∧ capacity_ (data_ v) = 0%Z) ∨
  (∃ b, buffer_ (data_ v) = MkPtr (Some b) 0 ∧
        (0 < capacity_ (data_ v) ≤ max_slots w)%Z ∧
        heap w !! b = Some (Some (map Live l ++
          replicate (Z.to_nat (capacity_ (data_ v)) - length l) Raw))) →
  holds w v l.
Proof.
  intros Hsz Hcap Hblk. split; try done.
  - destruct Hblk as [?|(b & Hb & Hpos & Hblk)]; [by left|right]. exists b.
    split; [done|]. split; [done|].
    unfold block_size. rewrite Hblk, length_app, length_map, length_replicate. f_equal. lia.
  - intros i x Hx. destruct Hblk as [[Hnull Hz]|(b & Hb & Hpos & Hblk)].
    + apply lookup_lt_Some in Hx. lia.
    + rewrite Hb. unfold slot_at, ptr_add. simpl.
      destruct (0 + Z.of_nat i <? 0)%Z eqn:Hneg; [apply Z.ltb_lt in Hneg; lia|].
      rewrite Hblk, lookup_app_l by (rewrite length_map; apply lookup_lt_Some in Hx; lia).
      rewrite list_lookup_fmap. replace (Z.to_nat (0 + Z.of_nat i)) with i by lia.
      by rewrite Hx.
  - intros i Hi. destruct Hblk as [[Hnull Hz]|(b & Hb & Hpos & Hblk)]; [lia|].
    rewrite Hb. unfold slot_at, ptr_add. simpl.
    destruct (0 + i <? 0)%Z eqn:Hneg; [apply Z.ltb_lt in Hneg; lia|].
    rewrite Hblk, lookup_app_r by (rewrite length_map; lia).
    apply lookup_replicate_2. rewrite length_map. lia.
Qed.

Lemma EmplaceBack_ok w this v l a r w' :
  objs w !! this = Some (Some v) → holds w v l →
  Vector_EmplaceBack this a w = (Ok r, w') →
  ∃ v', objs w' !! this = Some (Some v') ∧ Size v' = (Size v + 1)%Z ∧
        holds w' v' (l ++ [arg_value a]) ∧
        element w' v' (length l) = Some (arg_value a) ∧
        read r w' = (Ok (arg_value a), w') ∧
        (Size v = Capacity v → Capacity v' = Z.max 1 (2 * Capacity v)) ∧
        ((Size v < Capacity v)%Z → Capacity v' = Capacity v).
Proof.
  intros Hobj Hh Hrun. pose proof (holds_capacity _ _ _ Hh) as Hcap.
  pose proof (lookup_lt_Some _ _ _ Hobj) as Hthis.
  assert (∀ v', holds w' v' (l ++ [arg_value a]) →
                slot_at (heap w') (ptr_add (buffer_ (data_ v')) (Z.of_nat (length l))) =
                Some (Live (arg_value a))) as Hlast.
  { intros v' Hh'. apply (holds_live _ _ _ Hh').
    by rewrite lookup_app_r, Nat.sub_diag by lia. }
  unfold Size, Capacity, RawMemory_Capacity.
  destruct (decide (size_ v = capacity_ (data_ v))) as [Hfull|Hroom].
  - destruct (EmplaceBack_grow w this v l a Hobj Hh Hfull) as (o & w0 & Hrun0 & Hpost & _).
    rewrite Hrun in Hrun0. injection Hrun0 as <- <-.
    destruct Hpost as (-> & Hobjs & Hh'). eexists. split_and!.
    + rewrite Hobjs. by apply list_lookup_insert_eq.
    + done.
    + done.
    + unfold element. by rewrite (Hlast _ Hh').
    + apply read_live. specialize (Hlast _ Hh'). simpl in Hlast.
      rewrite <- Hlast. f_equal. unfold ptr_add. simpl. f_equal.
      rewrite (holds_size _ _ _ Hh). lia.
    + intros _. simpl. by rewrite Hfull.
    + intros ?. lia.
  - destruct (EmplaceBack_room w this v l a Hobj Hh ltac:(lia)) as (o & w0 & Hrun0 & Hpost & _).
    rewrite Hrun in Hrun0. injection Hrun0 as <- <-.
    destruct Hpost as (-> & Hobjs & Hh'). eexists. split_and!.
    + rewrite Hobjs. by apply list_lookup_insert_eq.
    + done.
    + done.
    + unfold element. by rewrite (Hlast _ Hh').
    + apply read_live. specialize (Hlast _ Hh'). simpl in Hlast.
      rewrite <- Hlast. by rewrite (holds_size _ _ _ Hh).
    + intros ?. done.
    + done.
Qed.

Lemma EmplaceBack_returns w this v l a :
  objs w !! this = Some (Some v) → holds w v l → fuse w = None →
  (Size v < Capacity v)%Z ∨
  ((grown_capacity (Size v) ≤ alloc_limit w)%Z ∧ (2 * Size v < 2 ^ 64)%Z) →
  ∃ r w', Vector_EmplaceBack this a w = (Ok r, w').
Proof.
  intros Hobj Hh Hfuse Hcase. pose proof (holds_capacity _ _ _ Hh) as Hcap.
  unfold Size, Capacity, RawMemory_Capacity in Hcase.
  destruct (decide (size_ v = capacity_ (data_ v))) as [Hfull|Hroom].
  - destruct Hcase as [?|[Hlim Hno]]; [lia|].
    destruct (EmplaceBack_grow w this v l a Hobj Hh Hfull) as (o & w0 & Hrun0 & _ & Hret).
    destruct (Hret Hfuse Hlim Hno) as [r ->]. eauto.
  - destruct (EmplaceBack_room w this v l a Hobj Hh ltac:(lia)) as (o & w0 & Hrun0 & _ & Hret).
    destruct (Hret Hfuse) as [r ->]. eauto.
Qed.

End Invariants.

Section Specification.
Context {T : Type} `{Elem T}.
Implicit Types (w : World T) (p q : Ptr) (v : Vector) (l : list T).

(** C5.  Reserve(k) with k <= Capacity() changes nothing.  With
    k > Capacity(), whenever Reserve(k) returns, Capacity() >= max(k, prior
    Capacity()), Size() is the same and the Vector holds the same elements,
    for every [k] of a [size_t]: also for one whose byte count
    [k * sizeof(T)] wraps, where the source returns only if the elements fit
    the smaller block it was given.  When the byte count did not wrap the
    Vector satisfies its invariant again.  Reserve(k) does return when the
    allocator grants [k] slots and no element operation throws. *)
Theorem Reserve_frame w this v l k :
  objs w !! this = Some (Some v) → holds w v l → (0 ≤ k < 2 ^ 64)%Z →
  ((k ≤ Capacity v)%Z → Vector_Reserve this k w = (Ok tt, w)) ∧
  ((Capacity v < k)%Z →
     (∀ w', Vector_Reserve this k w = (Ok tt, w') →
        ∃ v', objs w' !! this = Some (Some v') ∧
              (Z.max k (Capacity v) ≤ Capacity v')%Z ∧ Size v' = Size v ∧
              contents w' v' = contents w v ∧
              ((k * sizeof w < 2 ^ 64)%Z → holds w' v' l)) ∧
     (fuse w = None → (k ≤ alloc_limit w)%Z →
      ∃ w', Vector_Reserve this k w = (Ok tt, w'))).
Proof.
  intros Hobj Hh Hk. split.
  - intros Hle. unfold Vector_Reserve, bind. rewrite (load_obj_ok _ _ _ Hobj).
    by rewrite (proj2 (Z.leb_le _ _) Hle).
  - intros Hlt.
    destruct (Reserve_grow w this v l k Hobj Hh ltac:(lia)) as (o & w0 & Hrun & Hpost & Hret).
    split.
    + intros w' Hrun'. rewrite Hrun' in Hrun. injection Hrun as <- <-.
      destruct Hpost as (Hobjs & _ & _ & Hvals & Hh'). eexists. split_and!.
      * rewrite Hobjs. apply list_lookup_insert_eq. by eapply lookup_lt_Some.
      * unfold Capacity, RawMemory_Capacity in *. simpl. lia.
      * done.
      * rewrite (holds_contents _ _ _ Hh). apply contents_live; simpl.
        -- apply (holds_size _ _ _ Hh).
        -- intros i x Hx. unfold ptr_add. simpl. by apply Hvals.
      * done.
    + intros Hfuse Hlim. rewrite (Hret Hfuse Hlim) in Hrun. eauto.
Qed.

(** C6.  Whenever an append returns, Size() has grown by one and the last
    element is the appended value; when the append found Size() = Capacity()
    the new capacity is max(1, 2 * Capacity()).  This holds for EmplaceBack and
    for PushBack, and the append does return when no element operation throws
    and, on the growing path, the doubled capacity fits [size_t] and the
    allocator grants it. *)
Theorem append_doubles_capacity w this v l :
  objs w !! this = Some (Some v) → holds w v l →
  (∀ a r w', Vector_EmplaceBack this a w = (Ok r, w') →
     ∃ v', objs w' !! this = Some (Some v') ∧ Size v' = (Size v + 1)%Z ∧
           contents w' v' = Some (l ++ [arg_value a]) ∧
           element w' v' (Z.to_nat (Size v' - 1)) = Some (arg_value a) ∧
           read r w' = (Ok (arg_value a), w') ∧
           (Size v = Capacity v → Capacity v' = Z.max 1 (2 * Capacity v))) ∧
  (∀ by_move x w', Vector_PushBack this by_move x w = (Ok tt, w') →
     ∃ v', objs w' !! this = Some (Some v') ∧ Size v' = (Size v + 1)%Z ∧
           contents w' v' = Some (l ++ [x]) ∧
           element w' v' (Z.to_nat (Size v' - 1)) = Some x ∧
           (Size v = Capacity v → Capacity v' = Z.max 1 (2 * Capacity v))) ∧
  (fuse w = None →
   (Size v < Capacity v)%Z ∨
   ((grown_capacity (Size v) ≤ alloc_limit w)%Z ∧ (2 * Size v < 2 ^ 64)%Z) →
   ∀ by_move x, ∃ w', Vector_PushBack this by_move x w = (Ok tt, w')).
Proof.
  intros Hobj Hh.
  assert (∀ a r w', Vector_EmplaceBack this a w = (Ok r, w') →
     ∃ v', objs w' !! this = Some (Some v') ∧ Size v' = (Size v + 1)%Z ∧
           contents w' v' = Some (l ++ [arg_value a]) ∧
           element w' v' (Z.to_nat (Size v' - 1)) = Some (arg_value a) ∧
           read r w' = (Ok (arg_value a), w') ∧
           (Size v = Capacity v → Capacity v' = Z.max 1 (2 * Capacity v))) as Hemplace.
  { intros a r w' Hrun.
    destruct (EmplaceBack_ok w this v l a r w' Hobj Hh Hrun)
      as (v' & Hobj' & Hsz' & Hh' & Hlast & Hread & Hgrow & _).
    exists v'. split_and!; try done.
    - by apply holds_contents.
    - rewrite Hsz'. unfold Size. rewrite (holds_size _ _ _ Hh).
      replace (Z.to_nat (Z.of_nat (length l) + 1 - 1)) with (length l) by lia. done. }
  split_and!.
  - done.
  - intros by_move x w' Hrun. unfold Vector_PushBack, bind, ret in Hrun.
    destruct (Vector_EmplaceBack this _ w) as [[r| | | |] w0] eqn:Hrun0; try done.
    injection Hrun as <-.
    destruct (Hemplace _ _ _ Hrun0) as (v' & ? & ? & ? & ? & _ & ?). eauto 10.
  - intros Hfuse Hcase by_move x.
    destruct (EmplaceBack_returns w this v l
                (MkArgs (if by_move then MoveCtor else CopyCtor) x) Hobj Hh Hfuse Hcase)
      as (r & w' & Hrun).
    exists w'. unfold Vector_PushBack, bind, ret. by rewrite Hrun.
Qed.

(** C7.  When a growing EmplaceBack (Size() = Capacity()) throws, no Vector
    object has changed, so Size() and Capacity() are what they were, and every
    construction was undone.  Either nothing was constructed (the allocation or
    the construction of the new element failed), or the new element was placed
    in slot n of the new block, the relocation failed after [j] elements, and
    the new element was destroyed exactly once.  When relocation copies, the
    original elements are intact. *)
Theorem growing_EmplaceBack_strong_guarantee w this v l a e w' :
  objs w !! this = Some (Some v) → holds w v l → Size v = Capacity v →
  Vector_EmplaceBack this a w = (Throw e, w') →
  let new_block := MkPtr (Some (length (heap w))) 0 in
  let new_element := ptr_add new_block (Size v) in
  objs w' = objs w ∧
  balance w' = balance w ∧
  (relocate_by_move = false → holds w' v l ∧ contents w' v = contents w v) ∧
  (log w' = log w ∨
   (∃ j, (j < length l)%nat ∧
         log w' = failed_growth_log a new_element new_block (buffer_ (data_ v)) j ++ log w) ∧
   destroyed_at new_element (log w') = S (destroyed_at new_element (log w))).
Proof.
  intros Hobj Hh Hfull Hrun new_block new_element.
  destruct (EmplaceBack_grow w this v l a Hobj Hh Hfull) as (o & w0 & Hrun0 & Hpost & _).
  rewrite Hrun in Hrun0. injection Hrun0 as <- <-.
  destruct Hpost as (Hobjs & _ & Hkeep & Hlog).
  assert (new_element = MkPtr (Some (length (heap w))) (size_ v)) as Hp
    by (unfold new_element, new_block, ptr_add, Size; simpl; f_equal; lia).
  split_and!.
  - done.
  - unfold balance. destruct Hlog as [-> | (j & _ & ->)]; [done|].
    unfold ctor_count, dtor_count. rewrite !count_app.
    pose proof (failed_growth_log_balanced a
      (MkPtr (Some (length (heap w))) (size_ v)) (MkPtr (Some (length (heap w))) 0)
      (buffer_ (data_ v)) j) as Hbal.
    unfold ctor_count, dtor_count in Hbal. lia.
  - intros Hcopy. specialize (Hkeep Hcopy). split; [done|].
    by rewrite (holds_contents _ _ _ Hkeep), (holds_contents _ _ _ Hh).
  - destruct Hlog as [?|(j & Hj & Hlog)]; [by left|right]. rewrite Hp. split; [eauto|].
    rewrite Hlog. unfold destroyed_at at 1. rewrite count_app.
    fold (destroyed_at (MkPtr (Some (length (heap w))) (size_ v)) (log w)).
    pose proof (failed_growth_log_destroys_once a (length (heap w)) (size_ v) j) as Honce.
    simpl in Honce. unfold destroyed_at in Honce at 1. rewrite Honce; [done|].
    rewrite (holds_size _ _ _ Hh). lia.
Qed.

(** C8.  Move construction never fails: the new Vector is other's former
    record (same Size(), Capacity() and buffer, hence the same elements), the
    source is left with Size() = 0 and Capacity() = 0, and no element is
    constructed, moved or destroyed. *)
Theorem move_ctor_steals w other v :
  objs w !! other = Some (Some v) →
  let new := length (objs w) in
  ∃ w', Vector_move_ctor other w = (Ok new, w') ∧
        objs w' !! new = Some (Some v) ∧
        contents w' v = contents w v ∧
        (∃ o, objs w' !! other = Some (Some o) ∧ Size o = 0%Z ∧ Capacity o = 0%Z ∧
              contents w' o = Some []) ∧
        heap w' = heap w ∧ log w' = log w.
Proof.
  intros Hobj new. pose proof (lookup_lt_Some _ _ _ Hobj) as Hlt.
  destruct v as [[buf cap] sz].
  unfold Vector_move_ctor, noexcept, bind. rewrite (load_obj_ok _ _ _ Hobj). simpl.
  erewrite store_obj_ok by done. simpl. rewrite length_insert. fold new.
  eexists. split; [done|]. simpl. split_and!.
  - by rewrite lookup_app_r, length_insert, Nat.sub_diag by (rewrite length_insert; lia).
  - done.
  - eexists. split_and!.
    + rewrite lookup_app_l by (rewrite length_insert; lia). by apply list_lookup_insert_eq.
    + done.
    + done.
    + done.
  - done.
  - done.
Qed.

(** C9.  Erase at a valid position [begin() + i], i < Size().  Whenever it
    returns: slots i+1..n-1 were move-assigned one to the left in increasing
    order and slot n-1 was then destroyed (the log), Size() has dropped by one,
    the Vector holds the old elements without the i-th, and the returned
    iterator is [begin() + i], which now refers to the element that followed
    the erased one.  It does return when the move assignment of T cannot throw;
    the only other outcome is [std::terminate], when a move assignment
    throws inside the [noexcept] function. *)
Theorem Erase_shifts_left w this v l i x :
  objs w !! this = Some (Some v) → holds w v l → l !! i = Some x →
  let pos := ptr_add (begin_ v) (Z.of_nat i) in
  (∀ r w', Vector_Erase this pos w = (Ok r, w') →
     r = pos ∧
     ∃ v', objs w' !! this = Some (Some v') ∧
        Size v' = (Size v - 1)%Z ∧ Capacity v' = Capacity v ∧ begin_ v' = begin_ v ∧
        holds w' v' (delete i l) ∧ contents w' v' = Some (delete i l) ∧
        log w' = EvDestroy (Some (ptr_add (begin_ v) (Size v - 1))) ::
                 rev (move_assign_events pos (ptr_add pos 1) 0 (length l - 1 - i)) ++ log w ∧
        (∀ y, l !! S i = Some y → read r w' = (Ok y, w'))) ∧
  (quiet MoveAssign w → ∃ w', Vector_Erase this pos w = (Ok pos, w')) ∧
  (∃ w', Vector_Erase this pos w = (Ok pos, w') ∨
         Vector_Erase this pos w = (Terminate, w')).
Proof.
  intros Hobj Hh Hx pos.
  destruct (Erase_valid w this v l i x Hobj Hh Hx) as (o & w0 & Hrun & Hpost).
  change (ptr_add (buffer_ (data_ v)) (Z.of_nat i)) with pos in Hrun, Hpost.
  change (buffer_ (data_ v)) with (begin_ v) in Hpost. split_and!.
  - intros r w' Hrun'. rewrite Hrun' in Hrun. injection Hrun as <- <-.
    destruct Hpost as (-> & Hobjs & Hh' & Hlog & Hnext). split; [done|].
    exists (MkVector (data_ v) (size_ v - 1)). split_and!; try done.
    + rewrite Hobjs. apply list_lookup_insert_eq. by eapply lookup_lt_Some.
    + by apply holds_contents.
    + intros y Hy. apply read_live. by apply Hnext.
  - intros Hq. destruct o as [r| | | |]; try done.
    + destruct Hpost as (-> & _). eauto.
    + destruct Hpost as [Hmt Hf]. destruct Hq; congruence.
  - destruct o as [r| | | |]; try done.
    + destruct Hpost as (-> & _). eauto.
    + eauto.
Qed.

(** C10.  Self-assignment is the identity: both assignment operators skip the
    self case and leave the whole world, hence Size(), Capacity() and every
    element of the Vector, as it was. *)
Theorem self_assignment_identity w a :
  Vector_copy_assign a a w = (Ok tt, w) ∧ Vector_move_assign a a w = (Ok tt, w).
Proof.
  unfold Vector_copy_assign, Vector_move_assign, noexcept.
  by rewrite bool_decide_false by (intros Hne; by apply Hne).
Qed.

End Specification.

(** ** The assignments *)

Section CopyAssign.
Context {T : Type} `{Elem T}.
Implicit Types (w : World T) (p q : Ptr) (v : Vector) (l : list T).

Lemma copy_assign_elem_spec w dst src x0 y :
  fuse w = None →
  slot_at (heap w) dst = Some (Live x0) → slot_at (heap w) src = Some (Live y) →
  ∃ w', copy_assign dst src w = (Ok tt, w') ∧ evolves (eq dst) w w' ∧
        slot_at (heap w') dst = Some (Live y) ∧ fuse w' = None.
Proof.
  intros Hf Hdst Hsrc. unfold copy_assign, bind. rewrite (read_live _ _ _ Hsrc).
  destruct (assign_at_spec CopyAssign dst (Some src) y x0 w Hdst)
    as [(w' & -> & Hev & Hd & _)|(_ & ? & _)]; [|done].
  exists w'. split_and!; try done. by apply (ev_fuse _ _ _ Hev).
Qed.

(** The assignment loop of the copy assignment, from index [k], when no
    element operation throws. *)
Lemma assign_loop_spec (ys : list T) (d s : RawMemory) n : ∀ (k : nat) w,
  fuse w = None →
  p_block (buffer_ d) ≠ p_block (buffer_ s) →
  (Z.of_nat (k + n) ≤ capacity_ d < 2 ^ 64)%Z → (Z.of_nat (k + n) ≤ capacity_ s)%Z →
  (∀ j, (k ≤ j < k + n)%nat →
     ∃ x0, slot_at (heap w) (ptr_add (buffer_ d) (Z.of_nat j)) = Some (Live x0)) →
  (∀ j, (k ≤ j < k + n)%nat →
     ∃ y, ys !! j = Some y ∧
          slot_at (heap w) (ptr_add (buffer_ s) (Z.of_nat j)) = Some (Live y)) →
  ∃ w', assign_loop d s (Z.of_nat k) n w = (Ok (Z.of_nat (k + n)), w') ∧
        evolves (in_range (ptr_add (buffer_ d) (Z.of_nat k)) n) w w' ∧
        (∀ j y, (k ≤ j < k + n)%nat → ys !! j = Some y →
           slot_at (heap w') (ptr_add (buffer_ d) (Z.of_nat j)) = Some (Live y)) ∧
        fuse w' = None.
Proof.
  induction n as [|n IH]; intros k w Hf Hblk Hcd Hcs Hdst Hsrc.
  - exists w. rewrite Nat.add_0_r. split_and!; try done;
      first [apply evolves_refl | (intros; lia)].
  - destruct (Hdst k ltac:(lia)) as [x0 Hx0]. destruct (Hsrc k ltac:(lia)) as (y0 & Hy0 & Hs0).
    destruct (copy_assign_elem_spec w _ _ x0 y0 Hf Hx0 Hs0) as (w1 & Hrun1 & Hev1 & Hd1 & Hf1).
    assert (∀ q, q ≠ ptr_add (buffer_ d) (Z.of_nat k) →
                 slot_at (heap w1) q = slot_at (heap w) q) as Hfr1
      by (intros q ?; apply (ev_frame _ _ _ Hev1); congruence).
    destruct (IH (S k) w1) as (w' & Hrun' & Hev' & Hvals' & Hf'); try done; try lia.
    { intros j Hj. rewrite Hfr1 by by_offset. apply Hdst. lia. }
    { intros j Hj. rewrite Hfr1 by by_block. apply Hsrc. lia. }
    exists w'. split_and!.
    + simpl. unfold bind, RawMemory_index, assert, ret.
      rewrite (proj2 (Z.ltb_lt _ _)) by lia. rewrite (proj2 (Z.ltb_lt _ _)) by lia.
      unfold bind. rewrite Hrun1, wrap_small by lia.
      replace (Z.of_nat k + 1)%Z with (Z.of_nat (S k)) by lia. rewrite Hrun'.
      do 3 f_equal. lia.
    + eapply evolves_trans.
      * eapply evolves_weaken; [exact Hev1|]. intros q <-. apply in_range_here.
      * eapply evolves_weaken; [exact Hev'|]. intros q.
        apply in_range_weaken; simpl; [done|lia..].
    + intros j y Hj Hy. destruct (decide (j = k)) as [->|Hne].
      * assert (y = y0) as -> by congruence.
        rewrite (ev_frame _ _ _ Hev'); [done|]. unfold in_range. simpl. lia.
      * apply Hvals'; [lia|done].
    + done.
Qed.

(** What the copy assignment does when the right-hand side is longer than the
    target and fits its capacity, and nothing throws: slots [0, n) are assigned
    from slots [0, n) of [rhs], and slots [n, rhs.n) are copy-constructed from
    slots [0, rhs.n - n) of [rhs]. *)
Lemma copy_assign_in_place_longer w a b va vb la lb :
  a ≠ b → objs w !! a = Some (Some va) → objs w !! b = Some (Some vb) →
  holds w va la → holds w vb lb →
  p_block (buffer_ (data_ va)) ≠ p_block (buffer_ (data_ vb)) →
  fuse w = None →
  (length la < length lb)%nat → (Z.of_nat (length lb) ≤ capacity_ (data_ va))%Z →
  let va' := MkVector (data_ va) (size_ vb) in
  ∃ w', Vector_copy_assign a b w = (Ok tt, w') ∧
        objs w' = <[a := Some va']> (objs w) ∧
        holds w' va' (take (length la) lb ++ take (length lb - length la) lb) ∧
        holds w' vb lb.
Proof.
  intros Hne Ha Hb Hha Hhb Hblk Hf Hlt Hfit va'.
  pose proof Hha as [Hsza Hcapa Hblka Hlivea Hrawa].
  pose proof Hhb as [Hszb Hcapb Hblkb Hliveb Hrawb].
  set (n := length la) in *. set (rn := length lb) in *.
  set (bufa := buffer_ (data_ va)) in *. set (bufb := buffer_ (data_ vb)) in *.
  unfold Vector_copy_assign, bind. rewrite bool_decide_true by done.
  rewrite (load_obj_ok _ _ _ Ha), (load_obj_ok _ _ _ Hb).
  unfold Capacity, RawMemory_Capacity.
  destruct (size_ vb >? capacity_ (data_ va))%Z eqn:Hgt; [apply Z.gtb_lt in Hgt; lia|].
  destruct (size_ vb <? size_ va)%Z eqn:Hlt'; [apply Z.ltb_lt in Hlt'; lia|].
  destruct (assign_loop_spec lb (data_ va) (data_ vb) n 0 w) as (w1 & Hrun1 & Hev1 & Hvals1 & Hf1);
    try done; try lia.
  { intros j Hj. destruct (lookup_lt_is_Some_2 la j ltac:(lia)) as [x Hx]. eauto. }
  { intros j Hj. destruct (lookup_lt_is_Some_2 lb j ltac:(lia)) as [y Hy]. eauto. }
  rewrite Hsza, Nat2Z.id. change (Z.of_nat 0) with 0%Z in Hrun1. rewrite Hrun1.
  simpl in Hev1. rewrite ptr_add_0 in Hev1. fold bufa in Hev1, Hvals1.
  assert (∀ q, p_block q ≠ p_block bufa → slot_at (heap w1) q = slot_at (heap w) q) as Hfr1.
  { intros q Hq. apply (ev_frame _ _ _ Hev1). unfold in_range. tauto. }
  (* the construction of the new tail, from the front of rhs *)
  unfold uninitialized_copy_n, GetAddress. fold bufa bufb.
  replace (Z.to_nat (wrap (size_ vb - Z.of_nat n))) with (rn - n)%nat
    by (rewrite wrap_small; lia).
  destruct (uninit_loop_spec CopyCtor (λ x, x) copy_construct lb bufb
              (ptr_add bufa (Z.of_nat (0 + n))) copy_construct_step copy_construct_fault
              ltac:(simpl; congruence) (rn - n) 0 w1) as (o & w2 & Hrun2 & Hpost).
  { intros; lia. }
  { intros j Hj. rewrite ptr_add_add, (ev_frame _ _ _ Hev1).
    - apply Hrawa. lia.
    - unfold in_range. simpl. lia. }
  { intros j Hj. destruct (lookup_lt_is_Some_2 lb j ltac:(lia)) as [y Hy]. exists y.
    split; [done|]. rewrite Hfr1 by (simpl; congruence). by apply Hliveb. }
  rewrite Hrun2. destruct o as [[]|e| | |f]; try done.
  2:{ destruct Hpost as (_ & Hcontra & _). by rewrite Hf1 in Hcontra. }
  destruct Hpost as (Hev2 & Hvals2 & _). simpl in Hev2. rewrite !ptr_add_0 in Hev2.
  assert (objs w2 = objs w) as Hobjs
    by (by rewrite (ev_objs _ _ _ Hev2), (ev_objs _ _ _ Hev1)).
  erewrite store_obj_ok by (rewrite Hobjs; done).
  eexists. split; [done|]. simpl. split; [by rewrite Hobjs|].
  assert (∀ b0, block_size (heap w2) b0 = block_size (heap w) b0) as Hbs
    by (intros; by rewrite (ev_size _ _ _ Hev2), (ev_size _ _ _ Hev1)).
  split.
  - split; simpl; fold bufa.
    + rewrite length_app, !length_take. lia.
    + lia.
    + apply (owns_block_frame w); [done|solve_elem|]. intros b0 Hb0. by rewrite Hbs.
    + intros j y Hy. destruct (decide (j < n)%nat) as [Hj|Hj].
      * rewrite lookup_app_l in Hy by (rewrite length_take; lia).
        rewrite lookup_take_lt in Hy by lia.
        rewrite (ev_frame _ _ _ Hev2).
        -- apply Hvals1; [lia|done].
        -- unfold in_range. simpl. intros [[_ ?]|[? _]]; [lia|congruence].
      * rewrite lookup_app_r in Hy by (rewrite length_take; lia).
        rewrite length_take in Hy. fold rn in Hy.
        replace (n `min` rn)%nat with n in Hy by lia.
        pose proof (lookup_lt_Some _ _ _ Hy) as Hlen. rewrite length_take in Hlen.
        fold rn in Hlen. rewrite lookup_take_lt in Hy by lia.
        destruct (Hvals2 (j - n)%nat y ltac:(lia) Hy) as [Hd _].
        rewrite ptr_add_add in Hd. rewrite <- Hd. do 2 f_equal. lia.
    + intros z Hz. rewrite (ev_frame _ _ _ Hev2), (ev_frame _ _ _ Hev1).
      * apply Hrawa. lia.
      * unfold in_range. simpl. lia.
      * unfold in_range. simpl. intros [[_ ?]|[? _]]; [lia|congruence].
  - eapply holds_frame; [exact Hhb|solve_elem|..]; fold bufb.
    + intros. apply Hbs.
    + intros q Hq. simpl. rewrite <- Hfr1 by congruence.
      destruct (decide ((p_off bufb ≤ p_off q < p_off bufb + Z.of_nat (rn - n))%Z))
        as [Hin|Hout].
      * (* q is one of the source slots, which a copy leaves as it was *)
        assert (∃ i, (i < rn - n)%nat ∧ q = ptr_add bufb (Z.of_nat i)) as (i & Hi & ->).
        { exists (Z.to_nat (p_off q - p_off bufb)). split; [lia|].
          apply ptr_eq; simpl; [done|lia]. }
        destruct (lookup_lt_is_Some_2 lb i ltac:(lia)) as [y Hy].
        destruct (Hvals2 i y ltac:(lia) Hy) as [_ ->].
        rewrite Hfr1 by (simpl; congruence). symmetry. by apply Hliveb.
      * apply (ev_frame _ _ _ Hev2). unfold in_range. simpl.
        intros [[? _]|[_ ?]]; [congruence|lia].
Qed.

End CopyAssign.

Section MoveAssign.
Context {T : Type} `{Elem T}.
Implicit Types (w : World T) (v : Vector).

Lemma live_elements_insert (os : list (option Vector)) a v v' (w : World T) :
  os !! a = Some (Some v) →
  live_elements (set_objs (<[a := Some v']> os) w) =
  (live_elements (set_objs os w) - size_ v + size_ v')%Z.
Proof.
  unfold live_elements. simpl. revert a. induction os as [|o os IH]; intros a Ha; [done|].
  destruct a as [|a]; simpl in *.
  - injection Ha as ->. lia.
  - rewrite (IH _ Ha). destruct o; lia.
Qed.

(** What the move assignment between two different Vectors does: the target
    takes the record of [rhs], [rhs] is left with the target's former buffer
    and size 0, and no element is destroyed; the former elements of the target
    are no longer counted by any Size(). *)
Lemma move_assign_effect w a b va vb :
  a ≠ b → objs w !! a = Some (Some va) → objs w !! b = Some (Some vb) →
  ∃ w', Vector_move_assign a b w = (Ok tt, w') ∧
        heap w' = heap w ∧ log w' = log w ∧
        objs w' !! a = Some (Some vb) ∧
        objs w' !! b = Some (Some (MkVector (data_ va) 0)) ∧
        live_elements w' = (live_elements w - size_ va)%Z.
Proof.
  intros Hne Ha Hb. destruct va as [[bufa capa] sza], vb as [[bufb capb] szb].
  pose proof (lookup_lt_Some _ _ _ Ha). pose proof (lookup_lt_Some _ _ _ Hb).
  unfold Vector_move_assign, noexcept, bind. rewrite bool_decide_true by done.
  rewrite (load_obj_ok _ _ _ Ha), (load_obj_ok _ _ _ Hb). simpl.
  erewrite store_obj_ok by done.
  erewrite store_obj_ok by (simpl; rewrite list_lookup_insert_ne by done; done).
  eexists. split; [done|]. simpl. split_and!; try done.
  - by rewrite list_lookup_insert_eq by (rewrite length_insert; lia).
  - rewrite list_lookup_insert_ne by done. by rewrite list_lookup_insert_eq.
  - erewrite (live_elements_insert _ a)
      by (rewrite list_lookup_insert_ne by done; done).
    erewrite (live_elements_insert _ b) by done. simpl.
    unfold live_elements. simpl. lia.
Qed.

End MoveAssign.

Import IntScenarios.

(** C1.  Vector 0 is [1] with capacity 3 and Vector 1 is [7, 8, 9]; the copy
    assignment [v0 = v1] reuses the storage, assigns slot 0 from slot 0 of the
    right-hand side, and then copy-constructs slots 1 and 2 from slots 0 and 1
    of the right-hand side instead of slots 1 and 2: the target ends as
    [7, 7, 8]. *)
Theorem copy_assign_constructs_from_front :
  contents_at assign_before 0 = Some [1%Z] ∧
  outcome (@Vector_Capacity Z 0) assign_before = Ok 3%Z ∧
  contents_at assign_before 1 = Some [7; 8; 9]%Z ∧
  ∃ w', @Vector_copy_assign Z int_elem 0 1 assign_before = (Ok tt, w') ∧
        contents_at w' 1 = Some [7; 8; 9]%Z ∧
        contents_at w' 0 = Some [7; 7; 8]%Z ∧
        contents_at w' 0 ≠ contents_at w' 1 ∧
        take 2 (log w') =
          [EvConstruct CopyCtor (Some (MkPtr (Some 0%nat) 2)) (Some (MkPtr (Some 3%nat) 1));
           EvConstruct CopyCtor (Some (MkPtr (Some 0%nat) 1)) (Some (MkPtr (Some 3%nat) 0))].
Proof.
  split_and!; try (vm_compute; reflexivity).
  eexists. split; [vm_compute; reflexivity|].
  split_and!; try (vm_compute; reflexivity). vm_compute. discriminate.
Qed.

(** C2.  Vector 0 is [1, 2] and Vector 1 is [7]: constructions minus
    destructions is 3, the number of live elements.  After the move assignment
    [v0 = std::move(v1)] no destructor has run, but the Sizes add up to 1: the
    two former elements of the target sit in the buffer now owned by the
    right-hand side, whose size is 0.  Destroying both Vectors afterwards runs
    one destructor and releases every block: two elements are never
    destroyed. *)
Theorem move_assign_leaks_target :
  balance move_before = 3%Z ∧ live_elements move_before = 3%Z ∧
  ∃ w', @Vector_move_assign Z 0 1 move_before = (Ok tt, w') ∧
        balance w' = 3%Z ∧ live_elements w' = 1%Z ∧
        contents_at w' 0 = Some [7%Z] ∧ contents_at w' 1 = Some [] ∧
        slot_at (heap w') (MkPtr (Some 1%nat) 0) = Some (Live 1%Z) ∧
        slot_at (heap w') (MkPtr (Some 1%nat) 1) = Some (Live 2%Z) ∧
        ∃ w'', (@Vector_dtor Z 0;; @Vector_dtor Z 1) w' = (Ok tt, w'') ∧
               heap w'' = [None; None; None] ∧
               live_elements w'' = 0%Z ∧ balance w'' = 2%Z.
Proof.
  split_and!; try (vm_compute; reflexivity).
  eexists. split; [vm_compute; reflexivity|].
  split_and!; try (vm_compute; reflexivity).
  eexists. split; [vm_compute; reflexivity|].
  split_and!; vm_compute; reflexivity.
Qed.

(** C3.  A Vector [1, 2] with Size() = Capacity() = 2 of a type whose copy
    constructor throws, and Emplace at [begin() + 1].  When the first copy of
    the prefix throws, nothing was placed in slot 0 of the new block, and the
    handler destroys that raw slot.  When Emplace is at [end()] and the second
    copy throws, slot 0 was built and already destroyed again by
    [std::uninitialized_copy_n], and the handler destroys it a second time.
    A failure in the suffix (Emplace at [begin()]) is cleaned up correctly. *)
Theorem Emplace_prefix_failure_destroys_raw_slot :
  let v := ThrowingScenarios.two_vec in
  let a := MkArgs ArgsCtor 99%Z in
  objs (ThrowingScenarios.two 0) !! 0%nat = Some (Some v) ∧
  (∃ w', @Vector_Emplace Z throwing_elem 0 (ptr_add (begin_ v) 1) a (ThrowingScenarios.two 0) =
           (Undefined (NotLive (ThrowingScenarios.new_slot 0)), w') ∧
         slot_at (heap w') (ThrowingScenarios.new_slot 0) = Some Raw ∧
         ctor_count (log w') = ctor_count (log (ThrowingScenarios.two 0)) + 1) ∧
  (∃ w', @Vector_Emplace Z throwing_elem 0 (end_ v) a (ThrowingScenarios.two 1) =
           (Undefined (NotLive (ThrowingScenarios.new_slot 0)), w') ∧
         destroyed_at (ThrowingScenarios.new_slot 0) (log w') = 1) ∧
  (∃ w', @Vector_Emplace Z throwing_elem 0 (begin_ v) a (ThrowingScenarios.two 0) =
           (Throw element_failure, w') ∧
         balance w' = balance (ThrowingScenarios.two 0) ∧
         objs w' = objs (ThrowingScenarios.two 0) ∧
         contents_at w' 0 = Some [1; 2]%Z).
Proof.
  repeat apply conj; try (vm_compute; reflexivity);
    (eexists; split; [vm_compute; reflexivity|]; repeat apply conj; vm_compute; reflexivity).
Qed.

(** C4.  The assertion at the head of Erase is [pos <= cend()], so it
    accepts [pos = end()] for every Vector whose size is not negative.  On an
    empty Vector, Erase(end()) passes the assertion and goes on to
    [std::move] over a range whose end precedes its start. *)
Theorem Erase_assertion_accepts_end :
  (∀ v, position_assertion v (end_ v) = (0 <=? size_ v)%Z) ∧
  ∃ v, objs empty_one !! 0%nat = Some (Some v) ∧ Size v = 0%Z ∧
       position_assertion v (end_ v) = true ∧
       outcome (@Vector_Erase Z int_elem 0 (end_ v)) empty_one = Undefined BadRange ∧
       outcome (@Vector_Erase Z int_elem 0 (end_ v)) empty_one ≠ AssertFail.
Proof.
  split.
  - intros v. unfold position_assertion, cbegin, cend, end_, ptr_leb, ptr_add. simpl.
    rewrite !bool_decide_true by done. simpl. rewrite Z.leb_refl, andb_true_r.
    destruct (0 <=? size_ v)%Z eqn:Hle.
    + apply Z.leb_le. apply Z.leb_le in Hle. lia.
    + apply Z.leb_gt. apply Z.leb_gt in Hle. lia.
  - eexists. split; [vm_compute; reflexivity|].
    split_and!; try (vm_compute; reflexivity). vm_compute. discriminate.
Qed.

(** ** Frames over blocks *)

Section BlockFrameLemmas.
Context {T : Type} `{Elem T}.
Implicit Types (w : World T) (p q : Ptr) (v : Vector) (l : list T).

Lemma changes_only_refl B w : changes_only B w w.
Proof. by split. Qed.

Lemma changes_only_weaken (B B' : nat → Prop) w w' :
  changes_only B w w' → (∀ b, B b → B' b) → changes_only B' w w'.
Proof. intros [] HB. split; eauto. Qed.

Lemma changes_only_trans (B : nat → Prop) w w1 w2 :
  changes_only B w w1 → changes_only B w1 w2 → changes_only B w w2.
Proof.
  intros [Ho1 Hz1 Ha1 Hf1 Hs1 Hq1] [Ho2 Hz2 Ha2 Hf2 Hs2 Hq2]. split.
  - congruence.
  - congruence.
  - congruence.
  - auto.
  - intros b Hb. rewrite Hs2 by done. auto.
  - intros q b Hq Hb. rewrite (Hq2 q b) by done. eauto.
Qed.

Lemma evolves_changes_only (P : Ptr → Prop) (B : nat → Prop) w w' :
  evolves P w w' → (∀ q b, P q → p_block q = Some b → B b) → changes_only B w w'.
Proof.
  intros [Ho Hz Ha Hf Hs Hfr] HPB. split; auto.
  intros q b Hq Hb. apply Hfr. intros HP. apply Hb. eauto.
Qed.

Lemma changes_only_alloc B w n :
  B (length (heap w)) →
  changes_only B w (set_heap (heap w ++ [Some (replicate n Raw)]) w).
Proof.
  intros HB. split; simpl; try done.
  - intros b Hb. apply block_size_alloc_old. by intros ->.
  - intros q b Hq Hb. apply slot_at_alloc_old. rewrite Hq. intros [= ->]. done.
Qed.

Lemma changes_only_release B p w :
  (∀ b, p_block p = Some b → B b) →
  changes_only B w (set_heap (release p (heap w)) w).
Proof.
  intros HB. split; simpl; try done.
  - intros b Hb. apply block_size_release. intros Hp. apply Hb. auto.
  - intros q b Hq Hb. apply slot_at_release. rewrite Hq. intros Hp. apply Hb. auto.
Qed.

Lemma changes_only_set_objs B o w : objs w = o → changes_only B w (set_objs o w).
Proof. intros <-. by split. Qed.

(** The invariant of a Vector survives any change confined to other
    blocks. *)
Lemma holds_preserved (B : nat → Prop) w w' v l :
  holds w v l → changes_only B w w' →
  (∀ b, p_block (buffer_ (data_ v)) = Some b → ¬ B b) →
  holds w' v l.
Proof.
  intros Hh [_ Hz _ _ Hs Hq] HB. eapply holds_frame; [exact Hh|done|..].
  - intros b Hb. apply Hs. auto.
  - intros q Hqb. destruct (p_block (buffer_ (data_ v))) as [b|] eqn:Hb.
    + apply (Hq q b); auto.
    + unfold slot_at. by rewrite Hqb.
Qed.

Lemma release_gone (h : list (option (list (Slot T)))) p b :
  p_block p = Some b → block_size (release p h) b = None.
Proof.
  intros Hp. unfold release, block_size. rewrite Hp.
  destruct (decide (b < length h)%nat).
  - by rewrite list_lookup_insert_eq.
  - rewrite lookup_ge_None_2; [done|]. rewrite length_insert. lia.
Qed.

(** A copy loop leaves every block other than the destination as it was. *)
Lemma copy_leaves_source w w' l first d j :
  p_block first ≠ p_block d → (j ≤ length l)%nat →
  evolves (λ q, in_range d j q ∨ in_range first j q) w w' →
  (∀ i x, l !! i = Some x →
     slot_at (heap w) (ptr_add first (Z.of_nat i)) = Some (Live x)) →
  (∀ i x, (i < j)%nat → l !! i = Some x →
     slot_at (heap w') (ptr_add first (Z.of_nat i)) = Some (Live x)) →
  changes_only (block_of d) w w'.
Proof.
  intros Hblk Hj Hev Hsrc Hsrc'. split; try apply Hev.
  - intros b _. apply (ev_size _ _ _ Hev).
  - intros q b Hq Hb. unfold block_of in Hb.
    destruct (decide (p_block q = p_block first ∧
                      (p_off first ≤ p_off q < p_off first + Z.of_nat j)%Z)) as [[Hqb Hoff]|Hout].
    + assert (∃ i, (i < j)%nat ∧ q = ptr_add first (Z.of_nat i)) as (i & Hi & ->).
      { exists (Z.to_nat (p_off q - p_off first)). split; [lia|].
        apply ptr_eq; simpl; [done|lia]. }
      destruct (lookup_lt_is_Some_2 l i ltac:(lia)) as [x Hx].
      by rewrite (Hsrc _ _ Hx), (Hsrc' _ _ Hi Hx).
    + apply (ev_frame _ _ _ Hev). unfold in_range. intros [[? _]|?]; [congruence|tauto].
Qed.

(** Constructions undone by as many destructions leave the balance. *)
Lemma balance_undone w w' op d s j evs :
  ctor_count evs = dtor_count evs →
  log w' = rev (destroy_events d 0 j) ++ rev (construct_events op d s 0 j) ++ evs ++ log w →
  balance w' = balance w.
Proof.
  intros Hevs Hl. unfold balance, ctor_count, dtor_count in *. rewrite Hl.
  rewrite !count_app, !count_rev. unfold destroy_events, construct_events.
  rewrite (count_map_none is_construct), (count_map_all is_construct) by done.
  rewrite (count_map_all is_destroy), (count_map_none is_destroy) by done.
  rewrite !length_seq. lia.
Qed.

Lemma balance_constructed w w' op d s n :
  log w' = rev (construct_events op d s 0 n) ++ log w →
  balance w' = (balance w + Z.of_nat n)%Z.
Proof.
  intros Hl. unfold balance, ctor_count, dtor_count in *. rewrite Hl.
  rewrite !count_app, !count_rev. unfold construct_events.
  rewrite (count_map_all is_construct), (count_map_none is_destroy) by done.
  rewrite !length_seq. lia.
Qed.

Lemma balance_destroyed w w' d k n :
  log w' = rev (destroy_events d k n) ++ log w →
  balance w' = (balance w - Z.of_nat n)%Z.
Proof.
  intros Hl. unfold balance, ctor_count, dtor_count in *. rewrite Hl.
  rewrite !count_app, !count_rev. unfold destroy_events.
  rewrite (count_map_none is_construct), (count_map_all is_destroy) by done.
  rewrite !length_seq. lia.
Qed.

Lemma live_elements_kill (os : list (option Vector)) a v (w : World T) :
  os !! a = Some (Some v) →
  live_elements (set_objs (<[a := None]> os) w) =
  (live_elements (set_objs os w) - size_ v)%Z.
Proof.
  unfold live_elements. simpl. revert a. induction os as [|o os IH]; intros a Ha; [done|].
  destruct a as [|a]; simpl in *.
  - injection Ha as ->. lia.
  - rewrite (IH _ Ha). destruct o; lia.
Qed.

Lemma live_elements_new (os : list (option Vector)) v (w : World T) :
  live_elements (set_objs (os ++ [Some v]) w) =
  (live_elements (set_objs os w) + size_ v)%Z.
Proof.
  unfold live_elements. simpl. induction os as [|o os IH]; simpl; [lia|].
  rewrite IH. destruct o; lia.
Qed.

End BlockFrameLemmas.

Section DestroyAndCopy.
Context {T : Type} `{Elem T}.
Implicit Types (w : World T) (p q : Ptr) (v : Vector) (l : list T).

(** The destructor body and the release of the buffer. *)
Lemma Vector_destroy_spec w v l :
  holds w v l →
  ∃ w', Vector_destroy v w = (Ok tt, w') ∧
        changes_only (block_of (buffer_ (data_ v))) w w' ∧
        fuse w' = fuse w ∧
        (∀ b, p_block (buffer_ (data_ v)) = Some b → block_size (heap w') b = None) ∧
        log w' = rev (destroy_events (buffer_ (data_ v)) 0 (length l)) ++ log w.
Proof.
  intros Hh. pose proof Hh as [Hsz Hcap Hblk Hlive Hraw].
  destruct (destroy_loop_spec (length l) (buffer_ (data_ v)) w)
    as (w1 & Hrun1 & Hev1 & Hraw1 & Hf1 & Hl1).
  { intros i Hi. destruct (lookup_lt_is_Some_2 l i Hi) as [x Hx]. eauto. }
  unfold Vector_destroy, bind, destroy_n, GetAddress. rewrite Hsz, Nat2Z.id, Hrun1.
  rewrite (RawMemory_dtor_frame w _ (data_ v) _ Hblk); [|done|]; cycle 1.
  { intros b Hb. by rewrite (ev_size _ _ _ Hev1). }
  eexists. split; [done|]. split_and!.
  - eapply changes_only_trans.
    + eapply evolves_changes_only; [exact Hev1|]. intros q b [Hq _] Hqb.
      unfold block_of. congruence.
    + apply changes_only_release. done.
  - done.
  - intros b Hb. simpl. by apply release_gone.
  - done.
Qed.

(** The members and body of the copy constructor. *)
Lemma Vector_copy_spec w v l :
  holds w v l →
  let nb := length (heap w) in
  ∃ o w', Vector_copy v w = (o, w') ∧
    changes_only (eq nb) w w' ∧
    match o with
    | Ok v' =>
        size_ v' = size_ v ∧ capacity_ (data_ v') = size_ v ∧
        (buffer_ (data_ v') = nullptr ∧ l = [] ∨ buffer_ (data_ v') = MkPtr (Some nb) 0) ∧
        holds w' v' l ∧
        log w' = rev (construct_events CopyCtor (buffer_ (data_ v'))
                        (buffer_ (data_ v)) 0 (length l)) ++ log w
    | Throw _ => block_size (heap w') nb = None ∧ balance w' = balance w
    | _ => False
    end ∧
    (fuse w = None → (size_ v ≤ alloc_limit w)%Z → ∃ v', o = Ok v').
Proof.
  intros Hh nb. pose proof Hh as [Hsz Hcap Hblk Hlive Hraw].
  set (buf := buffer_ (data_ v)) in *.
  pose proof (owns_block_fresh _ _ Hblk) as Hfresh. fold buf nb in Hfresh.
  unfold Vector_copy, bind.
  destruct (decide (size_ v = 0%Z)) as [Hz|Hnz].
  { (* nothing to copy, nothing allocated *)
    assert (l = []) as -> by (apply nil_length_inv; lia).
    unfold RawMemory_ctor, Allocate, bind. rewrite Hz. simpl.
    eexists _, _. split; [done|]. split; [apply changes_only_refl|]. split; [|eauto].
    simpl. split_and!; try done; [by left|].
    apply holds_intro; simpl; [done|lia|by left]. }
  pose proof (holds_max_slots _ _ _ Hh) as Hmax.
  rewrite RawMemory_ctor_spec; [|done|apply max_slots_fits; lia].
  destruct (size_ v <=? alloc_limit w)%Z eqn:Hlim; cycle 1.
  { eexists _, _. split; [done|]. split; [apply changes_only_refl|]. split.
    - split; [|done]. unfold block_size. by rewrite lookup_ge_None_2.
    - intros _ ?. apply Z.leb_gt in Hlim. lia. }
  set (w1 := set_heap _ w).
  assert (changes_only (eq nb) w w1) as Hco1 by (by apply changes_only_alloc).
  assert (elem_size w1 = elem_size w) as Helem1 by done.
  assert (block_size (heap w1) nb = Some (Z.to_nat (size_ v))) as Hnew_bs
    by (unfold w1, nb; simpl; by rewrite block_size_alloc_new, length_replicate).
  assert (∀ i, (0 ≤ i < size_ v)%Z → slot_at (heap w1) (MkPtr (Some nb) i) = Some Raw) as Hnew_raw
    by (intros; unfold w1, nb; simpl; apply slot_at_alloc_new; lia).
  assert (log w1 = log w) as Hlog1 by done.
  assert (fuse w1 = fuse w) as Hfuse1 by done.
  change (length (heap w)) with nb. clearbody w1 nb.
  set (d := MkPtr (Some nb) 0).
  assert (∀ i x, l !! i = Some x →
            slot_at (heap w1) (ptr_add buf (Z.of_nat i)) = Some (Live x)) as Hlive1.
  { intros i x Hx. destruct (p_block buf) as [b|] eqn:Hb.
    - rewrite (co_slot _ _ _ Hco1 _ b); [by apply Hlive|done|congruence].
    - pose proof (Hlive _ _ Hx) as Hs. unfold slot_at in Hs. simpl in Hs. by rewrite Hb in Hs. }
  destruct (uninit_loop_spec CopyCtor (λ x, x) copy_construct l buf d copy_construct_step
              copy_construct_fault
              ltac:(simpl; congruence) (length l) 0 w1) as (o & w2 & Hrun & Hpost).
  { intros; lia. }
  { intros i Hi. apply Hnew_raw. simpl. lia. }
  { intros i Hi. destruct (lookup_lt_is_Some_2 l i ltac:(lia)) as [x Hx]. eauto. }
  unfold unwinding, catch, uninitialized_copy_n, GetAddress. simpl. fold buf d.
  rewrite Hsz, Nat2Z.id, Hrun. simpl in Hpost. rewrite !ptr_add_0 in Hpost.
  destruct o as [[]|e| | |f]; try done.
  - destruct Hpost as (Hev2 & Hvals & Hl2).
    assert (changes_only (eq nb) w1 w2) as Hco2.
    { eapply changes_only_weaken.
      - apply (copy_leaves_source w1 w2 l buf d (length l) Hfresh (le_n _) Hev2 Hlive1).
        intros i x Hi Hx. apply Hvals; [lia|done].
      - unfold block_of, d. simpl. congruence. }
    eexists _, _. split; [done|]. split; [by eapply changes_only_trans|]. split; [|eauto].
    simpl. split_and!; try done; [by right| |by rewrite Hl2, Hlog1].
    split; simpl.
    + done.
    + lia.
    + right. exists nb. rewrite (ev_elem _ _ _ Hev2), Helem1.
      split_and!; simpl; [done|lia|lia|].
      rewrite (ev_size _ _ _ Hev2), Hnew_bs. by rewrite Hsz.
    + intros i x Hx. apply Hvals; [|done]. apply lookup_lt_Some in Hx. lia.
    + intros i Hi. lia.
  - destruct Hpost as (-> & Hf & _ & Hf2 & j & Hj & Hev2 & Hraw2 & Hsrc2 & Hl2).
    unfold bind, throw. rewrite (RawMemory_dtor_block _ _ nb); [|done|]; cycle 1.
    { simpl. rewrite (ev_size _ _ _ Hev2), Hnew_bs. eauto. }
    eexists _, _. split; [done|]. split_and!.
    + eapply changes_only_trans; [exact Hco1|]. eapply changes_only_trans.
      * eapply changes_only_weaken.
        -- apply (copy_leaves_source w1 w2 l buf d j Hfresh ltac:(lia) Hev2 Hlive1).
           intros i x Hi Hx. apply Hsrc2; [lia|done].
        -- unfold block_of, d. simpl. congruence.
      * apply changes_only_release. simpl. congruence.
    + simpl. by apply release_gone.
    + assert (balance w2 = balance w1) as Hb.
      { apply (balance_undone w1 w2 CopyCtor d buf j []); [done|]. by rewrite Hl2. }
      unfold balance in *. simpl. rewrite Hlog1 in Hb. done.
    + intros Hnone. destruct Hf. congruence.
Qed.

End DestroyAndCopy.

Section LifeCycle.
Context {T : Type} `{Elem T}.
Implicit Types (w : World T) (p q : Ptr) (v : Vector) (l : list T).

(** X1: the destructor destroys exactly the Size() elements, in order, releases
    the buffer and nothing else, and cannot fail. *)
Theorem dtor_destroys_every_element w this v l :
  objs w !! this = Some (Some v) → holds w v l →
  ∃ w', Vector_dtor this w = (Ok tt, w') ∧
        objs w' = <[this := None]> (objs w) ∧
        log w' = rev (destroy_events (begin_ v) 0 (length l)) ++ log w ∧
        balance w' = (balance w - Size v)%Z ∧
        live_elements w' = (live_elements w - Size v)%Z ∧
        (∀ b, p_block (begin_ v) = Some b → block_size (heap w') b = None) ∧
        (∀ q b, p_block q = Some b → p_block (begin_ v) ≠ Some b →
                slot_at (heap w') q = slot_at (heap w) q).
Proof.
  intros Hobj Hh.
  destruct (Vector_destroy_spec w v l Hh) as (w1 & Hrun1 & Hco & Hf & Hgone & Hl).
  unfold Vector_dtor, bind. rewrite (load_obj_ok _ _ _ Hobj), Hrun1.
  unfold kill_obj. rewrite (co_objs _ _ _ Hco), Hobj.
  eexists. split; [done|]. simpl. split_and!; try done.
  - transitivity (balance w1); [done|]. rewrite (balance_destroyed w w1 _ _ _ Hl).
    unfold Size. by rewrite (holds_size _ _ _ Hh).
  - rewrite (live_elements_kill _ _ _ _ Hobj). unfold live_elements. simpl. done.
  - intros q b Hq Hb. by apply (co_slot _ _ _ Hco q b).
Qed.

(** X2: the copy constructor makes a deep copy in storage of its own: the new
    Vector has the elements and the size of [other] and capacity equal to that
    size, and [other] is untouched.  When it throws, no object is created, the
    new block is released and every construction was undone. *)
Theorem copy_ctor_deep_copy w other v l :
  objs w !! other = Some (Some v) → holds w v l →
  ∃ o w', Vector_copy_ctor other w = (o, w') ∧
    holds w' v l ∧
    match o with
    | Ok a =>
        a = length (objs w) ∧ objs w' !! other = Some (Some v) ∧
        ∃ v', objs w' !! a = Some (Some v') ∧
              Size v' = Size v ∧ Capacity v' = Size v ∧ holds w' v' l ∧
              (l ≠ [] → p_block (begin_ v') ≠ p_block (begin_ v)) ∧
              balance w' = (balance w + Size v)%Z ∧
              live_elements w' = (live_elements w + Size v)%Z
    | Throw _ => objs w' = objs w ∧ balance w' = balance w
    | _ => False
    end ∧
    (fuse w = None → (Size v ≤ alloc_limit w)%Z → ∃ a, o = Ok a).
Proof.
  intros Hobj Hh. pose proof (lookup_lt_Some _ _ _ Hobj) as Hlt.
  destruct (Vector_copy_spec w v l Hh) as (o & w1 & Hrun & Hco & Hpost & Hret).
  pose proof (owns_block_fresh _ _ (holds_block _ _ _ Hh)) as Hfresh.
  assert (holds w1 v l) as Hh1.
  { eapply holds_preserved; [exact Hh|exact Hco|]. intros b Hb <-. congruence. }
  unfold Vector_copy_ctor, bind. rewrite (load_obj_ok _ _ _ Hobj), Hrun.
  destruct o as [v'|e| | |f]; try done.
  - destruct Hpost as (Hsz' & Hcap' & Hbuf' & Hh' & Hl').
    eexists _, _. split; [done|]. simpl. split_and!.
    + eapply holds_frame; [exact Hh1|solve_elem|..]; done.
    + by rewrite (co_objs _ _ _ Hco).
    + rewrite (co_objs _ _ _ Hco). by rewrite lookup_app_l.
    + exists v'. split_and!; try done.
      * rewrite (co_objs _ _ _ Hco). by rewrite lookup_app_r, Nat.sub_diag by lia.
      * eapply holds_frame; [exact Hh'|solve_elem|..]; done.
      * intros Hne. destruct Hbuf' as [[_ ->]|Hb']; [done|].
        unfold begin_, GetAddress. rewrite Hb'. simpl. congruence.
      * transitivity (balance w1); [done|]. rewrite (balance_constructed w w1 _ _ _ _ Hl').
        unfold Size. by rewrite (holds_size _ _ _ Hh).
      * rewrite live_elements_new, (co_objs _ _ _ Hco). unfold live_elements, Size. simpl.
        by rewrite Hsz'.
    + intros Hf Hlim. eauto.
  - destruct Hpost as [_ Hbal].
    eexists _, _. split; [done|]. split_and!; try done.
    + apply Hco.
    + intros Hf Hlim. destruct (Hret Hf Hlim) as [? [=]].
Qed.

End LifeCycle.

Section CopyAssignment.
Context {T : Type} `{Elem T}.
Implicit Types (w : World T) (p q : Ptr) (v : Vector) (l : list T).

(** X3: Copy assignment from a right-hand side that does not fit the capacity:
    copy and swap.  On return the target is a fresh deep copy of [rhs] with
    capacity [rhs.Size()], its former elements are destroyed and its former
    block released; when the copy throws, both Vectors are as before. *)
Theorem copy_assign_reallocates w a b va vb la lb :
  a ≠ b → objs w !! a = Some (Some va) → objs w !! b = Some (Some vb) →
  holds w va la → holds w vb lb →
  p_block (begin_ va) ≠ p_block (begin_ vb) →
  (Capacity va < Size vb)%Z →
  ∃ o w', Vector_copy_assign a b w = (o, w') ∧
    holds w' vb lb ∧ objs w' !! b = Some (Some vb) ∧
    match o with
    | Ok _ =>
        ∃ va', objs w' !! a = Some (Some va') ∧ holds w' va' lb ∧
               Capacity va' = Size vb ∧
               p_block (begin_ va') ≠ p_block (begin_ vb) ∧
               (∀ b0, p_block (begin_ va) = Some b0 → block_size (heap w') b0 = None) ∧
               balance w' = (balance w + Size vb - Size va)%Z
    | Throw _ => objs w' = objs w ∧ holds w' va la ∧ balance w' = balance w
    | _ => False
    end ∧
    (fuse w = None → (Size vb ≤ alloc_limit w)%Z → o = Ok tt).
Proof.
  intros Hne Ha Hb Hha Hhb Hblk Hgrow.
  pose proof (lookup_lt_Some _ _ _ Ha) as Hlta.
  pose proof (owns_block_fresh _ _ (holds_block _ _ _ Hha)) as Hfresha.
  pose proof (owns_block_fresh _ _ (holds_block _ _ _ Hhb)) as Hfreshb.
  destruct (Vector_copy_spec w vb lb Hhb) as (o & w1 & Hrun & Hco & Hpost & Hret).
  assert (holds w1 va la) as Hha1.
  { eapply holds_preserved; [exact Hha|exact Hco|]. intros b0 Hb0 <-. congruence. }
  assert (holds w1 vb lb) as Hhb1.
  { eapply holds_preserved; [exact Hhb|exact Hco|]. intros b0 Hb0 <-. congruence. }
  unfold Vector_copy_assign, bind. rewrite bool_decide_true by done.
  rewrite (load_obj_ok _ _ _ Ha), (load_obj_ok _ _ _ Hb).
  rewrite (proj2 (Z.gtb_lt _ _)) by done. rewrite Hrun.
  destruct o as [temp|e| | |f]; try done.
  2:{ destruct Hpost as [_ Hbal]. eexists _, _. split; [done|]. split_and!; try done.
      - by rewrite (co_objs _ _ _ Hco).
      - apply Hco.
      - intros Hf Hlim. destruct (Hret Hf Hlim) as [? [=]]. }
  destruct Hpost as (Hsz' & Hcap' & Hbuf' & Hh' & Hl').
  assert (lb ≠ []) as Hnonempty.
  { intros ->. pose proof (holds_size _ _ _ Hhb) as Hs. pose proof (holds_capacity _ _ _ Hha).
    pose proof (holds_size _ _ _ Hha). unfold Size, Capacity, RawMemory_Capacity in Hgrow.
    simpl in Hs. lia. }
  assert (buffer_ (data_ temp) = MkPtr (Some (length (heap w))) 0) as Hbuf
    by (destruct Hbuf' as [[_ ?]|?]; done).
  erewrite store_obj_ok by (rewrite (co_objs _ _ _ Hco); done).
  set (w2 := set_objs _ w1).
  assert (holds w2 va la) as Hha2 by (eapply holds_frame; [exact Hha1|solve_elem|..]; done).
  destruct (Vector_destroy_spec w2 va la Hha2) as (w3 & Hrun3 & Hco3 & Hf3 & Hgone & Hl3).
  rewrite Hrun3. eexists _, _. split; [done|].
  assert (objs w3 = <[a := Some temp]> (objs w)) as Hobjs
    by (rewrite (co_objs _ _ _ Hco3); unfold w2; simpl; by rewrite (co_objs _ _ _ Hco)).
  assert (∀ v l, holds w1 v l → p_block (buffer_ (data_ v)) ≠ p_block (buffer_ (data_ va)) →
                 holds w3 v l) as Hkeep.
  { intros v l Hv Hbv. eapply holds_preserved; [|exact Hco3|].
    - eapply holds_frame; [exact Hv|solve_elem|..]; done.
    - unfold block_of. intros b0 Hb0 Hb1. congruence. }
  split_and!.
  - apply Hkeep; [done|]. unfold begin_, GetAddress in Hblk. congruence.
  - rewrite Hobjs. by rewrite list_lookup_insert_ne.
  - exists temp. split_and!.
    + rewrite Hobjs. by apply list_lookup_insert_eq.
    + apply Hkeep; [done|]. rewrite Hbuf. simpl. congruence.
    + done.
    + unfold begin_, GetAddress. rewrite Hbuf. simpl. congruence.
    + done.
    + rewrite (balance_destroyed w2 w3 _ _ _ Hl3).
      transitivity (balance w1 - Z.of_nat (length la))%Z; [done|].
      rewrite (balance_constructed w w1 _ _ _ _ Hl'). unfold Size.
      rewrite (holds_size _ _ _ Hha), (holds_size _ _ _ Hhb). lia.
  - done.
Qed.

Lemma copy_assign_elem_balance dst src w o w' :
  copy_assign dst src w = (o, w') → balance w' = balance w.
Proof.
  unfold copy_assign, bind, read, assign_at, bind, tick. intros Hrun.
  repeat case_match; simplify_eq; done.
Qed.

Lemma assign_loop_balance (d s : RawMemory) n : ∀ i w o w',
  assign_loop d s i n w = (o, w') → balance w' = balance w.
Proof.
  induction n as [|n IH]; intros i w o w' Hrun; simpl in Hrun.
  - by injection Hrun as _ <-.
  - cbv [bind RawMemory_index assert ret] in Hrun.
    destruct (i <? capacity_ s)%Z; [|by injection Hrun as _ <-].
    destruct (i <? capacity_ d)%Z; [|by injection Hrun as _ <-].
    cbn beta iota in Hrun.
    destruct (copy_assign (ptr_add (buffer_ d) i) (ptr_add (buffer_ s) i) w)
      as [o1 w1] eqn:Hstep.
    apply copy_assign_elem_balance in Hstep.
    destruct o1; try (injection Hrun as _ <-; done).
    apply IH in Hrun. congruence.
Qed.

Lemma copy_assign_elem_log dst src w w' :
  copy_assign dst src w = (Ok tt, w') →
  log w' = EvAssign CopyAssign (Some dst) (Some src) :: log w.
Proof.
  unfold copy_assign, bind, read, assign_at, bind, tick. intros Hrun.
  repeat case_match; simplify_eq; done.
Qed.

(** The assignment loop logs one copy assignment for each index, in order. *)
Lemma assign_loop_log (d s : RawMemory) n : ∀ (k : nat) w r w',
  (Z.of_nat (k + n) < 2 ^ 64)%Z →
  assign_loop d s (Z.of_nat k) n w = (Ok r, w') →
  log w' = rev (copy_assign_events (buffer_ d) (buffer_ s) k n) ++ log w.
Proof.
  induction n as [|n IH]; intros k w r w' Hk Hrun; simpl in Hrun.
  - by injection Hrun as _ <-.
  - cbv [bind RawMemory_index assert ret] in Hrun.
    destruct (Z.of_nat k <? capacity_ s)%Z; [|done].
    destruct (Z.of_nat k <? capacity_ d)%Z; [|done].
    cbn beta iota in Hrun.
    destruct (copy_assign (ptr_add (buffer_ d) (Z.of_nat k))
                (ptr_add (buffer_ s) (Z.of_nat k)) w) as [o1 w1] eqn:Hstep.
    destruct o1 as [[]| | | |]; try done.
    apply copy_assign_elem_log in Hstep.
    rewrite wrap_small in Hrun by lia.
    replace (Z.of_nat k + 1)%Z with (Z.of_nat (S k)) in Hrun by lia.
    apply IH in Hrun; [|lia]. rewrite Hrun, Hstep.
    unfold copy_assign_events. cbn [seq map rev]. by rewrite <- app_assoc.
Qed.

(** X4: Copy assignment from a right-hand side that is not longer than the
    target, when no element operation throws: the storage is reused, the first
    [rhs.Size()] elements are copy-assigned from those of [rhs], one by one
    and in order, then the surplus elements are destroyed, and nothing else
    runs; the target equals [rhs] with its capacity unchanged.  The two
    Vectors own different blocks, or are both without one. *)
Theorem copy_assign_not_longer w a b va vb la lb :
  a ≠ b → objs w !! a = Some (Some va) → objs w !! b = Some (Some vb) →
  holds w va la → holds w vb lb →
  separate va vb →
  fuse w = None →
  (length lb ≤ length la)%nat →
  let va' := MkVector (data_ va) (size_ vb) in
  ∃ w', Vector_copy_assign a b w = (Ok tt, w') ∧
        objs w' = <[a := Some va']> (objs w) ∧
        holds w' va' lb ∧ holds w' vb lb ∧
        log w' = rev (destroy_events (ptr_add (begin_ va) (Size vb)) 0
                        (length la - length lb)) ++
                 rev (copy_assign_events (begin_ va) (begin_ vb) 0 (length lb)) ++
                 log w ∧
        balance w' = (balance w - (Size va - Size vb))%Z.
Proof.
  intros Hne Ha Hb Hha Hhb Hsep Hf Hle va'. subst va'.
  pose proof Hha as [Hsza Hcapa Hblka Hlivea Hrawa].
  pose proof Hhb as [Hszb Hcapb Hblkb Hliveb Hrawb].
  unfold begin_, GetAddress, Size.
  destruct (decide (p_block (buffer_ (data_ va)) = p_block (buffer_ (data_ vb))))
    as [Hsame|Hblk].
  { (* no block at all: both Vectors are empty *)
    specialize (Hsep Hsame).
    assert (capacity_ (data_ va) = 0%Z) as Hca.
    { destruct Hblka as [[_ ?]|(b0 & Hb0 & _)]; [done|]. rewrite Hb0 in Hsep. done. }
    assert (capacity_ (data_ vb) = 0%Z) as Hcb.
    { destruct Hblkb as [[_ ?]|(b0 & Hb0 & _)]; [done|]. rewrite Hb0 in Hsame.
      simpl in Hsame. congruence. }
    assert (size_ va = 0%Z) as Hza by lia. assert (size_ vb = 0%Z) as Hzb by lia.
    assert (la = []) as -> by (apply nil_length_inv; lia).
    assert (lb = []) as -> by (apply nil_length_inv; lia).
    unfold Vector_copy_assign, bind. rewrite bool_decide_true by done.
    rewrite (load_obj_ok _ _ _ Ha), (load_obj_ok _ _ _ Hb).
    unfold Capacity, RawMemory_Capacity. rewrite Hza, Hzb, Hca. simpl.
    unfold ret. erewrite store_obj_ok by done.
    eexists. split; [done|]. simpl. split; [done|].
    assert (MkVector (data_ va) 0 = va) as -> by (destruct va; simpl in *; by subst).
    split_and!.
    - eapply holds_frame; [exact Hha|done..].
    - eapply holds_frame; [exact Hhb|done..].
    - done.
    - unfold balance. simpl. lia. }
  set (n := length la) in *. set (rn := length lb) in *.
  set (bufa := buffer_ (data_ va)) in *. set (bufb := buffer_ (data_ vb)) in *.
  unfold Vector_copy_assign, bind. rewrite bool_decide_true by done.
  rewrite (load_obj_ok _ _ _ Ha), (load_obj_ok _ _ _ Hb).
  unfold Capacity, RawMemory_Capacity.
  destruct (size_ vb >? capacity_ (data_ va))%Z eqn:Hgt; [apply Z.gtb_lt in Hgt; lia|].
  destruct (assign_loop_spec lb (data_ va) (data_ vb) rn 0 w) as (w1 & Hrun1 & Hev1 & Hvals1 & Hf1);
    try done; try lia.
  { intros j Hj. destruct (lookup_lt_is_Some_2 la j ltac:(lia)) as [x Hx]. eauto. }
  { intros j Hj. destruct (lookup_lt_is_Some_2 lb j ltac:(lia)) as [y Hy]. eauto. }
  pose proof (assign_loop_log (data_ va) (data_ vb) rn 0 w _ w1 ltac:(lia) Hrun1) as Hl1.
  fold bufa bufb in Hl1.
  change (Z.of_nat 0) with 0%Z in Hrun1. simpl in Hev1. rewrite ptr_add_0 in Hev1.
  fold bufa in Hev1, Hvals1.
  pose proof (assign_loop_balance _ _ _ _ _ _ _ Hrun1) as Hbal1.
  assert (∀ w2, elem_size w2 = elem_size w →
            (∀ b0, block_size (heap w2) b0 = block_size (heap w) b0) →
            (∀ q, p_block q ≠ p_block bufa → slot_at (heap w2) q = slot_at (heap w) q) →
            holds w2 vb lb) as Hkeepb.
  { intros w2 He Hbs Hfr. eapply holds_frame; [exact Hhb|done|..]; fold bufb; [auto|].
    intros q Hq. apply Hfr. congruence. }
  destruct (size_ vb <? size_ va)%Z eqn:Hlt.
  - (* shorter: destroy the surplus *)
    apply Z.ltb_lt in Hlt.
    destruct (destroy_loop_spec (n - rn) (ptr_add bufa (Z.of_nat rn)) w1)
      as (w2 & Hrun2 & Hev2 & Hraw2 & Hf2 & Hl2).
    { intros i Hi. destruct (lookup_lt_is_Some_2 la (rn + i) ltac:(lia)) as [x Hx].
      exists x. rewrite ptr_add_add, (ev_frame _ _ _ Hev1).
      - replace (Z.of_nat rn + Z.of_nat i)%Z with (Z.of_nat (rn + i)) by lia. by apply Hlivea.
      - unfold in_range. simpl. lia. }
    rewrite Hszb, Nat2Z.id, Hrun1. unfold destroy_n, GetAddress. fold bufa.
    replace (Z.to_nat (wrap (size_ va - Z.of_nat rn))) with (n - rn)%nat
      by (rewrite wrap_small; lia).
    rewrite Hrun2.
    assert (objs w2 = objs w) as Hobjs
      by (by rewrite (ev_objs _ _ _ Hev2), (ev_objs _ _ _ Hev1)).
    erewrite store_obj_ok by (rewrite Hobjs; done).
    eexists. split; [done|]. simpl. split; [by rewrite Hobjs|].
    assert (∀ b0, block_size (heap w2) b0 = block_size (heap w) b0) as Hbs
      by (intros; by rewrite (ev_size _ _ _ Hev2), (ev_size _ _ _ Hev1)).
    split_and!.
    + split; simpl; fold bufa.
      * done.
      * lia.
      * apply (owns_block_frame w); [done|solve_elem|]. intros b0 Hb0. by rewrite Hbs.
      * intros j y Hy. pose proof (lookup_lt_Some _ _ _ Hy).
        rewrite (ev_frame _ _ _ Hev2).
        -- apply Hvals1; [lia|done].
        -- unfold in_range. simpl. lia.
      * intros z Hz. destruct (decide (z < size_ va)%Z) as [Hin|Hout].
        -- specialize (Hraw2 (Z.to_nat (z - Z.of_nat rn)) ltac:(lia)).
           rewrite ptr_add_add in Hraw2. rewrite <- Hraw2. do 2 f_equal. lia.
        -- rewrite (ev_frame _ _ _ Hev2), (ev_frame _ _ _ Hev1).
           ++ apply Hrawa. lia.
           ++ unfold in_range. simpl. lia.
           ++ unfold in_range. simpl. lia.
    + apply Hkeepb; [solve_elem|done|]. intros q Hq.
      rewrite (ev_frame _ _ _ Hev2), (ev_frame _ _ _ Hev1); [done|..];
        unfold in_range; simpl; intros [? _]; congruence.
    + by rewrite Hl2, Hl1.
    + transitivity (balance w2); [done|]. rewrite (balance_destroyed w1 w2 _ _ _ Hl2). lia.
  - (* the same length: nothing to destroy, nothing to construct *)
    apply Z.ltb_ge in Hlt. assert (rn = n) as Hsame by lia.
    rewrite Hsza, Nat2Z.id. fold n. rewrite <- Hsame, Hrun1.
    unfold uninitialized_copy_n. rewrite Hszb.
    replace (Z.to_nat (wrap (Z.of_nat rn - Z.of_nat rn))) with 0%nat
      by (rewrite Z.sub_diag; done).
    simpl. unfold ret.
    assert (objs w1 = objs w) as Hobjs by apply (ev_objs _ _ _ Hev1).
    erewrite store_obj_ok by (rewrite Hobjs; done).
    eexists. split; [done|]. simpl. split; [by rewrite Hobjs|].
    split_and!.
    + split; simpl; fold bufa.
      * done.
      * lia.
      * apply (owns_block_frame w); [done|solve_elem|].
        intros b0 Hb0. by rewrite (ev_size _ _ _ Hev1).
      * intros j y Hy. pose proof (lookup_lt_Some _ _ _ Hy). apply Hvals1; [lia|done].
      * intros z Hz. rewrite (ev_frame _ _ _ Hev1).
        -- apply Hrawa. lia.
        -- unfold in_range. simpl. lia.
    + apply Hkeepb; [solve_elem|apply (ev_size _ _ _ Hev1)|]. intros q Hq.
      rewrite (ev_frame _ _ _ Hev1); [done|]. unfold in_range. intros [? _]. congruence.
    + rewrite Hl1, Nat.sub_diag. done.
    + transitivity (balance w1); [done|]. lia.
Qed.

End CopyAssignment.

(** ** PopBack, operator[], Swap and the move assignment *)

Section SimpleOperations.
Context {T : Type} `{Elem T}.
Implicit Types (w : World T) (p q : Ptr) (v : Vector) (l : list T).
Local Open Scope Z_scope.

Lemma set_objs_same w : set_objs (objs w) w = w.
Proof. by destruct w. Qed.

Lemma live_elements_objs w w' : objs w' = objs w → live_elements w' = live_elements w.
Proof. unfold live_elements. by intros ->. Qed.

Lemma contents_same_heap w w' v : heap w' = heap w → contents w' v = contents w v.
Proof. unfold contents, element. by intros ->. Qed.

Lemma Vector_eta v : MkVector (MkRawMemory (buffer_ (data_ v)) (capacity_ (data_ v))) (size_ v) = v.
Proof. by destruct v as [[] ?]. Qed.

(** PopBack on a Vector that is not empty. *)
Lemma PopBack_spec w this v l x :
  objs w !! this = Some (Some v) → holds w v (l ++ [x]) →
  let last := ptr_add (begin_ v) (Size v - 1) in
  let v' := MkVector (data_ v) (Size v - 1) in
  ∃ w', Vector_PopBack this w = (Ok tt, w') ∧
        objs w' = <[this := Some v']> (objs w) ∧
        holds w' v' l ∧
        slot_at (heap w) last = Some (Live x) ∧
        slot_at (heap w') last = Some Raw ∧
        (∀ q, q ≠ last → slot_at (heap w') q = slot_at (heap w) q) ∧
        log w' = EvDestroy (Some last) :: log w ∧
        fuse w' = fuse w.
Proof.
  intros Hobj Hh last v'. subst last v'.
  pose proof Hh as [Hsz Hcap Hblk Hlive Hraw].
  rewrite length_app in Hsz. simpl in Hsz.
  unfold begin_, GetAddress, Size.
  set (buf := buffer_ (data_ v)) in *.
  assert (slot_at (heap w) (ptr_add buf (size_ v - 1)) = Some (Live x)) as Hlast.
  { replace (size_ v - 1) with (Z.of_nat (length l)) by lia.
    apply Hlive. by rewrite lookup_app_r, Nat.sub_diag by lia. }
  destruct (destroy_at_spec _ _ _ Hlast) as (w1 & Hrun & Hev & Hnow & Hf & Hlog).
  unfold Vector_PopBack, noexcept, bind. rewrite (load_obj_ok _ _ _ Hobj).
  rewrite bool_decide_false by lia. simpl.
  rewrite wrap_small by lia. unfold destroy_n, GetAddress. fold buf.
  simpl. unfold bind. rewrite Hrun. unfold ret.
  assert (objs w1 = objs w) as Hobjs by apply (ev_objs _ _ _ Hev).
  erewrite store_obj_ok by (rewrite Hobjs; done).
  eexists. split; [done|]. simpl. rewrite Hobjs. split_and!; try done.
  - split; simpl; fold buf.
    + lia.
    + lia.
    + apply (owns_block_frame w); [done|solve_elem|]. intros b Hb.
      by rewrite (ev_size _ _ _ Hev).
    + intros i y Hy. pose proof (lookup_lt_Some _ _ _ Hy).
      rewrite (ev_frame _ _ _ Hev).
      * apply Hlive. by apply lookup_app_l_Some.
      * by_offset.
    + intros i Hi. destruct (decide (i = size_ v - 1)) as [->|Hne]; [done|].
      rewrite (ev_frame _ _ _ Hev); [apply Hraw; lia|by_offset].
  - intros q Hq. apply (ev_frame _ _ _ Hev). congruence.
Qed.

(** X5: PopBack on a Vector that holds [l ++ [x]] destroys exactly the last
    element and leaves the Vector holding [l], in the same buffer with the
    same capacity; no other slot changes and nothing can fail. *)
Theorem PopBack_removes_last w this v l x :
  objs w !! this = Some (Some v) → holds w v (l ++ [x]) →
  let last := ptr_add (end_ v) (-1) in
  ∃ w' v', Vector_PopBack this w = (Ok tt, w') ∧
        objs w' = <[this := Some v']> (objs w) ∧
        Size v' = Size v - 1 ∧ Capacity v' = Capacity v ∧ begin_ v' = begin_ v ∧
        holds w' v' l ∧ contents w' v' = Some l ∧
        read last w = (Ok x, w) ∧
        slot_at (heap w') last = Some Raw ∧
        (∀ q, q ≠ last → slot_at (heap w') q = slot_at (heap w) q) ∧
        log w' = EvDestroy (Some last) :: log w ∧
        balance w' = balance w - 1 ∧
        live_elements w' = live_elements w - 1.
Proof.
  intros Hobj Hh last.
  destruct (PopBack_spec w this v l x Hobj Hh)
    as (w' & Hrun & Hobjs & Hh' & Hx & Hraw & Hfr & Hl & Hf).
  assert (last = ptr_add (begin_ v) (Size v - 1)) as Hlast.
  { unfold last, end_, begin_, Size. rewrite ptr_add_add. f_equal. }
  rewrite <- Hlast in *.
  exists w', (MkVector (data_ v) (Size v - 1)). split_and!; try done.
  - by apply holds_contents.
  - by apply read_live.
  - unfold balance, ctor_count, dtor_count. rewrite Hl. simpl. lia.
  - unfold live_elements. rewrite Hobjs.
    pose proof (live_elements_insert (objs w) this v (MkVector (data_ v) (Size v - 1)) w Hobj)
      as Hle.
    unfold live_elements in Hle. simpl in Hle. rewrite Hle. unfold Size. lia.
Qed.

(** X6: PopBack on an empty Vector fails its assertion and changes nothing. *)
Theorem PopBack_on_empty_fails_assertion w this v :
  objs w !! this = Some (Some v) → Size v = 0 →
  Vector_PopBack this w = (AssertFail, w).
Proof.
  intros Hobj Hsz. unfold Vector_PopBack, noexcept, bind.
  rewrite (load_obj_ok _ _ _ Hobj). unfold Size in Hsz.
  by rewrite bool_decide_true by done.
Qed.

(** X7: operator[] returns the address of element [i] when [i < Size()],
    where the element can be read, and fails the assertion for every other
    index, also for an index below the capacity; it never changes the world. *)
Theorem index_checks_size w this v l (i : Z) :
  objs w !! this = Some (Some v) → holds w v l → 0 ≤ i →
  (i < Size v →
   ∃ x, l !! Z.to_nat i = Some x ∧
        Vector_index this i w = (Ok (ptr_add (begin_ v) i), w) ∧
        read (ptr_add (begin_ v) i) w = (Ok x, w)) ∧
  (Size v ≤ i → Vector_index this i w = (AssertFail, w)).
Proof.
  intros Hobj [Hsz Hcap Hblk Hlive Hraw] Hi. unfold Size, begin_, GetAddress.
  unfold Vector_index, bind. rewrite (load_obj_ok _ _ _ Hobj). split.
  - intros Hlt. destruct (lookup_lt_is_Some_2 l (Z.to_nat i) ltac:(lia)) as [x Hx].
    exists x. split; [done|].
    assert ((i <? size_ v) = true) as -> by (apply Z.ltb_lt; lia). simpl.
    unfold RawMemory_index, bind.
    assert ((i <? capacity_ (data_ v)) = true) as -> by (apply Z.ltb_lt; lia). simpl.
    split; [done|]. apply read_live. specialize (Hlive _ _ Hx).
    by rewrite Z2Nat.id in Hlive by lia.
  - intros Hge. by assert ((i <? size_ v) = false) as -> by (apply Z.ltb_ge; lia).
Qed.

(** X8: Swap exchanges the two Vectors' buffers and sizes and runs no
    element operation: the heap and the log are unchanged and each Vector has
    the other's elements. *)
Theorem Swap_exchanges w a b va vb :
  a ≠ b → objs w !! a = Some (Some va) → objs w !! b = Some (Some vb) →
  ∃ w', Vector_Swap a b w = (Ok tt, w') ∧
        objs w' = <[b := Some va]> (<[a := Some vb]> (objs w)) ∧
        heap w' = heap w ∧ log w' = log w ∧ fuse w' = fuse w ∧
        contents_at w' a = contents_at w b ∧
        contents_at w' b = contents_at w a ∧
        live_elements w' = live_elements w.
Proof.
  intros Hne Ha Hb. unfold Vector_Swap, noexcept, bind.
  rewrite (load_obj_ok _ _ _ Ha), (load_obj_ok _ _ _ Hb). simpl.
  rewrite (store_obj_ok _ _ _ _ Ha). simpl.
  erewrite store_obj_ok by (simpl; rewrite list_lookup_insert_ne by done; exact Hb).
  rewrite !Vector_eta. simpl.
  eexists. split; [done|]. simpl. split_and!; try done.
  - unfold contents_at at 1. simpl.
    rewrite list_lookup_insert_ne, list_lookup_insert_eq by (done || by eapply lookup_lt_Some).
    unfold contents_at. by rewrite Hb.
  - unfold contents_at at 1. simpl.
    rewrite list_lookup_insert_eq
      by (rewrite length_insert; by eapply lookup_lt_Some).
    unfold contents_at. by rewrite Ha.
  - erewrite (live_elements_insert _ b vb va)
      by (rewrite list_lookup_insert_ne by done; exact Hb).
    rewrite (live_elements_insert _ a va vb) by done.
    rewrite (live_elements_objs w) by done. lia.
Qed.

(** X9: Swap is an involution (also on one and the same Vector) and is
    symmetric in its two operands. *)
Theorem Swap_twice_restores w a b va vb :
  objs w !! a = Some (Some va) → objs w !! b = Some (Some vb) →
  (Vector_Swap a b;; Vector_Swap a b) w = (Ok tt, w) ∧
  Vector_Swap a b w = Vector_Swap b a w.
Proof.
  intros Ha Hb.
  pose proof (lookup_lt_Some _ _ _ Ha) as Hla.
  pose proof (lookup_lt_Some _ _ _ Hb) as Hlb.
  assert (Vector_Swap a b w =
            (Ok tt, set_objs (<[b := Some va]> (<[a := Some vb]> (objs w))) w)) as Hab.
  { unfold Vector_Swap, noexcept, bind.
    rewrite (load_obj_ok _ _ _ Ha), (load_obj_ok _ _ _ Hb). simpl.
    rewrite (store_obj_ok _ _ _ _ Ha). simpl.
    destruct (decide (a = b)) as [->|Hne].
    - erewrite store_obj_ok by (simpl; by apply list_lookup_insert_eq).
      by rewrite !Vector_eta.
    - erewrite store_obj_ok by (simpl; rewrite list_lookup_insert_ne by done; exact Hb).
      by rewrite !Vector_eta. }
  assert (Vector_Swap b a w =
            (Ok tt, set_objs (<[a := Some vb]> (<[b := Some va]> (objs w))) w)) as Hba.
  { unfold Vector_Swap, noexcept, bind.
    rewrite (load_obj_ok _ _ _ Hb), (load_obj_ok _ _ _ Ha). simpl.
    rewrite (store_obj_ok _ _ _ _ Hb). simpl.
    destruct (decide (a = b)) as [->|Hne].
    - erewrite store_obj_ok by (simpl; by apply list_lookup_insert_eq).
      by rewrite !Vector_eta.
    - erewrite store_obj_ok by (simpl; rewrite list_lookup_insert_ne by done; exact Ha).
      by rewrite !Vector_eta. }
  split.
  - unfold bind at 1. rewrite Hab.
    set (w1 := set_objs _ w).
    destruct (decide (a = b)) as [->|Hne].
    + assert (va = vb) as -> by congruence.
      assert (w1 = w) as ->.
      { unfold w1. rewrite list_insert_insert_eq, list_insert_id by done.
        apply set_objs_same. }
      rewrite Hab. rewrite list_insert_insert_eq, list_insert_id by done.
      by rewrite set_objs_same.
    + unfold Vector_Swap, noexcept, bind.
      assert (objs w1 !! a = Some (Some vb)) as Ha1.
      { unfold w1. simpl. rewrite list_lookup_insert_ne by done.
        by apply list_lookup_insert_eq. }
      assert (objs w1 !! b = Some (Some va)) as Hb1.
      { unfold w1. simpl. apply list_lookup_insert_eq. by rewrite length_insert. }
      rewrite (load_obj_ok _ _ _ Ha1), (load_obj_ok _ _ _ Hb1). simpl.
      rewrite (store_obj_ok _ _ _ _ Ha1). simpl.
      erewrite store_obj_ok by (simpl; rewrite list_lookup_insert_ne by done; exact Hb1).
      rewrite !Vector_eta. f_equal. unfold w1, set_objs. simpl.
      destruct w as [h os f lim lg]. simpl in *. f_equal.
      rewrite (list_insert_insert_ne _ a b) by done.
      rewrite !list_insert_insert_eq.
      rewrite (list_insert_id _ a) by done.
      by rewrite list_insert_id.
  - rewrite Hab, Hba. destruct (decide (a = b)) as [->|Hne].
    + assert (va = vb) as -> by congruence. done.
    + by rewrite (list_insert_insert_ne _ a b).
Qed.

(** X10: the move assignment to another Vector hands the buffer and size of
    [rhs] to the target and the target's buffer to [rhs] with size 0; no
    element operation runs, so the target's former elements stay alive in the
    buffer [rhs] now owns and fall out of the count of live elements. *)
Theorem move_assign_transfers w a b va vb la lb :
  a ≠ b → objs w !! a = Some (Some va) → objs w !! b = Some (Some vb) →
  holds w va la → holds w vb lb →
  let vb' := MkVector (data_ va) 0 in
  ∃ w', Vector_move_assign a b w = (Ok tt, w') ∧
        objs w' = <[a := Some vb]> (<[b := Some vb']> (objs w)) ∧
        heap w' = heap w ∧ log w' = log w ∧
        holds w' vb lb ∧
        contents_at w' a = Some lb ∧ contents_at w' b = Some [] ∧
        (∀ i x, la !! i = Some x →
           slot_at (heap w') (ptr_add (begin_ vb') (Z.of_nat i)) = Some (Live x)) ∧
        balance w' = balance w ∧
        live_elements w' = live_elements w - Size va.
Proof.
  intros Hne Ha Hb Hha Hhb vb'. subst vb'.
  unfold Vector_move_assign, noexcept, bind. rewrite bool_decide_true by done.
  rewrite (load_obj_ok _ _ _ Ha), (load_obj_ok _ _ _ Hb). simpl.
  rewrite (store_obj_ok _ _ _ _ Hb). simpl.
  erewrite store_obj_ok by (simpl; rewrite list_lookup_insert_ne by done; exact Ha).
  rewrite Vector_eta.
  assert (MkRawMemory (buffer_ (data_ va)) (capacity_ (data_ va)) = data_ va) as ->
    by (by destruct (data_ va)).
  pose proof (lookup_lt_Some _ _ _ Ha). pose proof (lookup_lt_Some _ _ _ Hb).
  eexists. split; [done|]. simpl. split_and!; try done.
  - eapply holds_frame; [exact Hhb|solve_elem|done..].
  - unfold contents_at. simpl.
    rewrite list_lookup_insert_eq by (by rewrite length_insert).
    rewrite <- (holds_contents _ _ _ Hhb). by apply contents_same_heap.
  - unfold contents_at. simpl.
    rewrite list_lookup_insert_ne, list_lookup_insert_eq by done. done.
  - intros i x Hx. unfold begin_, GetAddress. simpl. by apply (holds_live _ _ _ Hha).
  - erewrite (live_elements_insert _ a va vb)
      by (rewrite list_lookup_insert_ne by done; exact Ha).
    rewrite (live_elements_insert _ b vb (MkVector (data_ va) 0)) by done.
    rewrite (live_elements_objs w) by done. unfold Size. simpl. lia.
Qed.

End SimpleOperations.

(** ** The allocator's limit and the fuse *)

Section EnvironmentLemmas.
Context {T : Type} `{Elem T}.
Implicit Types (w : World T) (p q : Ptr) (v : Vector) (l : list T).

Lemma keeps_env_ret {A} (a : A) : keeps_env (T:=T) (@ret T A a).
Proof. intros w o w' [= <- <-]. done. Qed.

Lemma keeps_env_throw {A} e : keeps_env (T:=T) (@throw T A e).
Proof. intros w o w' [= <- <-]. done. Qed.

Lemma keeps_env_undefined {A} f : keeps_env (T:=T) (@undefined T A f).
Proof. intros w o w' [= <- <-]. done. Qed.

Lemma keeps_env_assert c : keeps_env (T:=T) (@assert T c).
Proof. intros w o w'. unfold assert. destruct c; intros [= <- <-]; done. Qed.

Lemma keeps_env_bind {A B} (m : M T A) (k : A → M T B) :
  keeps_env m → (∀ a, keeps_env (T:=T) (k a)) → keeps_env (T:=T) (bind m k).
Proof.
  intros Hm Hk w o w'. unfold bind. destruct (m w) as [oa w1] eqn:Hrun.
  destruct (Hm _ _ _ Hrun) as [Hl Hf].
  destruct oa as [a|e| | |f]; try (intros [= <- <-]; done).
  intros Hrun2. destruct (Hk a _ _ _ Hrun2) as [Hl2 Hf2].
  split; [congruence|auto].
Qed.

Lemma keeps_env_catch {A} (m : M T A) (h : exn → M T A) :
  keeps_env m → (∀ e, keeps_env (T:=T) (h e)) → keeps_env (T:=T) (catch m h).
Proof.
  intros Hm Hh w o w'. unfold catch. destruct (m w) as [oa w1] eqn:Hrun.
  destruct (Hm _ _ _ Hrun) as [Hl Hf].
  destruct oa as [a|e| | |f]; try (intros [= <- <-]; done).
  intros Hrun2. destruct (Hh e _ _ _ Hrun2) as [Hl2 Hf2].
  split; [congruence|auto].
Qed.

Lemma keeps_env_unwinding {A} (m : M T A) (c : M T unit) :
  keeps_env m → keeps_env c → keeps_env (T:=T) (unwinding m c).
Proof.
  intros Hm Hc. apply keeps_env_catch; [done|]. intros e.
  apply keeps_env_bind; [done|]. intros _. apply keeps_env_throw.
Qed.

Lemma keeps_env_noexcept {A} (m : M T A) : keeps_env m → keeps_env (T:=T) (noexcept m).
Proof.
  intros Hm w o w'. unfold noexcept. destruct (m w) as [oa w1] eqn:Hrun.
  destruct (Hm _ _ _ Hrun) as [Hl Hf].
  destruct oa as [a|e| | |f]; intros [= <- <-]; done.
Qed.

(** A step that changes the heap, the objects or the log only. *)
Lemma keeps_env_pure {A} (m : M T A) :
  (∀ w, alloc_limit (m w).2 = alloc_limit w ∧ fuse (m w).2 = fuse w) → keeps_env m.
Proof.
  intros Hm w o w' Hrun. destruct (Hm w) as [Hl Hf]. rewrite Hrun in Hl, Hf. simpl in *.
  split; [done|congruence].
Qed.

Lemma keeps_env_tick op : keeps_env (T:=T) (tick op).
Proof.
  intros w o w'. unfold tick. destruct (may_throw op); [|intros [= <- <-]; done].
  destruct (fuse w) as [[|k]|] eqn:Hf; intros [= <- <-]; done.
Qed.

Lemma keeps_env_read p : keeps_env (T:=T) (read p).
Proof. apply keeps_env_pure. intros w. unfold read. by repeat case_match. Qed.

Lemma keeps_env_construct_at op dst src x : keeps_env (T:=T) (construct_at op dst src x).
Proof.
  intros w o w'. unfold construct_at.
  destruct (slot_at (heap w) dst) as [[|?]|]; try (intros [= <- <-]; done).
  revert w o w'. apply keeps_env_bind; [apply keeps_env_tick|].
  intros _. by apply keeps_env_pure.
Qed.

Lemma keeps_env_assign_at op dst src x : keeps_env (T:=T) (assign_at op dst src x).
Proof.
  intros w o w'. unfold assign_at.
  destruct (slot_at (heap w) dst) as [[|?]|]; try (intros [= <- <-]; done).
  revert w o w'. apply keeps_env_bind; [apply keeps_env_tick|].
  intros _. by apply keeps_env_pure.
Qed.

Lemma keeps_env_destroy_at p : keeps_env (T:=T) (destroy_at p).
Proof. apply keeps_env_pure. intros w. unfold destroy_at. by repeat case_match. Qed.

Lemma keeps_env_copy_construct dst src : keeps_env (T:=T) (copy_construct dst src).
Proof.
  apply keeps_env_bind; [apply keeps_env_read|]. intros. apply keeps_env_construct_at.
Qed.

Lemma keeps_env_move_construct dst src : keeps_env (T:=T) (move_construct dst src).
Proof.
  apply keeps_env_bind; [apply keeps_env_read|]. intros.
  apply keeps_env_bind; [apply keeps_env_construct_at|]. intros. by apply keeps_env_pure.
Qed.

Lemma keeps_env_value_construct dst : keeps_env (T:=T) (value_construct dst).
Proof. apply keeps_env_construct_at. Qed.

Lemma keeps_env_copy_assign dst src : keeps_env (T:=T) (copy_assign dst src).
Proof.
  apply keeps_env_bind; [apply keeps_env_read|]. intros. apply keeps_env_assign_at.
Qed.

Lemma keeps_env_move_assign dst src : keeps_env (T:=T) (move_assign dst src).
Proof.
  apply keeps_env_bind; [apply keeps_env_read|]. intros.
  apply keeps_env_bind; [apply keeps_env_assign_at|]. intros. by apply keeps_env_pure.
Qed.

Lemma keeps_env_destroy_loop n : ∀ p, keeps_env (T:=T) (destroy_loop p n).
Proof.
  induction n as [|n IH]; intros p; simpl; [apply keeps_env_ret|].
  apply keeps_env_bind; [apply keeps_env_destroy_at|]. intros. apply IH.
Qed.

Lemma keeps_env_destroy_n p n : keeps_env (T:=T) (destroy_n p n).
Proof. apply keeps_env_destroy_loop. Qed.

Lemma keeps_env_uninit_loop (construct : Ptr → Ptr → M T unit) first d n :
  (∀ dst src, keeps_env (T:=T) (construct dst src)) →
  ∀ cur, keeps_env (T:=T) (uninit_loop construct first d cur n).
Proof.
  intros Hc. induction n as [|n IH]; intros cur; simpl; [apply keeps_env_ret|].
  apply keeps_env_bind; [|intros; apply IH].
  apply keeps_env_catch; [apply Hc|]. intros e.
  apply keeps_env_bind; [apply keeps_env_destroy_loop|]. intros. apply keeps_env_throw.
Qed.

Lemma keeps_env_relocate first n d : keeps_env (T:=T) (relocate first n d).
Proof.
  unfold relocate, uninitialized_move_n, uninitialized_copy_n.
  destruct relocate_by_move; apply keeps_env_uninit_loop; intros.
  - apply keeps_env_move_construct.
  - apply keeps_env_copy_construct.
Qed.

Lemma keeps_env_value_construct_n first n :
  keeps_env (T:=T) (uninitialized_value_construct_n first n).
Proof. apply keeps_env_uninit_loop. intros. apply keeps_env_value_construct. Qed.

Lemma keeps_env_move_loop n : ∀ first d, keeps_env (T:=T) (move_loop first d n).
Proof.
  induction n as [|n IH]; intros first d; simpl; [apply keeps_env_ret|].
  apply keeps_env_bind; [apply keeps_env_move_assign|]. intros. apply IH.
Qed.

Lemma keeps_env_std_move first last d : keeps_env (T:=T) (std_move first last d).
Proof.
  unfold std_move. destruct (ptr_leb first last);
    [apply keeps_env_move_loop|apply keeps_env_undefined].
Qed.

Lemma keeps_env_move_backward_loop n : ∀ last d, keeps_env (T:=T) (move_backward_loop last d n).
Proof.
  induction n as [|n IH]; intros last d; simpl; [apply keeps_env_ret|].
  apply keeps_env_bind; [apply keeps_env_move_assign|]. intros. apply IH.
Qed.

Lemma keeps_env_std_move_backward first last d :
  keeps_env (T:=T) (std_move_backward first last d).
Proof.
  unfold std_move_backward. destruct (ptr_leb first last);
    [apply keeps_env_move_backward_loop|apply keeps_env_undefined].
Qed.

Lemma keeps_env_Allocate n : keeps_env (T:=T) (Allocate n).
Proof. apply keeps_env_pure. intros w. unfold Allocate. by repeat case_match. Qed.

Lemma keeps_env_RawMemory_ctor n : keeps_env (T:=T) (RawMemory_ctor n).
Proof.
  apply keeps_env_bind; [apply keeps_env_Allocate|]. intros. apply keeps_env_ret.
Qed.

Lemma keeps_env_RawMemory_dtor m : keeps_env (T:=T) (RawMemory_dtor m).
Proof.
  apply keeps_env_pure. intros w. unfold RawMemory_dtor, Deallocate. by repeat case_match.
Qed.

Lemma keeps_env_RawMemory_plus m k : keeps_env (T:=T) (RawMemory_plus m k).
Proof.
  apply keeps_env_bind; [apply keeps_env_assert|]. intros. apply keeps_env_ret.
Qed.

Lemma keeps_env_RawMemory_index m k : keeps_env (T:=T) (RawMemory_index m k).
Proof.
  apply keeps_env_bind; [apply keeps_env_assert|]. intros. apply keeps_env_ret.
Qed.

Lemma keeps_env_load_obj a : keeps_env (T:=T) (load_obj a).
Proof. apply keeps_env_pure. intros w. unfold load_obj. by repeat case_match. Qed.

Lemma keeps_env_store_obj a v : keeps_env (T:=T) (store_obj a v).
Proof. apply keeps_env_pure. intros w. unfold store_obj. by repeat case_match. Qed.

Lemma keeps_env_new_obj v : keeps_env (T:=T) (new_obj v).
Proof. by apply keeps_env_pure. Qed.

Lemma keeps_env_kill_obj a : keeps_env (T:=T) (kill_obj a).
Proof. apply keeps_env_pure. intros w. unfold kill_obj. by repeat case_match. Qed.

Lemma keeps_env_emit {A} (a : A) e : keeps_env (T:=T) (λ w : World T, (Ok a, emit e w)).
Proof. by apply keeps_env_pure. Qed.

Lemma keeps_env_check_position v pos : keeps_env (T:=T) (check_position v pos).
Proof.
  unfold check_position. destruct (same_block (cbegin v) pos);
    [apply keeps_env_assert|apply keeps_env_undefined].
Qed.

End EnvironmentLemmas.

Create HintDb env.

#[global] Hint Resolve keeps_env_ret keeps_env_throw keeps_env_undefined keeps_env_assert
  keeps_env_tick keeps_env_read keeps_env_construct_at keeps_env_assign_at
  keeps_env_destroy_at keeps_env_copy_construct keeps_env_move_construct
  keeps_env_value_construct keeps_env_copy_assign keeps_env_move_assign
  keeps_env_destroy_loop keeps_env_destroy_n keeps_env_relocate
  keeps_env_value_construct_n keeps_env_move_loop keeps_env_std_move
  keeps_env_move_backward_loop keeps_env_std_move_backward keeps_env_Allocate
  keeps_env_RawMemory_ctor keeps_env_RawMemory_dtor keeps_env_RawMemory_plus
  keeps_env_RawMemory_index keeps_env_load_obj keeps_env_store_obj keeps_env_new_obj
  keeps_env_kill_obj keeps_env_emit keeps_env_check_position : env.

(** Decomposes a method body along its binds, handlers and branches. *)
Ltac solve_env :=
  repeat first
    [ progress intros
    | match goal with
      | |- keeps_env (bind _ _) => apply keeps_env_bind
      | |- keeps_env (unwinding _ _) => apply keeps_env_unwinding
      | |- keeps_env (catch _ _) => apply keeps_env_catch
      | |- keeps_env (noexcept _) => apply keeps_env_noexcept
      | |- keeps_env (if ?c then _ else _) => destruct c
      | |- keeps_env (let '(_, _) := ?c in _) => destruct c
      end
    | solve [auto with env] ].

Section EnvironmentOfMethods.
Context {T : Type} `{Elem T}.

Lemma keeps_env_Reserve this k : keeps_env (T:=T) (Vector_Reserve this k).
Proof. unfold Vector_Reserve, RawMemory_Swap. solve_env. Qed.

Lemma keeps_env_construct_from a p : keeps_env (T:=T) (construct_from a p).
Proof. apply keeps_env_construct_at. Qed.

Lemma keeps_env_EmplaceBack this a : keeps_env (T:=T) (Vector_EmplaceBack this a).
Proof.
  unfold Vector_EmplaceBack, RawMemory_Swap.
  pose proof keeps_env_construct_from. solve_env.
Qed.

Lemma keeps_env_PushBack this by_move x : keeps_env (T:=T) (Vector_PushBack this by_move x).
Proof.
  apply keeps_env_bind; [apply keeps_env_EmplaceBack|]. intros. apply keeps_env_ret.
Qed.

Lemma keeps_env_Erase this pos : keeps_env (T:=T) (Vector_Erase this pos).
Proof. unfold Vector_Erase. solve_env. Qed.

Lemma keeps_env_assign_temporary d i a : keeps_env (T:=T) (assign_temporary d i a).
Proof. unfold assign_temporary. solve_env. Qed.

Lemma keeps_env_Emplace this pos a : keeps_env (T:=T) (Vector_Emplace this pos a).
Proof.
  unfold Vector_Emplace, RawMemory_Swap.
  pose proof keeps_env_construct_from. pose proof keeps_env_assign_temporary. solve_env.
Qed.

Lemma keeps_env_PopBack this : keeps_env (T:=T) (Vector_PopBack this).
Proof. unfold Vector_PopBack. solve_env. Qed.

End EnvironmentOfMethods.

(** ** Value construction: the sized constructor and Resize *)

Section ValueConstruction.
Context {T : Type} `{Elem T}.
Implicit Types (w : World T) (p q : Ptr) (v : Vector) (l : list T).

Lemma value_events_S d cur n :
  value_events d cur (S n) =
  EvConstruct DefaultCtor (Some (ptr_add d (Z.of_nat cur))) None :: value_events d (S cur) n.
Proof. done. Qed.

Lemma balance_valued w w' d n :
  log w' = rev (value_events d 0 n) ++ log w →
  balance w' = (balance w + Z.of_nat n)%Z.
Proof.
  intros Hl. unfold balance, ctor_count, dtor_count in *. rewrite Hl.
  rewrite !count_app, !count_rev. unfold value_events.
  rewrite (count_map_all is_construct), (count_map_none is_destroy) by done.
  rewrite !length_seq. lia.
Qed.

Lemma balance_value_undone w w' d j :
  log w' = rev (destroy_events d 0 j) ++ rev (value_events d 0 j) ++ log w →
  balance w' = balance w.
Proof.
  intros Hl. unfold balance, ctor_count, dtor_count in *. rewrite Hl.
  rewrite !count_app, !count_rev. unfold destroy_events, value_events.
  rewrite (count_map_none is_construct), (count_map_all is_construct) by done.
  rewrite (count_map_all is_destroy), (count_map_none is_destroy) by done.
  rewrite !length_seq. lia.
Qed.

(** The loop of std::uninitialized_value_construct_n, whatever [d] points
    to. *)
Lemma value_loop_cases d n : ∀ cur w,
  (∀ i, (i < cur)%nat → ∃ x, slot_at (heap w) (ptr_add d (Z.of_nat i)) = Some (Live x)) →
  ∃ o w', uninit_loop (λ dst _, value_construct dst) d d cur n w = (o, w') ∧
    match o with
    | Ok _ =>
        evolves (in_range (ptr_add d (Z.of_nat cur)) n) w w' ∧
        (∀ i, (cur ≤ i < cur + n)%nat →
           slot_at (heap w') (ptr_add d (Z.of_nat i)) = Some (Live value_init)) ∧
        log w' = rev (value_events d cur n) ++ log w
    | Throw e =>
        e = element_failure ∧ fuse w ≠ None ∧ may_throw DefaultCtor = true ∧
        fuse w' = None ∧
        ∃ j, (j < n)%nat ∧
          evolves (in_range d (cur + j)) w w' ∧
          (∀ i, (i < cur + j)%nat →
             slot_at (heap w') (ptr_add d (Z.of_nat i)) = Some Raw) ∧
          log w' = rev (destroy_events d 0 (cur + j)) ++
                   rev (value_events d cur j) ++ log w
    | Undefined _ =>
        ∃ i, (cur ≤ i < cur + n)%nat ∧
             slot_at (heap w) (ptr_add d (Z.of_nat i)) ≠ Some Raw
    | _ => False
    end.
Proof.
  induction n as [|n IH]; intros cur w Hplaced.
  - exists (Ok tt), w. split; [done|]. split_and!.
    + apply evolves_refl.
    + intros; lia.
    + done.
  - destruct (decide_raw (slot_at (heap w) (ptr_add d (Z.of_nat cur)))) as [Hr0|Hr0];
      cycle 1.
    { exists (Undefined (NotRaw (ptr_add d (Z.of_nat cur)))), w. split.
      - simpl. unfold bind, catch, value_construct. by rewrite construct_at_fault.
      - exists cur. split; [lia|done]. }
    assert (∀ i j : nat, i ≠ j → ptr_add d (Z.of_nat i) ≠ ptr_add d (Z.of_nat j)) as Hij.
    { intros i j Hne Heq. apply (f_equal p_off) in Heq. simpl in Heq. lia. }
    destruct (construct_at_spec DefaultCtor _ None value_init w Hr0)
      as [(w1 & Hrun & Hev1 & Hd1 & Hl1)|(Hrun & Hf & Hmt)].
    + assert (∀ q, q ≠ ptr_add d (Z.of_nat cur) →
                   slot_at (heap w1) q = slot_at (heap w) q) as Hfr1.
      { intros q ?. apply (ev_frame _ _ _ Hev1). congruence. }
      destruct (IH (S cur) w1) as (o & w' & Hrun' & Hpost).
      { intros i Hi. destruct (decide (i = cur)) as [->|Hne]; [eauto|].
        destruct (Hplaced i ltac:(lia)) as [x Hx]. exists x.
        rewrite Hfr1; [done|by apply Hij]. }
      exists o, w'. split.
      { simpl. unfold bind, catch, value_construct. by rewrite Hrun. }
      destruct o as [[]|e| | |f]; try done.
      * destruct Hpost as (Hev' & Hvals & Hl').
        split_and!.
        -- eapply evolves_trans.
           ++ eapply evolves_weaken; [exact Hev1|]. intros q <-. apply in_range_here.
           ++ eapply evolves_weaken; [exact Hev'|]. intros q.
              apply in_range_weaken; simpl; try done; lia.
        -- intros i Hi. destruct (decide (i = cur)) as [->|Hne].
           ++ rewrite (ev_frame _ _ _ Hev'); [done|].
              unfold in_range. simpl. lia.
           ++ apply Hvals. lia.
        -- rewrite Hl', Hl1, value_events_S. cbn [rev]. by rewrite <- app_assoc.
      * destruct Hpost as (-> & Hf & Hmt & Hf' & j & Hj & Hev' & Hraw' & Hl').
        split_and!; try done.
        { intros Hnone. apply Hf. by apply (ev_fuse _ _ _ Hev1). }
        exists (S j). split; [lia|]. split_and!.
        -- eapply evolves_trans.
           ++ eapply evolves_weaken; [exact Hev1|]. intros q <-.
              unfold in_range. simpl. split; [done|lia].
           ++ eapply evolves_weaken; [exact Hev'|]. intros q.
              apply in_range_weaken; simpl; try done; lia.
        -- intros i Hi. apply Hraw'. lia.
        -- rewrite Hl', Hl1, value_events_S. cbn [rev].
           replace (cur + S j)%nat with (S cur + j)%nat by lia.
           by rewrite <- !app_assoc.
      * destruct Hpost as (i & Hi & Hne). exists i. split; [lia|].
        rewrite <- Hfr1; [done|apply Hij; lia].
    + destruct (destroy_loop_spec cur d (set_fuse None w))
        as (w' & Hrun' & Hev' & Hraw' & Hf' & Hl'); [done|].
      exists (Throw element_failure), w'. split.
      { simpl. unfold bind, catch, value_construct. rewrite Hrun. unfold bind.
        by rewrite Hrun'. }
      split_and!; try done.
      exists 0%nat. split; [lia|]. rewrite Nat.add_0_r. split_and!.
      * eapply evolves_trans; [apply evolves_set_fuse; done|]. done.
      * done.
      * by rewrite Hl'.
Qed.

(** The same loop over raw storage. *)
Lemma value_loop_spec d n : ∀ cur w,
  (∀ i, (i < cur)%nat → ∃ x, slot_at (heap w) (ptr_add d (Z.of_nat i)) = Some (Live x)) →
  (∀ i, (cur ≤ i < cur + n)%nat → slot_at (heap w) (ptr_add d (Z.of_nat i)) = Some Raw) →
  ∃ o w', uninit_loop (λ dst _, value_construct dst) d d cur n w = (o, w') ∧
    match o with
    | Ok _ =>
        evolves (in_range (ptr_add d (Z.of_nat cur)) n) w w' ∧
        (∀ i, (cur ≤ i < cur + n)%nat →
           slot_at (heap w') (ptr_add d (Z.of_nat i)) = Some (Live value_init)) ∧
        log w' = rev (value_events d cur n) ++ log w
    | Throw e =>
        e = element_failure ∧ fuse w ≠ None ∧ may_throw DefaultCtor = true ∧
        fuse w' = None ∧
        ∃ j, (j < n)%nat ∧
          evolves (in_range d (cur + j)) w w' ∧
          (∀ i, (i < cur + j)%nat →
             slot_at (heap w') (ptr_add d (Z.of_nat i)) = Some Raw) ∧
          log w' = rev (destroy_events d 0 (cur + j)) ++
                   rev (value_events d cur j) ++ log w
    | _ => False
    end.
Proof.
  intros cur w Hplaced Hraw.
  destruct (value_loop_cases d n cur w Hplaced) as (o & w' & Hrun & Hpost).
  exists o, w'. split; [done|]. destruct o as [[]|e| | |f]; try done.
  destruct Hpost as (i & Hi & Hne). by rewrite Hraw in Hne.
Qed.

Local Open Scope Z_scope.

(** The members and body of the sized constructor, whatever the size: when
    the byte count of the request wraps, the block is too small for [n]
    objects and the constructor does not return. *)
Lemma Vector_sized_spec w n :
  0 ≤ n < 2 ^ 64 →
  let nb := length (heap w) in
  ∃ o w', Vector_sized n w = (o, w') ∧
    match o with
    | Ok v' =>
        n * sizeof w < 2 ^ 64 ∧
        changes_only (eq nb) w w' ∧
        size_ v' = n ∧ capacity_ (data_ v') = n ∧
        (buffer_ (data_ v') = nullptr ∧ n = 0 ∨ buffer_ (data_ v') = MkPtr (Some nb) 0) ∧
        holds w' v' (replicate (Z.to_nat n) value_init) ∧
        log w' = rev (value_events (buffer_ (data_ v')) 0 (Z.to_nat n)) ++ log w
    | Throw e =>
        changes_only (eq nb) w w' ∧
        block_size (heap w') nb = None ∧ balance w' = balance w ∧
        (e = bad_alloc ∧ alloc_limit w < n ∧ w' = w ∨
         e = element_failure ∧ fuse w ≠ None ∧ may_throw DefaultCtor = true)
    | Undefined _ => 2 ^ 64 ≤ n * sizeof w
    | _ => False
    end ∧
    (quiet DefaultCtor w → n ≤ alloc_limit w → ∃ v', o = Ok v').
Proof.
  intros Hn nb. unfold Vector_sized, bind.
  pose proof (sizeof_pos w) as Hspos.
  destruct (decide (n = 0)) as [->|Hnz].
  { unfold RawMemory_ctor, Allocate, bind. simpl.
    eexists _, _. split; [done|]. split; [|eauto].
    simpl. split_and!; try done; try lia; try apply changes_only_refl; [by left|].
    apply holds_intro; simpl; [done|lia|by left]. }
  rewrite RawMemory_ctor_cases by done.
  destruct (requested_bytes w n <=? alloc_limit w * sizeof w) eqn:Hlim; cycle 1.
  { apply Z.leb_gt in Hlim.
    assert (alloc_limit w < n) as Hless.
    { destruct (decide (n ≤ alloc_limit w)) as [Hle|]; [|lia].
      rewrite requested_bytes_fits in Hlim by (apply alloc_limit_fits; lia). nia. }
    eexists _, _. split; [done|]. split.
    - split_and!; [apply changes_only_refl| |done|by left].
      unfold block_size. by rewrite lookup_ge_None_2.
    - intros _ ?. lia. }
  apply Z.leb_le in Hlim.
  assert (n * sizeof w < 2 ^ 64 → granted_slots w n = Z.to_nat n ∧ n ≤ max_slots w) as Hfit.
  { intros Hlt. assert (0 ≤ n * sizeof w < 2 ^ 64) as Hin by nia.
    split; [by apply granted_slots_fits|]. rewrite requested_bytes_fits in Hlim by done.
    pose proof (alloc_limit_max w). nia. }
  pose proof (granted_slots_wrapped w n ltac:(lia)) as Hwrapped.
  set (m := granted_slots w n) in *.
  set (w1 := set_heap _ w).
  assert (changes_only (eq nb) w w1) as Hco1 by (by apply changes_only_alloc).
  assert (block_size (heap w1) nb = Some m) as Hnew_bs
    by (unfold w1, nb; simpl; by rewrite block_size_alloc_new, length_replicate).
  assert (∀ i, 0 ≤ i < Z.of_nat m → slot_at (heap w1) (MkPtr (Some nb) i) = Some Raw)
    as Hnew_raw by (intros; unfold w1, nb; simpl; apply slot_at_alloc_new; lia).
  assert (log w1 = log w) as Hlog1 by done.
  assert (fuse w1 = fuse w) as Hfuse1 by done.
  assert (elem_size w1 = elem_size w) as Helem1 by done.
  change (length (heap w)) with nb. clearbody w1 nb.
  set (d := MkPtr (Some nb) 0).
  destruct (value_loop_cases d (Z.to_nat n) 0 w1) as (o & w2 & Hrun & Hpost).
  { intros; lia. }
  unfold unwinding, catch, uninitialized_value_construct_n, GetAddress. simpl. fold d.
  rewrite Hrun. simpl in Hpost. rewrite ?ptr_add_0 in Hpost.
  assert (∀ P w3, evolves P w1 w3 → (∀ q, P q → p_block q = Some nb) →
                  changes_only (eq nb) w1 w3) as Hev_co.
  { intros P w3 Hev HP. eapply evolves_changes_only; [exact Hev|].
    intros q b Hq Hb. specialize (HP _ Hq). congruence. }
  destruct o as [[]|e| | |f]; try done.
  - destruct Hpost as (Hev2 & Hvals & Hl2).
    assert (n * sizeof w < 2 ^ 64) as Hlt.
    { (* every one of the [n] slots was built, so the block has [n] slots *)
      destruct (decide (n * sizeof w < 2 ^ 64)) as [|Hge]; [done|].
      specialize (Hwrapped ltac:(lia)).
      specialize (Hvals (Z.to_nat n - 1)%nat ltac:(lia)).
      apply slot_at_Some_block in Hvals as (b & k & Hb & Hk & Hoff). simpl in Hb, Hoff.
      injection Hb as <-. rewrite (ev_size _ _ _ Hev2), Hnew_bs in Hk.
      injection Hk as <-. lia. }
    destruct (Hfit Hlt) as [Hm Hmax].
    eexists _, _. split; [done|]. split; [|eauto].
    simpl. split_and!; try done; [|by right| |by rewrite Hl2, Hlog1].
    { eapply changes_only_trans; [exact Hco1|]. eapply Hev_co; [exact Hev2|].
      by intros q [? _]. }
    split; simpl.
    + by rewrite length_replicate, Z2Nat.id by lia.
    + lia.
    + right. exists nb. rewrite (ev_elem _ _ _ Hev2), Helem1.
      split_and!; simpl; [done|lia|done|].
      by rewrite (ev_size _ _ _ Hev2), Hnew_bs, Hm.
    + intros i x Hx. apply lookup_replicate in Hx as [-> Hi]. apply Hvals. lia.
    + intros i Hi. lia.
  - destruct Hpost as (-> & Hf & Hmt & Hf2 & j & Hj & Hev2 & Hraw2 & Hl2).
    unfold bind, throw. rewrite (RawMemory_dtor_block _ _ nb); [|done|]; cycle 1.
    { simpl. rewrite (ev_size _ _ _ Hev2), Hnew_bs. eauto. }
    eexists _, _. split; [done|]. split_and!.
    + eapply changes_only_trans; [exact Hco1|]. eapply changes_only_trans.
      * eapply Hev_co; [exact Hev2|]. by intros q [? _].
      * apply changes_only_release. simpl. congruence.
    + simpl. by apply release_gone.
    + assert (balance w2 = balance w1) as Hb by (by apply (balance_value_undone w1 w2 d j)).
      unfold balance in *. simpl. rewrite Hlog1 in Hb. done.
    + right. split_and!; [done|congruence|done].
    + intros [Hq|Hq] _; [congruence|]. destruct Hf. congruence.
  - destruct Hpost as (i & Hi & Hne).
    assert (2 ^ 64 ≤ n * sizeof w) as Hge.
    { destruct (decide (n * sizeof w < 2 ^ 64)) as [Hlt|]; [|lia].
      destruct (Hfit Hlt) as [Hm _]. destruct Hne. apply Hnew_raw. simpl. lia. }
    eexists _, _. split; [done|]. split; [done|]. intros _ Hl.
    pose proof (alloc_limit_fits w n ltac:(lia)). lia.
Qed.

(** X11: the sized constructor builds [size] value-initialised elements in a
    block of exactly [size] slots (no block for size 0) and touches no other
    Vector; when the allocation or a default constructor throws, no object is
    created, the block is released and every construction was undone.  It
    returns only for a size whose byte count [size * sizeof(T)] does not
    wrap: for one whose byte count wraps the block is too small, and the
    constructor either throws or runs past the end of the block. *)
Theorem sized_ctor_value_initialises w n :
  0 ≤ n < 2 ^ 64 →
  ∃ o w', Vector_sized_ctor n w = (o, w') ∧
    match o with
    | Ok a =>
        n * sizeof w < 2 ^ 64 ∧
        a = length (objs w) ∧
        (∀ v l, holds w v l → holds w' v l) ∧
        ∃ v', objs w' = objs w ++ [Some v'] ∧
              Size v' = n ∧ Capacity v' = n ∧
              holds w' v' (replicate (Z.to_nat n) value_init) ∧
              balance w' = balance w + n ∧
              live_elements w' = live_elements w + n
    | Throw e =>
        (∀ v l, holds w v l → holds w' v l) ∧
        objs w' = objs w ∧ balance w' = balance w ∧
        (e = bad_alloc ∧ alloc_limit w < n ∧ w' = w ∨
         e = element_failure ∧ fuse w ≠ None ∧ may_throw DefaultCtor = true)
    | Undefined _ => 2 ^ 64 ≤ n * sizeof w
    | _ => False
    end ∧
    (quiet DefaultCtor w → n ≤ alloc_limit w → ∃ a, o = Ok a).
Proof.
  intros Hn.
  destruct (Vector_sized_spec w n Hn) as (o & w1 & Hrun & Hpost & Hret).
  assert (changes_only (eq (length (heap w))) w w1 →
          ∀ v l, holds w v l → holds w1 v l) as Hkeep.
  { intros Hco v l Hh. eapply holds_preserved; [exact Hh|exact Hco|].
    intros b Hb <-. by apply (owns_block_fresh _ _ (holds_block _ _ _ Hh)). }
  unfold Vector_sized_ctor, bind. rewrite Hrun.
  destruct o as [v'|e| | |f]; try done.
  - destruct Hpost as (Hlt & Hco & Hsz' & Hcap' & Hbuf' & Hh' & Hl').
    eexists _, _. split; [done|]. simpl. split_and!.
    + done.
    + by rewrite (co_objs _ _ _ Hco).
    + intros v l Hh. eapply holds_frame; [exact (Hkeep Hco _ _ Hh)|solve_elem|..]; done.
    + exists v'. split_and!; try done.
      * by rewrite (co_objs _ _ _ Hco).
      * eapply holds_frame; [exact Hh'|solve_elem|..]; done.
      * transitivity (balance w1); [done|]. rewrite (balance_valued w w1 _ _ Hl'). lia.
      * rewrite live_elements_new, (co_objs _ _ _ Hco). unfold live_elements. simpl.
        by rewrite Hsz'.
    + intros Hq Hlim. eauto.
  - destruct Hpost as (Hco & _ & Hbal & Hwhy).
    eexists _, _. split; [done|]. split_and!; try done.
    + by apply Hkeep.
    + apply Hco.
    + intros Hq Hlim. destruct (Hret Hq Hlim) as [? [=]].
  - eexists _, _. split; [done|]. split; [done|].
    intros Hq Hlim. destruct (Hret Hq Hlim) as [? [=]].
Qed.

(** X12: Resize to a size not above Size() destroys the elements past the new
    size, in order, keeps the buffer and the capacity, and cannot fail; the
    Vector then holds the first [k] elements. *)
Theorem Resize_down_truncates w this v l (k : nat) :
  objs w !! this = Some (Some v) → holds w v l → (k ≤ length l)%nat →
  let v' := MkVector (data_ v) (Z.of_nat k) in
  ∃ w', Vector_Resize this (Z.of_nat k) w = (Ok tt, w') ∧
        objs w' = <[this := Some v']> (objs w) ∧
        holds w' v' (take k l) ∧
        fuse w' = fuse w ∧
        log w' = rev (destroy_events (ptr_add (begin_ v) (Z.of_nat k)) 0 (length l - k))
                 ++ log w ∧
        balance w' = balance w - (Size v - Z.of_nat k).
Proof.
  intros Hobj Hh Hk v'. subst v'.
  pose proof Hh as [Hsz Hcap Hblk Hlive Hraw].
  unfold begin_, GetAddress, Size.
  set (buf := buffer_ (data_ v)) in *.
  destruct (destroy_loop_spec (length l - k) (ptr_add buf (Z.of_nat k)) w)
    as (w1 & Hrun1 & Hev1 & Hraw1 & Hf1 & Hl1).
  { intros i Hi. destruct (lookup_lt_is_Some_2 l (k + i) ltac:(lia)) as [x Hx].
    exists x. rewrite ptr_add_add.
    replace (Z.of_nat k + Z.of_nat i) with (Z.of_nat (k + i)) by lia. by apply Hlive. }
  assert (objs w1 = objs w) as Hobjs by apply (ev_objs _ _ _ Hev1).
  assert (holds w1 (MkVector (data_ v) (Z.of_nat k)) (take k l)) as Hh1.
  { split; simpl; fold buf.
    - rewrite length_take. lia.
    - lia.
    - apply (owns_block_frame w); [done|solve_elem|]. intros b Hb.
      by rewrite (ev_size _ _ _ Hev1).
    - intros i y Hy. apply lookup_take_Some in Hy as [Hy Hi].
      rewrite (ev_frame _ _ _ Hev1); [by apply Hlive|].
      unfold in_range. simpl. lia.
    - intros z Hz. destruct (decide (z < size_ v)) as [Hin|Hout].
      + specialize (Hraw1 (Z.to_nat (z - Z.of_nat k)) ltac:(lia)).
        rewrite ptr_add_add in Hraw1. rewrite <- Hraw1. do 2 f_equal. lia.
      + rewrite (ev_frame _ _ _ Hev1); [apply Hraw; lia|].
        unfold in_range. simpl. lia. }
  unfold Vector_Resize, bind. rewrite (load_obj_ok _ _ _ Hobj).
  destruct (Z.of_nat k <? size_ v) eqn:Hlt.
  - apply Z.ltb_lt in Hlt. unfold destroy_n, GetAddress. fold buf.
    replace (Z.to_nat (wrap (size_ v - Z.of_nat k))) with (length l - k)%nat
      by (rewrite wrap_small; lia).
    rewrite Hrun1. rewrite (load_obj_ok this v) by (by rewrite Hobjs).
    erewrite store_obj_ok by (rewrite Hobjs; done).
    eexists. split; [done|]. simpl. rewrite Hobjs. split_and!; try done.
    + eapply holds_frame; [exact Hh1|solve_elem|done..].
    + transitivity (balance w1); [done|]. rewrite (balance_destroyed w w1 _ _ _ Hl1). lia.
  - apply Z.ltb_ge in Hlt. assert (k = length l) as Hkl by lia.
    assert ((Z.of_nat k >? size_ v) = false) as -> by (rewrite Z.gtb_ltb; apply Z.ltb_ge; lia).
    unfold ret. rewrite (load_obj_ok _ _ _ Hobj). rewrite (store_obj_ok _ _ _ _ Hobj).
    eexists. split; [done|]. simpl.
    replace (length l - k)%nat with 0%nat in * by lia. simpl in *.
    injection Hrun1 as <-. split_and!; try done.
    + eapply holds_frame; [exact Hh1|solve_elem|done..].
    + unfold balance. simpl. lia.
Qed.

(** X13: Resize to a larger size whose byte count [k * sizeof(T)] does not
    wrap keeps the elements and appends value-initialised ones; the buffer is
    kept when the new size fits the capacity, and replaced by one of exactly
    the new size otherwise.  When it throws, the Vector still has its Size()
    and, for a T relocated by copy, its elements. *)
Theorem Resize_up_value_initialises w this v l (k : Z) :
  objs w !! this = Some (Some v) → holds w v l → Size v < k < 2 ^ 64 →
  k * sizeof w < 2 ^ 64 →
  ∃ o w', Vector_Resize this k w = (o, w') ∧
    match o with
    | Ok _ =>
        ∃ v', objs w' = <[this := Some v']> (objs w) ∧
              Size v' = k ∧ Capacity v' = Z.max k (Capacity v) ∧
              (k ≤ Capacity v → data_ v' = data_ v) ∧
              holds w' v' (l ++ replicate (Z.to_nat (k - Size v)) value_init)
    | Throw _ =>
        ∃ v1, objs w' !! this = Some (Some v1) ∧ Size v1 = Size v ∧
              (relocate_by_move = false → holds w' v1 l)
    | _ => False
    end ∧
    (fuse w = None → k ≤ alloc_limit w → o = Ok tt).
Proof.
  intros Hobj Hh Hk Hfits. pose proof Hh as [Hsz Hcap Hblk Hlive Hraw].
  unfold Size, Capacity, RawMemory_Capacity in *.
  pose proof (lookup_lt_Some _ _ _ Hobj) as Hthis.
  (* the value construction on a Vector [v1] with room for [k] elements *)
  assert (∀ w1 v1, objs w1 !! this = Some (Some v1) → holds w1 v1 l →
            size_ v1 = size_ v → k ≤ capacity_ (data_ v1) →
            ∃ o w',
              ((v1 ← load_obj this;
                uninitialized_value_construct_n
                  (ptr_add (GetAddress (data_ v1)) (size_ v1)) (wrap (k - size_ v1)));;
               v2 ← load_obj this; store_obj this (MkVector (data_ v2) k)) w1 = (o, w') ∧
              match o with
              | Ok _ =>
                  objs w' = <[this := Some (MkVector (data_ v1) k)]> (objs w1) ∧
                  holds w' (MkVector (data_ v1) k)
                        (l ++ replicate (Z.to_nat (k - size_ v)) value_init)
              | Throw _ => objs w' = objs w1 ∧ holds w' v1 l
              | _ => False
              end ∧
              (fuse w1 = None → o = Ok tt)) as Hfill.
  { intros w1 v1 Hobj1 Hh1 Hsz1 Hroom.
    pose proof Hh1 as [Hsz' Hcap' Hblk' Hlive' Hraw'].
    set (buf := buffer_ (data_ v1)) in *.
    set (m := Z.to_nat (k - size_ v)).
    destruct (value_loop_spec (ptr_add buf (size_ v1)) m 0 w1) as (o & w2 & Hrun & Hpost).
    { intros; lia. }
    { intros i Hi. rewrite ptr_add_add. apply Hraw'. lia. }
    unfold bind. rewrite (load_obj_ok _ _ _ Hobj1).
    unfold uninitialized_value_construct_n, GetAddress. fold buf.
    replace (Z.to_nat (wrap (k - size_ v1))) with m by (rewrite wrap_small; lia).
    rewrite Hrun. simpl in Hpost. rewrite ?ptr_add_0 in Hpost.
    destruct o as [[]|e| | |f]; try done.
    - destruct Hpost as (Hev2 & Hvals & Hl2).
      assert (objs w2 = objs w1) as Hobjs by apply (ev_objs _ _ _ Hev2).
      rewrite (load_obj_ok this v1) by (by rewrite Hobjs).
      erewrite store_obj_ok by (rewrite Hobjs; done).
      eexists _, _. split; [done|]. simpl. rewrite Hobjs. split; [|done].
      split; [done|]. split; simpl; fold buf.
      + rewrite length_app, length_replicate. lia.
      + lia.
      + apply (owns_block_frame w1); [done|solve_elem|]. intros b Hb.
        by rewrite (ev_size _ _ _ Hev2).
      + intros i x Hx. apply lookup_app_Some in Hx as [Hx|[Hi Hx]].
        * pose proof (lookup_lt_Some _ _ _ Hx).
          rewrite (ev_frame _ _ _ Hev2); [by apply Hlive'|].
          unfold in_range. simpl. lia.
        * apply lookup_replicate in Hx as [-> Hi'].
          specialize (Hvals (i - length l)%nat ltac:(lia)).
          rewrite ptr_add_add in Hvals. rewrite <- Hvals. do 2 f_equal. lia.
      + intros z Hz. rewrite (ev_frame _ _ _ Hev2); [apply Hraw'; lia|].
        unfold in_range. simpl. lia.
    - destruct Hpost as (-> & Hf & Hmt & Hf2 & j & Hj & Hev2 & Hraw2 & Hl2).
      eexists _, _. split; [done|]. split.
      + split; [apply (ev_objs _ _ _ Hev2)|].
        split; fold buf; try done.
        * apply (owns_block_frame w1); [done|solve_elem|]. intros b Hb.
          by rewrite (ev_size _ _ _ Hev2).
        * intros i x Hx. pose proof (lookup_lt_Some _ _ _ Hx).
          rewrite (ev_frame _ _ _ Hev2); [by apply Hlive'|].
          unfold in_range. simpl. lia.
        * intros z Hz. destruct (decide (z < size_ v1 + Z.of_nat j)) as [Hin|Hout].
          -- specialize (Hraw2 (Z.to_nat (z - size_ v1)) ltac:(lia)).
             rewrite ptr_add_add in Hraw2. rewrite <- Hraw2. do 2 f_equal. lia.
          -- rewrite (ev_frame _ _ _ Hev2); [apply Hraw'; lia|].
             unfold in_range. simpl. lia.
      + intros Hnone. by destruct Hf. }
  unfold Vector_Resize. unfold bind at 1. rewrite (load_obj_ok _ _ _ Hobj).
  assert ((k <? size_ v) = false) as -> by (apply Z.ltb_ge; lia).
  assert ((k >? size_ v) = true) as -> by (rewrite Z.gtb_ltb; apply Z.ltb_lt; lia).
  destruct (decide (k ≤ capacity_ (data_ v))) as [Hroom|Hgrow].
  - (* the elements stay where they are *)
    assert (Vector_Reserve this k w = (Ok tt, w)) as HR.
    { unfold Vector_Reserve, bind. rewrite (load_obj_ok _ _ _ Hobj).
      unfold Capacity, RawMemory_Capacity.
      by assert ((k <=? capacity_ (data_ v)) = true) as -> by (by apply Z.leb_le). }
    destruct (Hfill w v Hobj Hh eq_refl Hroom) as (o & w' & Hrun & Hpost & Hret).
    exists o, w'. split.
    { revert Hrun. unfold bind. rewrite HR. done. }
    split; [|auto]. destruct o as [[]|e| | |f]; try done.
    + destruct Hpost as [Hobjs Hh']. exists (MkVector (data_ v) k).
      split_and!; try done. simpl. lia.
    + destruct Hpost as [Hobjs Hh']. exists v. rewrite Hobjs. done.
  - (* Reserve moves them to a block of [k] slots first *)
    destruct (Reserve_grow w this v l k Hobj Hh) as (oR & wR & HR & HpostR & HretR).
    { unfold Capacity, RawMemory_Capacity. lia. }
    destruct (keeps_env_Reserve this k _ _ _ HR) as [HlimR HfuseR].
    destruct oR as [[]|e| | |f]; try done; [| |lia].
    + destruct HpostR as (HobjsR & _ & _ & _ & HhR). specialize (HhR Hfits).
      set (v1 := MkVector (MkRawMemory (MkPtr (Some (length (heap w))) 0) k) (size_ v)) in *.
      assert (objs wR !! this = Some (Some v1)) as Hobj1
        by (rewrite HobjsR; by apply list_lookup_insert_eq).
      destruct (Hfill wR v1 Hobj1 HhR eq_refl ltac:(simpl; lia))
        as (o & w' & Hrun & Hpost & Hret).
      exists o, w'. split.
      { revert Hrun. unfold bind. rewrite HR. done. }
      split; [|auto]. destruct o as [[]|e| | |f]; try done.
      * destruct Hpost as [Hobjs Hh']. exists (MkVector (data_ v1) k).
        split_and!; simpl; try done; try lia.
        by rewrite Hobjs, HobjsR, list_insert_insert_eq.
      * destruct Hpost as [Hobjs Hh']. exists v1. rewrite Hobjs. done.
    + destruct HpostR as [HobjsR HhR].
      exists (Throw e), wR. split.
      { unfold bind. by rewrite HR. }
      split.
      * exists v. rewrite HobjsR. done.
      * intros Hf Hlim. by specialize (HretR Hf Hlim).
Qed.

End ValueConstruction.

(** ** Emplace and Insert *)

Section Emplace.
Context {T : Type} `{Elem T}.
Implicit Types (w : World T) (p q : Ptr) (v : Vector) (l : list T).

Lemma position_assertion_in v (i : Z) :
  (0 ≤ i ≤ size_ v)%Z → position_assertion v (ptr_add (buffer_ (data_ v)) i) = true.
Proof.
  intros Hi. unfold position_assertion, cbegin, cend, GetAddress, ptr_leb. simpl.
  rewrite !bool_decide_true by done. simpl.
  apply andb_true_iff. split; apply Z.leb_le; lia.
Qed.

Lemma index_of_position v (i : Z) :
  (0 ≤ i < 2 ^ 64)%Z → wrap (ptr_diff (ptr_add (buffer_ (data_ v)) i) (cbegin v)) = i.
Proof.
  intros Hi. unfold ptr_diff, cbegin, GetAddress. simpl.
  replace (p_off (buffer_ (data_ v)) + i - p_off (buffer_ (data_ v)))%Z with i by lia.
  by apply wrap_small.
Qed.

Lemma lookup_inserted l (i : nat) x j y :
  (i ≤ length l)%nat → (take i l ++ x :: drop i l) !! j = Some y →
  (j < i)%nat ∧ l !! j = Some y ∨ j = i ∧ y = x ∨ (i < j)%nat ∧ l !! (j - 1)%nat = Some y.
Proof.
  intros Hi Hj. apply lookup_app_Some in Hj as [Hj|[Hge Hj]].
  - apply lookup_take_Some in Hj as [Hj ?]. by left.
  - rewrite length_take, Nat.min_l in Hge, Hj by done.
    destruct (j - i)%nat as [|k] eqn:Hk; simpl in Hj.
    + injection Hj as <-. right; left. split; [lia|done].
    + rewrite lookup_drop in Hj. right; right. split; [lia|].
      by replace (j - 1)%nat with (i + k)%nat by lia.
Qed.

Lemma length_inserted l (i : nat) x :
  length (take i l ++ x :: drop i l) = S (length l).
Proof.
  rewrite length_app, length_take. simpl. rewrite length_drop. lia.
Qed.

(** The loop of std::move_backward over the [m] objects that end just
    before [p + 1], shifted one slot to the right. *)
Lemma move_backward_loop_spec m : ∀ p w,
  fuse w = None →
  (∀ j : nat, (j ≤ m)%nat →
     ∃ y, slot_at (heap w) (ptr_add p (- Z.of_nat j)) = Some (Live y)) →
  ∃ w', move_backward_loop p (ptr_add p 1) m w = (Ok tt, w') ∧
        evolves (in_range (ptr_add p (- Z.of_nat m)) (S m)) w w' ∧
        (∀ (j : nat) y, (1 ≤ j ≤ m)%nat →
           slot_at (heap w) (ptr_add p (- Z.of_nat j)) = Some (Live y) →
           slot_at (heap w') (ptr_add p (1 - Z.of_nat j)) = Some (Live y)) ∧
        (∃ y, slot_at (heap w') (ptr_add p (- Z.of_nat m)) = Some (Live y)) ∧
        fuse w' = None.
Proof.
  induction m as [|m IH]; intros p w Hf Hlive.
  - exists w. split; [done|]. split_and!.
    + apply evolves_refl.
    + intros; lia.
    + apply (Hlive 0%nat). lia.
    + done.
  - destruct (Hlive 0%nat ltac:(lia)) as [x0 Hx0]. simpl in Hx0. rewrite ptr_add_0 in Hx0.
    destruct (Hlive 1%nat ltac:(lia)) as [y1 Hy1]. simpl in Hy1.
    set (p' := ptr_add p (-1)) in *.
    assert (ptr_add (ptr_add p 1) (-1) = p) as Hback
      by (rewrite ptr_add_add; apply ptr_add_0).
    assert (p = ptr_add p' 1) as Hp'
      by (unfold p'; rewrite ptr_add_add; symmetry; apply ptr_add_0).
    assert (p ≠ p') as Hpp by (unfold p'; by_offset).
    destruct (move_assign_spec w p p' x0 y1 Hx0 Hy1 Hpp)
      as [(w1 & Hrun1 & Hev1 & Hd1 & Hs1 & Hl1)|(_ & Hne & _)]; [|done].
    assert (∀ q, q ≠ p → q ≠ p' → slot_at (heap w1) q = slot_at (heap w) q) as Hfr1.
    { intros q ??. apply (ev_frame _ _ _ Hev1). tauto. }
    destruct (IH p' w1) as (w' & Hrun' & Hev' & Hvals' & Hlast' & Hf').
    { by apply (ev_fuse _ _ _ Hev1). }
    { intros j Hj. destruct j as [|j].
      - exists (moved_from y1). simpl. by rewrite ptr_add_0.
      - destruct (Hlive (S (S j)) ltac:(lia)) as [y Hy]. exists y.
        unfold p'. rewrite ptr_add_add. rewrite Hfr1.
        + rewrite <- Hy. f_equal. f_equal. lia.
        + by_offset.
        + unfold p'. by_offset. }
    exists w'. split.
    { simpl. unfold bind. rewrite Hback. fold p'. rewrite Hrun1.
      rewrite <- Hp' in Hrun'. exact Hrun'. }
    split_and!.
    + eapply evolves_trans.
      * eapply evolves_weaken; [exact Hev1|]. intros q [-> | ->];
          unfold in_range, p'; simpl; (split; [done|lia]).
      * eapply evolves_weaken; [exact Hev'|]. intros q.
        apply in_range_weaken; unfold p'; simpl; try done; lia.
    + intros j y Hj Hy. destruct (decide (j = 1%nat)) as [->|Hne].
      * simpl. rewrite ptr_add_0. rewrite (ev_frame _ _ _ Hev').
        -- simpl in Hy. fold p' in Hy. congruence.
        -- unfold in_range, p'. simpl. lia.
      * specialize (Hvals' (j - 1)%nat y ltac:(lia)).
        replace (ptr_add p' (1 - Z.of_nat (j - 1))) with (ptr_add p (1 - Z.of_nat j)) in Hvals'
          by (unfold p'; rewrite ptr_add_add; f_equal; lia).
        apply Hvals'. unfold p'. rewrite ptr_add_add. rewrite Hfr1.
        -- rewrite <- Hy. f_equal. f_equal. lia.
        -- by_offset.
        -- unfold p'. by_offset.
    + destruct Hlast' as [y Hy]. exists y. rewrite <- Hy. f_equal.
      unfold p'. rewrite ptr_add_add. f_equal. lia.
    + done.
Qed.

Local Open Scope Z_scope.

(** [data_[index] = T(args...)] *)
Lemma assign_temporary_spec w d i a x0 :
  fuse w = None → 0 ≤ i < capacity_ d →
  slot_at (heap w) (ptr_add (buffer_ d) i) = Some (Live x0) →
  ∃ w', assign_temporary d i a w = (Ok tt, w') ∧
        evolves (eq (ptr_add (buffer_ d) i)) w w' ∧
        slot_at (heap w') (ptr_add (buffer_ d) i) = Some (Live (arg_value a)) ∧
        fuse w' = None.
Proof.
  intros Hf Hi Hx0. unfold assign_temporary, bind.
  rewrite tick_quiet by (by right).
  unfold unwinding, catch, bind, RawMemory_index, bind, assert, ret.
  assert ((i <? capacity_ d) = true) as -> by (apply Z.ltb_lt; lia).
  set (w0 := emit _ w).
  destruct (assign_at_spec MoveAssign (ptr_add (buffer_ d) i) None (arg_value a) x0 w0)
    as [(w1 & -> & Hev1 & Hd1 & Hl1)|(_ & Hne & _)]; [done| |done].
  eexists. split; [done|]. split_and!.
  - destruct Hev1 as [? ? ? ? ?]. split; done.
  - done.
  - simpl. by apply (ev_fuse _ _ _ Hev1).
Qed.

(** Emplace with spare capacity, when no element operation throws. *)
Lemma Emplace_room w this v l a (i : nat) :
  objs w !! this = Some (Some v) → holds w v l →
  size_ v < capacity_ (data_ v) → (i ≤ length l)%nat → fuse w = None →
  let pos := ptr_add (buffer_ (data_ v)) (Z.of_nat i) in
  let v' := MkVector (data_ v) (size_ v + 1) in
  ∃ w', Vector_Emplace this pos a w = (Ok pos, w') ∧
        objs w' = <[this := Some v']> (objs w) ∧
        holds w' v' (take i l ++ arg_value a :: drop i l) ∧
        fuse w' = None.
Proof.
  intros Hobj Hh Hroom Hi Hf pos v'. subst pos v'.
  pose proof Hh as [Hsz Hcap Hblk Hlive Hraw].
  pose proof (lookup_lt_Some _ _ _ Hobj) as Hthis.
  unfold Vector_Emplace, bind. rewrite (load_obj_ok _ _ _ Hobj).
  rewrite check_position_same by done. rewrite position_assertion_in by lia. unfold assert at 1. cbv beta iota.
  rewrite index_of_position by lia.
  unfold Capacity, RawMemory_Capacity. rewrite bool_decide_false by lia.
  set (buf := buffer_ (data_ v)) in *. set (n := size_ v) in *.
  unfold GetAddress. fold buf.
  assert (∀ w0, elem_size w0 = elem_size w →
                (∀ b, block_size (heap w0) b = block_size (heap w) b) →
                owns_block w0 (data_ v)) as Hown.
  { intros w0 He Hbs. apply (owns_block_frame w); [done|done|]. intros b Hb.
    by rewrite Hbs. }
  destruct (Z.of_nat i <? n) eqn:Hlt.
  - (* in the middle: the last element moves to slot n, the others shift *)
    apply Z.ltb_lt in Hlt.
    rewrite (store_obj_ok _ _ _ _ Hobj). rewrite wrap_small by lia.
    set (w0 := set_objs _ w).
    destruct (lookup_lt_is_Some_2 l (length l - 1) ltac:(lia)) as [xl Hxl].
    destruct (move_construct_step w0 (ptr_add buf n) (ptr_add (ptr_add buf n) (-1)) xl)
      as [(w1 & Hrun1 & Hev1 & Hd1 & Hs1 & Hl1)|(_ & Hne & _)]; [| | |done].
    { apply Hraw. lia. }
    { rewrite ptr_add_add. replace (n + -1) with (Z.of_nat (length l - 1)) by lia.
      by apply Hlive. }
    rewrite Hrun1.
    assert (∀ q, q ≠ ptr_add buf n → q ≠ ptr_add buf (n - 1) →
                 slot_at (heap w1) q = slot_at (heap w) q) as Hfr1.
    { intros q Hq1 Hq2. rewrite (ev_frame _ _ _ Hev1); [done|].
      rewrite ptr_add_add. intros [->| ->]; [done|]. apply Hq2. f_equal. }
    set (m := (length l - 1 - i)%nat).
    destruct (move_backward_loop_spec m (ptr_add (ptr_add buf n) (-1)) w1)
      as (w2 & Hrun2 & Hev2 & Hvals2 & Hlast2 & Hf2).
    { by apply (ev_fuse _ _ _ Hev1). }
    { intros j Hj. destruct j as [|j].
      - exists (moved_from xl). simpl. by rewrite ptr_add_0.
      - destruct (lookup_lt_is_Some_2 l (length l - 1 - S j) ltac:(lia)) as [y Hy].
        exists y. rewrite !ptr_add_add, Hfr1.
        + rewrite <- (Hlive _ _ Hy). f_equal. f_equal. lia.
        + by_offset.
        + by_offset. }
    unfold std_move_backward, ptr_leb, ptr_diff. simpl.
    rewrite bool_decide_true by done.
    assert ((p_off buf + Z.of_nat i <=? p_off buf + n + -1) = true) as ->
      by (apply Z.leb_le; lia).
    simpl.
    replace (Z.to_nat (p_off buf + n + -1 - (p_off buf + Z.of_nat i))) with m by lia.
    assert (ptr_add (ptr_add (ptr_add buf n) (-1)) 1 = ptr_add buf n) as Hpn
      by (rewrite !ptr_add_add; f_equal; lia).
    rewrite Hpn in Hrun2. rewrite Hrun2.
    assert (∃ x0, slot_at (heap w2) (ptr_add buf (Z.of_nat i)) = Some (Live x0)) as [x0 Hx0].
    { destruct Hlast2 as [y Hy]. exists y. rewrite <- Hy. rewrite !ptr_add_add.
      f_equal. f_equal. lia. }
    destruct (assign_temporary_spec w2 (data_ v) (Z.of_nat i) a x0 Hf2 ltac:(lia) Hx0)
      as (w3 & Hrun3 & Hev3 & Hd3 & Hf3).
    rewrite Hrun3.
    assert (objs w3 = objs w0) as Hobjs
      by (by rewrite (ev_objs _ _ _ Hev3), (ev_objs _ _ _ Hev2), (ev_objs _ _ _ Hev1)).
    erewrite load_obj_ok by (rewrite Hobjs; simpl; by apply list_lookup_insert_eq).
    simpl. fold buf.
    exists w3. split_and!; try done.
    assert (∀ b, block_size (heap w3) b = block_size (heap w) b) as Hbs
      by (intros; by rewrite (ev_size _ _ _ Hev3), (ev_size _ _ _ Hev2), (ev_size _ _ _ Hev1)).
    assert (∀ z, slot_at (heap w3) (ptr_add buf z) =
                 if decide (z = Z.of_nat i) then Some (Live (arg_value a))
                 else slot_at (heap w2) (ptr_add buf z)) as H3.
    { intros z. destruct (decide (z = Z.of_nat i)) as [->|Hne]; [done|].
      apply (ev_frame _ _ _ Hev3). fold buf. by_offset. }
    assert (∀ z, ¬ (Z.of_nat i ≤ z ≤ n - 1) →
                 slot_at (heap w2) (ptr_add buf z) = slot_at (heap w1) (ptr_add buf z)) as H2.
    { intros z Hz. apply (ev_frame _ _ _ Hev2). unfold in_range. simpl. lia. }
    split; simpl; fold buf n.
    + rewrite length_inserted. lia.
    + lia.
    + apply Hown; [solve_elem|done].
    + intros j y Hy.
      apply (lookup_inserted _ _ _ _ _ Hi) in Hy as [[Hj Hy]|[[-> ->]|[Hj Hy]]]; [|done|].
      * rewrite H3. rewrite decide_False by lia. rewrite H2 by lia.
        rewrite Hfr1; [by apply Hlive|by_offset..].
      * pose proof (lookup_lt_Some _ _ _ Hy) as Hjl.
        rewrite H3. rewrite decide_False by lia.
        destruct (decide (j = length l)) as [->|Hjn].
        -- rewrite H2 by lia. replace (Z.of_nat (length l)) with n by lia.
           replace xl with y in Hd1; [done|]. congruence.
        -- specialize (Hvals2 (length l - j)%nat y ltac:(lia)).
           rewrite !ptr_add_add in Hvals2.
           assert (ptr_add buf (Z.of_nat j) =
                   ptr_add buf (n + (-1 + (1 - Z.of_nat (length l - j))))) as ->
             by (f_equal; lia).
           apply Hvals2. rewrite Hfr1.
           ++ rewrite <- (Hlive _ _ Hy). f_equal. f_equal. lia.
           ++ by_offset.
           ++ by_offset.
    + intros z Hz. rewrite H3. rewrite decide_False by lia. rewrite H2 by lia.
      rewrite Hfr1; [apply Hraw; lia|by_offset..].
  - (* at the end: the new element is constructed in slot n *)
    apply Z.ltb_ge in Hlt. assert (i = length l) as -> by lia.
    unfold RawMemory_plus, bind, assert, construct_from, ret. fold n buf.
    destruct (n <=? capacity_ (data_ v)) eqn:Hle; [|apply Z.leb_gt in Hle; lia].
    destruct (construct_at_spec (arg_op a) (ptr_add buf n) None (arg_value a) w)
      as [(w2 & -> & Hev2 & Hp2 & Hl2)|(_ & Hne & _)]; [|..|done].
    { apply Hraw. lia. }
    assert (objs w2 = objs w) as Hobjs by apply (ev_objs _ _ _ Hev2).
    erewrite store_obj_ok by (rewrite Hobjs; done).
    erewrite load_obj_ok by (simpl; rewrite Hobjs; by apply list_lookup_insert_eq).
    simpl. fold buf. rewrite wrap_small by lia. rewrite Hobjs.
    eexists. split; [done|]. simpl. split_and!; try done; [|by apply (ev_fuse _ _ _ Hev2)].
    rewrite firstn_all, drop_all.
    split; simpl; fold buf n.
    + rewrite length_app. simpl. lia.
    + lia.
    + apply Hown; [solve_elem|]. apply (ev_size _ _ _ Hev2).
    + intros j y Hy. apply lookup_app_Some in Hy as [Hy|[Hj Hy]].
      * pose proof (lookup_lt_Some _ _ _ Hy).
        rewrite (ev_frame _ _ _ Hev2); [by apply Hlive|by_offset].
      * destruct (j - length l)%nat as [|k] eqn:Hk; [|done]. injection Hy as <-.
        replace (Z.of_nat j) with n by lia. done.
    + intros z Hz. rewrite (ev_frame _ _ _ Hev2); [apply Hraw; lia|by_offset].
Qed.

(** Emplace on a full Vector, when the allocation succeeds and no element
    operation throws. *)
Lemma Emplace_grow w this v l a (i : nat) :
  objs w !! this = Some (Some v) → holds w v l →
  size_ v = capacity_ (data_ v) → (i ≤ length l)%nat → fuse w = None →
  grown_capacity (size_ v) ≤ alloc_limit w → 2 * size_ v < 2 ^ 64 →
  let nb := length (heap w) in
  let pos := ptr_add (buffer_ (data_ v)) (Z.of_nat i) in
  let v' := MkVector (MkRawMemory (MkPtr (Some nb) 0) (Z.max 1 (2 * size_ v)))
                     (size_ v + 1) in
  ∃ w', Vector_Emplace this pos a w = (Ok (MkPtr (Some nb) (Z.of_nat i)), w') ∧
        objs w' = <[this := Some v']> (objs w) ∧
        holds w' v' (take i l ++ arg_value a :: drop i l) ∧
        fuse w' = None ∧
        (∀ b, p_block (buffer_ (data_ v)) = Some b → block_size (heap w') b = None).
Proof.
  intros Hobj Hh Hfull Hi Hf Hlim Hno nb pos v'. subst pos v'.
  pose proof Hh as [Hsz Hcap Hblk Hlive Hraw].
  pose proof (lookup_lt_Some _ _ _ Hobj) as Hthis.
  pose proof (owns_block_fresh _ _ Hblk) as Hfresh.
  unfold Vector_Emplace, bind. rewrite (load_obj_ok _ _ _ Hobj).
  rewrite check_position_same by done. rewrite position_assertion_in by lia. unfold assert at 1. cbv beta iota.
  rewrite index_of_position by lia.
  unfold Capacity, RawMemory_Capacity. rewrite bool_decide_true by done.
  set (buf := buffer_ (data_ v)) in *. set (n := size_ v) in *.
  unfold GetAddress. fold buf.
  assert (0 ≤ grown_capacity n ≤ alloc_limit w) as Hgl
    by (rewrite grown_capacity_spec in * by lia; lia).
  pose proof (alloc_limit_max w) as Hlimmax.
  rewrite RawMemory_ctor_spec; [|rewrite grown_capacity_spec; lia|by apply alloc_limit_fits].
  assert ((grown_capacity n <=? alloc_limit w) = true) as -> by (by apply Z.leb_le).
  rewrite grown_capacity_spec in Hgl by lia.
  rewrite grown_capacity_spec by lia.
  set (C' := Z.max 1 (2 * n)) in *.
  set (w1 := set_heap _ w).
  assert (block_size (heap w1) nb = Some (Z.to_nat C')) as Hnew_bs
    by (unfold w1, nb; simpl; by rewrite block_size_alloc_new, length_replicate).
  assert (∀ z, 0 ≤ z < C' → slot_at (heap w1) (MkPtr (Some nb) z) = Some Raw) as Hnew_raw
    by (intros; unfold w1, nb; simpl; apply slot_at_alloc_new; lia).
  assert (∀ b, b ≠ nb → block_size (heap w1) b = block_size (heap w) b)
    as Hold_bs by (intros; by apply block_size_alloc_old).
  assert (∀ q, p_block q ≠ Some nb → slot_at (heap w1) q = slot_at (heap w) q)
    as Hold by (intros; by apply slot_at_alloc_old).
  assert (objs w1 = objs w ∧ fuse w1 = fuse w) as (Hobjs1 & Hfuse1) by done.
  assert (elem_size w1 = elem_size w) as Helem1 by done.
  assert (p_block buf ≠ Some nb) as Hbuf by done.
  change (length (heap w)) with nb. clearbody w1 nb.
  set (d := MkPtr (Some nb) 0).
  assert (∀ z, ptr_add d z = MkPtr (Some nb) z) as Hd by done.
  unfold unwinding, catch, RawMemory_plus, bind, assert, construct_from, ret.
  simpl. fold d.
  destruct (Z.of_nat i <=? C') eqn:Hle; [|apply Z.leb_gt in Hle; lia].
  (* the new element is built first, in slot i of the new block *)
  destruct (construct_at_spec (arg_op a) (ptr_add d (Z.of_nat i)) None (arg_value a) w1)
    as [(w2 & -> & Hev2 & Hp2 & Hl2)|(_ & Hne & _)]; [|..|congruence].
  { rewrite Hd. apply Hnew_raw. lia. }
  assert (∀ q, q ≠ ptr_add d (Z.of_nat i) → slot_at (heap w2) q = slot_at (heap w1) q) as Hfr2.
  { intros q Hq. apply (ev_frame _ _ _ Hev2). congruence. }
  assert (fuse w2 = None) as Hf2 by (apply (ev_fuse _ _ _ Hev2); congruence).
  (* the prefix moves to slots [0, i) *)
  destruct (relocate_spec w2 (take i l) buf d) as (o & w3 & Hrun3 & Hpost3).
  { done. }
  { intros j x Hx. apply lookup_take_Some in Hx as [Hx Hj].
    rewrite Hfr2 by by_block. rewrite Hold by done. by apply Hlive. }
  { intros j Hj. rewrite length_take in Hj. rewrite Hfr2 by by_offset.
    rewrite Hd. apply Hnew_raw. lia. }
  rewrite length_take, Nat.min_l in Hrun3, Hpost3 by done. rewrite Hrun3.
  destruct o as [[]|e| | |f]; try done; [|by destruct Hpost3 as (_ & ? & _)].
  destruct Hpost3 as (Hev3 & Hvals3 & Hl3).
  assert (fuse w3 = None) as Hf3 by (by apply (ev_fuse _ _ _ Hev3)).
  assert (∀ q, ¬ in_range d i q → ¬ in_range buf i q →
               slot_at (heap w3) q = slot_at (heap w2) q) as Hfr3.
  { intros q ??. apply (ev_frame _ _ _ Hev3). tauto. }
  (* the suffix moves to slots [i + 1, n + 1) *)
  rewrite (wrap_small (n - Z.of_nat i)) by lia.
  rewrite (wrap_small (Z.of_nat i + 1)) by lia.
  set (s := ptr_add buf (Z.of_nat i)). set (t := ptr_add d (Z.of_nat i + 1)).
  destruct (relocate_spec w3 (drop i l) s t) as (o & w4 & Hrun4 & Hpost4).
  { done. }
  { intros j x Hx. rewrite lookup_drop in Hx. unfold s. rewrite ptr_add_add.
    rewrite Hfr3, Hfr2, Hold; try done.
    - rewrite <- (Hlive _ _ Hx). f_equal. f_equal. lia.
    - by_block.
    - unfold in_range. simpl. intros [? _]. congruence.
    - unfold in_range. simpl. lia. }
  { intros j Hj. rewrite length_drop in Hj. unfold t. rewrite ptr_add_add.
    rewrite Hfr3, Hfr2.
    - rewrite Hd. apply Hnew_raw. lia.
    - by_offset.
    - unfold in_range. simpl. lia.
    - unfold in_range. simpl. intros [? _]. congruence. }
  rewrite length_drop in Hrun4, Hpost4.
  replace (Z.of_nat (length l - i)) with (n - Z.of_nat i) in Hrun4 by lia.
  rewrite Hrun4.
  destruct o as [[]|e| | |f]; try done; [|by destruct Hpost4 as (_ & ? & _)].
  destruct Hpost4 as (Hev4 & Hvals4 & Hl4).
  assert (fuse w4 = None) as Hf4 by (by apply (ev_fuse _ _ _ Hev4)).
  assert (∀ q, ¬ in_range t (length l - i) q → ¬ in_range s (length l - i) q →
               slot_at (heap w4) q = slot_at (heap w3) q) as Hfr4.
  { intros q ??. apply (ev_frame _ _ _ Hev4). tauto. }
  (* the old elements are destroyed *)
  destruct (destroy_loop_spec (length l) buf w4) as (w5 & Hrun5 & Hev5 & Hraw5 & Hf5 & Hl5).
  { intros j Hj. destruct (lookup_lt_is_Some_2 l j Hj) as [x Hx].
    destruct (decide (j < i)%nat) as [Hlt|Hge].
    - exists (reloc_left x). rewrite Hfr4.
      + apply Hvals3. apply lookup_take_Some. done.
      + unfold in_range, t. simpl. intros [? _]. congruence.
      + unfold in_range, s. simpl. lia.
    - exists (reloc_left x).
      destruct (Hvals4 (j - i)%nat x) as [_ Hsrc].
      { rewrite lookup_drop. by replace (i + (j - i))%nat with j by lia. }
      rewrite <- Hsrc. unfold s. rewrite ptr_add_add. f_equal. f_equal. lia. }
  unfold destroy_n. rewrite Hsz, Nat2Z.id, Hrun5.
  assert (objs w5 = objs w) as Hobjs.
  { rewrite (ev_objs _ _ _ Hev5), (ev_objs _ _ _ Hev4), (ev_objs _ _ _ Hev3),
      (ev_objs _ _ _ Hev2). done. }
  assert (∀ b, block_size (heap w5) b = block_size (heap w1) b) as Hbs.
  { intros b. by rewrite (ev_size _ _ _ Hev5), (ev_size _ _ _ Hev4), (ev_size _ _ _ Hev3),
      (ev_size _ _ _ Hev2). }
  assert (elem_size w5 = elem_size w) as Helem5
    by (by rewrite (ev_elem _ _ _ Hev5), (ev_elem _ _ _ Hev4), (ev_elem _ _ _ Hev3),
          (ev_elem _ _ _ Hev2)).
  erewrite store_obj_ok by (rewrite Hobjs; done).
  rewrite (RawMemory_dtor_frame w _ (data_ v) _ Hblk); [|done|]; cycle 1.
  { intros b Hb. simpl. rewrite Hbs, Hold_bs; [done|]. fold buf in Hb. congruence. }
  erewrite load_obj_ok by (simpl; rewrite Hobjs; by apply list_lookup_insert_eq).
  simpl. rewrite Hobjs. rewrite <- Hsz. fold n. rewrite wrap_small by lia.
  eexists. split; [done|]. simpl.
  split_and!; try done; [|by rewrite Hf5|intros b Hb; by apply release_gone].
  assert (∀ q, p_block q = Some nb →
               slot_at (release buf (heap w5)) q = slot_at (heap w4) q) as Hfin.
  { intros q Hq. rewrite slot_at_release by congruence.
    apply (ev_frame _ _ _ Hev5). unfold in_range. intros [? _]. congruence. }
  split; simpl.
  - rewrite length_inserted. lia.
  - lia.
  - right. exists nb. simpl. rewrite Helem5. split_and!; [done|lia|lia|].
    rewrite block_size_release by done. by rewrite Hbs.
  - intros j y Hy. rewrite Hfin by done. fold d.
    apply (lookup_inserted _ _ _ _ _ Hi) in Hy as [[Hj Hy]|[[-> ->]|[Hj Hy]]].
    + rewrite Hfr4.
      * apply Hvals3. by apply lookup_take_Some.
      * unfold in_range, t. simpl. lia.
      * unfold in_range, s. simpl. intros [? _]. congruence.
    + rewrite Hfr4, Hfr3; [done|..].
      * unfold in_range. simpl. lia.
      * unfold in_range. simpl. intros [? _]. congruence.
      * unfold in_range, t. simpl. lia.
      * unfold in_range, s. simpl. intros [? _]. congruence.
    + destruct (Hvals4 (j - 1 - i)%nat y) as [Hdst _].
      { rewrite lookup_drop. by replace (i + (j - 1 - i))%nat with (j - 1)%nat by lia. }
      rewrite <- Hdst. unfold t. rewrite ptr_add_add. f_equal. f_equal. lia.
  - intros z Hz. rewrite Hfin by done. fold d.
    rewrite Hfr4, Hfr3, Hfr2.
    + rewrite Hd. apply Hnew_raw. lia.
    + by_offset.
    + unfold in_range. simpl. lia.
    + unfold in_range. simpl. intros [? _]. congruence.
    + unfold in_range, t. simpl. lia.
    + unfold in_range, s. simpl. intros [? _]. congruence.
Qed.

End Emplace.

(** ** Insertion, round trips and growth *)

Section Insertion.
Context {T : Type} `{Elem T}.
Implicit Types (w : World T) (p q : Ptr) (v : Vector) (l : list T).
Local Open Scope Z_scope.

Lemma lookup_inserted_at l (i : nat) x :
  (i ≤ length l)%nat → (take i l ++ x :: drop i l) !! i = Some x.
Proof.
  intros Hi. rewrite lookup_app_r by (rewrite length_take; lia).
  rewrite length_take, Nat.min_l by done. by rewrite Nat.sub_diag.
Qed.

Lemma slot_at_released (h : list (option (list (Slot T)))) q :
  (∀ b, p_block q = Some b → block_size h b = None) → slot_at h q = None.
Proof.
  intros Hb. unfold slot_at. destruct (p_block q) as [b|]; [|done].
  specialize (Hb b eq_refl). unfold block_size in Hb.
  destruct (p_off q <? 0); [done|]. by destruct (h !! b) as [[blk|]|].
Qed.

(** X14: Emplace at position [begin() + i] of a Vector with spare capacity,
    when no element operation throws, inserts the new element before the one
    at [i]: the buffer and the capacity are kept, the elements from [i] on move
    one slot to the right, and the returned iterator is [pos] itself, which
    refers to the new element. *)
Theorem Emplace_in_place_inserts w this v l a (i : nat) :
  objs w !! this = Some (Some v) → holds w v l →
  Size v < Capacity v → (i ≤ length l)%nat → fuse w = None →
  let pos := ptr_add (begin_ v) (Z.of_nat i) in
  let l' := take i l ++ arg_value a :: drop i l in
  ∃ w' v', Vector_Emplace this pos a w = (Ok pos, w') ∧
        objs w' = <[this := Some v']> (objs w) ∧
        Size v' = Size v + 1 ∧ Capacity v' = Capacity v ∧ begin_ v' = begin_ v ∧
        holds w' v' l' ∧ contents w' v' = Some l' ∧
        read pos w' = (Ok (arg_value a), w').
Proof.
  intros Hobj Hh Hroom Hi Hf pos l'.
  destruct (Emplace_room w this v l a i Hobj Hh Hroom Hi Hf)
    as (w' & Hrun & Hobjs & Hh' & Hf').
  exists w', (MkVector (data_ v) (size_ v + 1)). split_and!; try done.
  - by apply holds_contents.
  - apply read_live. apply (holds_live _ _ _ Hh' i). by apply lookup_inserted_at.
Qed.

(** X15: Emplace at position [begin() + i] of a full Vector, when the
    allocation succeeds and no element operation throws, builds the Vector in
    a new block of max(1, 2 * Capacity()) slots with the new element at index
    [i] between the relocated prefix and suffix; the old block is released, so
    [pos] dangles, and the returned iterator points into the new block. *)
Theorem Emplace_growing_inserts w this v l a (i : nat) :
  objs w !! this = Some (Some v) → holds w v l →
  Size v = Capacity v → (i ≤ length l)%nat → fuse w = None →
  grown_capacity (Size v) ≤ alloc_limit w → 2 * Size v < 2 ^ 64 →
  let pos := ptr_add (begin_ v) (Z.of_nat i) in
  let l' := take i l ++ arg_value a :: drop i l in
  ∃ r w' v', Vector_Emplace this pos a w = (Ok r, w') ∧
        objs w' = <[this := Some v']> (objs w) ∧
        Size v' = Size v + 1 ∧ Capacity v' = Z.max 1 (2 * Capacity v) ∧
        begin_ v' = MkPtr (Some (length (heap w))) 0 ∧
        r = ptr_add (begin_ v') (Z.of_nat i) ∧
        holds w' v' l' ∧ contents w' v' = Some l' ∧
        read r w' = (Ok (arg_value a), w') ∧
        slot_at (heap w') pos = None.
Proof.
  intros Hobj Hh Hfull Hi Hf Hlim Hno pos l'.
  destruct (Emplace_grow w this v l a i Hobj Hh Hfull Hi Hf Hlim Hno)
    as (w' & Hrun & Hobjs & Hh' & Hf' & Hgone).
  eexists _, w', _. split; [exact Hrun|]. split; [exact Hobjs|].
  unfold Size, Capacity, RawMemory_Capacity, begin_, GetAddress in *. simpl.
  split_and!; try done.
  - by rewrite Hfull.
  - by apply holds_contents.
  - apply read_live. pose proof (holds_live _ _ _ Hh' i (arg_value a)) as Hl.
    simpl in Hl. apply Hl. by apply lookup_inserted_at.
  - apply slot_at_released. intros b Hb. apply Hgone. by rewrite <- Hb.
Qed.

(** X16: a PopBack after a PushBack that returned gives back a Vector of the
    former size holding the former elements; when the PushBack did not have to
    grow, the Vector object is exactly what it was. *)
Theorem PushBack_then_PopBack_restores w this v l by_move x w' :
  objs w !! this = Some (Some v) → holds w v l →
  Vector_PushBack this by_move x w = (Ok tt, w') →
  ∃ w'' v'', Vector_PopBack this w' = (Ok tt, w'') ∧
        objs w'' !! this = Some (Some v'') ∧
        Size v'' = Size v ∧ Capacity v ≤ Capacity v'' ∧
        holds w'' v'' l ∧ contents w'' v'' = contents w v ∧
        (Size v < Capacity v → v'' = v).
Proof.
  intros Hobj Hh Hrun. pose proof (lookup_lt_Some _ _ _ Hobj) as Hthis.
  set (a := MkArgs (if by_move then MoveCtor else CopyCtor) x).
  assert (∃ r, Vector_EmplaceBack this a w = (Ok r, w')) as [r Hrun'].
  { revert Hrun. unfold Vector_PushBack, bind. fold a.
    destruct (Vector_EmplaceBack this a w) as [[r| | | |] w0]; try done.
    intros [= ->]. eauto. }
  assert (∃ v', objs w' = <[this := Some v']> (objs w) ∧ holds w' v' (l ++ [x]) ∧
                size_ v' = size_ v + 1 ∧ capacity_ (data_ v) ≤ capacity_ (data_ v') ∧
                (size_ v < capacity_ (data_ v) → data_ v' = data_ v))
    as (v' & Hobjs' & Hh' & Hsz' & Hcap' & Hsame).
  { pose proof (holds_capacity _ _ _ Hh) as Hcap.
    destruct (decide (size_ v < capacity_ (data_ v))) as [Hroom|Hfull].
    - destruct (EmplaceBack_room w this v l a Hobj Hh Hroom) as (o & w0 & Hr & Hpost & _).
      rewrite Hrun' in Hr. injection Hr as <- <-. destruct Hpost as (_ & Ho & Hh0).
      eexists. split_and!; [exact Ho|exact Hh0|done|simpl; lia|done].
    - assert (size_ v = capacity_ (data_ v)) as Hfull' by lia.
      destruct (EmplaceBack_grow w this v l a Hobj Hh Hfull') as (o & w0 & Hr & Hpost & _).
      rewrite Hrun' in Hr. injection Hr as <- <-. destruct Hpost as (_ & Ho & Hh0).
      eexists. split_and!; [exact Ho|exact Hh0|done|simpl; lia|lia]. }
  assert (objs w' !! this = Some (Some v')) as Hobj'
    by (rewrite Hobjs'; by apply list_lookup_insert_eq).
  destruct (PopBack_spec w' this v' l x Hobj' Hh') as (w'' & Hpop & Hobjs'' & Hh'' & _).
  exists w'', (MkVector (data_ v') (Size v' - 1)). split_and!; try done.
  - rewrite Hobjs''. apply list_lookup_insert_eq. rewrite Hobjs', length_insert. done.
  - unfold Size. simpl. lia.
  - by rewrite (holds_contents _ _ _ Hh''), (holds_contents _ _ _ Hh).
  - unfold Size, Capacity, RawMemory_Capacity. intros Hroom. rewrite (Hsame Hroom), Hsz'.
    destruct v as [d n]. simpl. f_equal. lia.
Qed.

(** X17: erasing the element at [begin() + i] and inserting its value back at
    the iterator Erase returned restores the Vector: the same object, holding
    the same elements in the same buffer. *)
Theorem Erase_then_Insert_restores w this v l (i : nat) x by_move :
  objs w !! this = Some (Some v) → holds w v l → l !! i = Some x → fuse w = None →
  let pos := ptr_add (begin_ v) (Z.of_nat i) in
  ∃ w', (r ← Vector_Erase this pos; Vector_Insert this r by_move x) w = (Ok pos, w') ∧
        objs w' = objs w ∧ holds w' v l ∧ contents w' v = contents w v.
Proof.
  intros Hobj Hh Hx Hf pos. subst pos. unfold begin_, GetAddress.
  pose proof (lookup_lt_Some _ _ _ Hx) as Hi.
  pose proof (lookup_lt_Some _ _ _ Hobj) as Hthis.
  pose proof Hh as [Hsz Hcap _ _ _].
  destruct (Erase_valid w this v l i x Hobj Hh Hx) as (o & w1 & Hrun1 & Hpost1).
  destruct (keeps_env_Erase _ _ _ _ _ Hrun1) as [_ Hf1]. specialize (Hf1 Hf).
  destruct o as [r| | | |]; try done; [|by destruct Hpost1 as [_ ?]].
  destruct Hpost1 as (-> & Hobjs1 & Hh1 & _).
  set (v1 := MkVector (data_ v) (size_ v - 1)) in *.
  assert (objs w1 !! this = Some (Some v1)) as Hobj1
    by (rewrite Hobjs1; by apply list_lookup_insert_eq).
  set (a := MkArgs (if by_move then MoveCtor else CopyCtor) x).
  destruct (Emplace_room w1 this v1 (delete i l) a i Hobj1 Hh1)
    as (w2 & Hrun2 & Hobjs2 & Hh2 & Hf2); try done.
  { simpl. lia. }
  { rewrite length_delete by eauto. lia. }
  exists w2. split.
  { unfold bind. rewrite Hrun1. exact Hrun2. }
  assert (MkVector (data_ v1) (size_ v1 + 1) = v) as Heta.
  { unfold v1. simpl. destruct v as [d n]. simpl. f_equal. lia. }
  assert (take i (delete i l) ++ arg_value a :: drop i (delete i l) = l) as Hlist.
  { rewrite delete_take_drop.
    rewrite take_app_length', drop_app_length' by (rewrite length_take; lia).
    by apply take_drop_middle. }
  rewrite Heta in Hobjs2, Hh2. rewrite Hlist in Hh2. split_and!.
  - rewrite Hobjs2, Hobjs1, list_insert_insert_eq. by apply list_insert_id.
  - done.
  - by rewrite (holds_contents _ _ _ Hh2), (holds_contents _ _ _ Hh).
Qed.

(** X18: as long as a Vector grows by PushBack only, its capacity stays 0 or
    a power of two, never shrinks, and once it has grown it is below twice the
    size; the appends return when nothing throws and the allocator grants
    twice the final size. *)
Theorem PushBack_capacity_stays_doubled w this v l0 l :
  objs w !! this = Some (Some v) → holds w v l0 →
  Capacity v = 0 ∨ doubled (Capacity v) →
  (∀ w', push_all this l w = (Ok tt, w') →
     ∃ v', objs w' !! this = Some (Some v') ∧ holds w' v' (l0 ++ l) ∧
           (Capacity v' = 0 ∨ doubled (Capacity v')) ∧
           Capacity v ≤ Capacity v' ∧
           (Capacity v' = Capacity v ∨ Capacity v' < 2 * Size v')) ∧
  (fuse w = None → 2 * (Size v + Z.of_nat (length l)) ≤ alloc_limit w →
   2 * (Size v + Z.of_nat (length l)) < 2 ^ 64 →
   ∃ w', push_all this l w = (Ok tt, w')).
Proof.
  revert w v l0. induction l as [|x l IH]; intros w v l0 Hobj Hh Hcap.
  { split.
    - intros w' [= <-]. exists v. rewrite app_nil_r. split_and!; try done. by left.
    - intros. by exists w. }
  set (a := MkArgs CopyCtor x).
  assert (∀ r w1, Vector_EmplaceBack this a w = (Ok r, w1) →
            ∃ v1, objs w1 !! this = Some (Some v1) ∧ holds w1 v1 (l0 ++ [x]) ∧
                  Size v1 = Size v + 1 ∧
                  (Capacity v1 = 0 ∨ doubled (Capacity v1)) ∧
                  Capacity v ≤ Capacity v1 ∧
                  (Capacity v1 = Capacity v ∨ Capacity v1 < 2 * Size v1)) as Hstep.
  { intros r w1 Hrun.
    destruct (EmplaceBack_ok w this v l0 a r w1 Hobj Hh Hrun)
      as (v1 & Hobj1 & Hsz1 & Hh1 & _ & _ & Hgrow & Hkeep).
    pose proof (holds_capacity _ _ _ Hh) as Hc. pose proof (holds_size _ _ _ Hh) as Hs.
    unfold Size, Capacity, RawMemory_Capacity in *.
    exists v1. split_and!; try done.
    - destruct (decide (size_ v < capacity_ (data_ v))) as [Hroom|Hfull].
      + by rewrite (Hkeep Hroom).
      + rewrite Hgrow by lia. right. destruct Hcap as [->|[m ->]].
        * by exists 0%nat.
        * exists (S m). rewrite Nat2Z.inj_succ, Z.pow_succ_r by lia.
          assert (0 < 2 ^ Z.of_nat m) by (apply Z.pow_pos_nonneg; lia). lia.
    - destruct (decide (size_ v < capacity_ (data_ v))) as [Hroom|Hfull].
      + rewrite (Hkeep Hroom). lia.
      + rewrite Hgrow by lia. lia.
    - destruct (decide (size_ v < capacity_ (data_ v))) as [Hroom|Hfull].
      + left. by apply Hkeep.
      + right. rewrite Hgrow by lia. lia. }
  split.
  - intros w' Hrun. simpl in Hrun. unfold Vector_PushBack, bind in Hrun. fold a in Hrun.
    destruct (Vector_EmplaceBack this a w) as [[r| | | |] w1] eqn:Hrun1; try done.
    unfold ret in Hrun.
    destruct (Hstep r w1 eq_refl) as (v1 & Hobj1 & Hh1 & Hsz1 & Hcap1 & Hle1 & Hbound1).
    destruct (IH w1 v1 (l0 ++ [x]) Hobj1 Hh1 Hcap1) as [Hpost _].
    destruct (Hpost w' Hrun) as (v' & Hobj' & Hh' & Hcap' & Hle' & Hbound').
    exists v'. rewrite <- app_assoc in Hh'. split_and!; try done; [lia|].
    pose proof (holds_size _ _ _ Hh') as Hs'. pose proof (holds_size _ _ _ Hh1) as Hs1.
    rewrite !length_app in Hs'. rewrite length_app in Hs1. simpl in *.
    unfold Size in *.
    destruct Hbound' as [Heq|Hlt]; [|by right].
    destruct Hbound1 as [Heq1|Hlt1]; [left; congruence|right]. lia.
  - intros Hf Hlim Hno. simpl length in Hlim, Hno.
    pose proof (holds_capacity _ _ _ Hh) as Hc. pose proof (holds_size _ _ _ Hh) as Hs.
    destruct (EmplaceBack_returns w this v l0 a Hobj Hh Hf) as (r & w1 & Hrun1).
    { unfold Size, Capacity, RawMemory_Capacity in *.
      destruct (decide (size_ v < capacity_ (data_ v))) as [Hroom|Hfull]; [by left|right].
      split; [|lia]. rewrite grown_capacity_spec by lia. lia. }
    destruct (keeps_env_EmplaceBack _ _ _ _ _ Hrun1) as [Hlim1 Hf1].
    destruct (Hstep r w1 Hrun1) as (v1 & Hobj1 & Hh1 & Hsz1 & Hcap1 & _).
    destruct (IH w1 v1 (l0 ++ [x]) Hobj1 Hh1 Hcap1) as [_ Hret].
    destruct Hret as [w' Hrun']; [auto|rewrite Hlim1, Hsz1; lia|rewrite Hsz1; lia|].
    exists w'. simpl. unfold Vector_PushBack, bind. fold a. by rewrite Hrun1.
Qed.

End Insertion.

(** ** Failures, RawMemory's move assignment and requests that wrap *)

Section FurtherProperties.
Context {T : Type} `{Elem T}.
Implicit Types (w : World T) (p q : Ptr) (v : Vector) (l : list T).
Local Open Scope Z_scope.

(** X20: the move assignment of RawMemory from another object takes over the
    buffer and capacity of [rhs], leaves [rhs] empty, so that its destructor
    releases nothing, and releases the buffer [*this] had; assignment from
    itself changes nothing. *)
Theorem RawMemory_move_assign_releases_old w this rhs :
  owns_block w this →
  (∃ w', RawMemory_move_assign false this rhs w = (Ok (rhs, RawMemory_default), w') ∧
         heap w' = release (buffer_ this) (heap w) ∧
         objs w' = objs w ∧ log w' = log w ∧ fuse w' = fuse w ∧
         (∀ b, p_block (buffer_ this) = Some b → block_size (heap w') b = None) ∧
         (owns_block w rhs → p_block (buffer_ rhs) ≠ p_block (buffer_ this) →
          owns_block w' rhs) ∧
         RawMemory_dtor RawMemory_default w' = (Ok tt, w')) ∧
  RawMemory_move_assign true this this w = (Ok (this, this), w).
Proof.
  intros Hown. split; [|done].
  unfold RawMemory_move_assign, noexcept, bind. simpl.
  assert (MkRawMemory (buffer_ this) (capacity_ this) = this) as -> by (by destruct this).
  assert (MkRawMemory (buffer_ rhs) (capacity_ rhs) = rhs) as -> by (by destruct rhs).
  rewrite (RawMemory_dtor_spec _ _ Hown). unfold ret.
  eexists. split; [done|]. simpl. split_and!; try done.
  - intros b Hb. by apply release_gone.
  - intros Hrhs Hne. apply (owns_block_frame w); [done|done|]. intros b Hb. simpl.
    rewrite block_size_release; [done|]. congruence.
Qed.

(** X21: on a full, non-empty Vector whose Size() is already more than the
    allocator grants, every operation that needs a new block throws
    std::bad_alloc and leaves the world exactly as it was: the growing
    EmplaceBack and Emplace, which ask for twice the size, the copy
    constructor, which asks for Size() slots, and Reserve(k) for every [k]
    above the capacity whose request, in bytes as the allocator sees it, is
    above the limit. *)
Theorem failed_allocation_changes_nothing w this v l :
  objs w !! this = Some (Some v) → holds w v l →
  Size v = Capacity v → Size v ≠ 0 → alloc_limit w < Size v →
  (∀ a, Vector_EmplaceBack this a w = (Throw bad_alloc, w)) ∧
  (∀ a k, 0 ≤ k ≤ Size v →
          Vector_Emplace this (ptr_add (begin_ v) k) a w = (Throw bad_alloc, w)) ∧
  Vector_copy_ctor this w = (Throw bad_alloc, w) ∧
  (∀ k, Capacity v < k → alloc_limit w * sizeof w < requested_bytes w k →
        Vector_Reserve this k w = (Throw bad_alloc, w)).
Proof.
  intros Hobj Hh Hfull Hnz Hlim. pose proof Hh as [Hsz Hcap _ _ _].
  pose proof (holds_max_slots _ _ _ Hh) as Hmax.
  unfold Size, Capacity, RawMemory_Capacity, begin_, GetAddress in *.
  rewrite <- Hfull in Hmax.
  pose proof (max_slots_doubled_fits w (size_ v) Hmax) as Hdouble.
  pose proof (sizeof_pos w) as Hspos.
  assert (2 * size_ v < 2 ^ 64) as Hno by nia.
  assert (grown_capacity (size_ v) = 2 * size_ v) as Hg
    by (rewrite grown_capacity_spec; lia).
  assert (RawMemory_ctor (grown_capacity (size_ v)) w = (Throw bad_alloc, w)) as Hgrow.
  { rewrite RawMemory_ctor_spec; [|lia|by rewrite Hg].
    by assert ((grown_capacity (size_ v) <=? alloc_limit w) = false) as ->
      by (apply Z.leb_gt; lia). }
  split_and!.
  - intros a. unfold Vector_EmplaceBack, bind. rewrite (load_obj_ok _ _ _ Hobj).
    unfold Capacity, RawMemory_Capacity. rewrite bool_decide_true by done.
    by rewrite Hgrow.
  - intros a k Hk. unfold Vector_Emplace, bind. rewrite (load_obj_ok _ _ _ Hobj).
    rewrite check_position_same by done. rewrite position_assertion_in by lia.
    unfold assert. cbv beta iota.
    unfold Capacity, RawMemory_Capacity. rewrite bool_decide_true by done.
    by rewrite Hgrow.
  - unfold Vector_copy_ctor, Vector_copy, bind.
    rewrite (load_obj_ok _ _ _ Hobj).
    rewrite RawMemory_ctor_spec; [|done|apply max_slots_fits; lia].
    by assert ((size_ v <=? alloc_limit w) = false) as -> by (apply Z.leb_gt; lia).
  - intros k Hk Hbytes. unfold Vector_Reserve, bind. rewrite (load_obj_ok _ _ _ Hobj).
    unfold Capacity, RawMemory_Capacity.
    assert ((k <=? capacity_ (data_ v)) = false) as -> by (apply Z.leb_gt; lia).
    rewrite RawMemory_ctor_cases by lia.
    by assert ((requested_bytes w k <=? alloc_limit w * sizeof w) = false) as ->
      by (apply Z.leb_gt; lia).
Qed.

(** X22: when the constructor of the new element throws in an EmplaceBack
    that has spare capacity, nothing was changed: the heap, the Vector
    objects and the log are as before and the Vector holds its elements. *)
Theorem EmplaceBack_in_place_failure_changes_nothing w this v l a e w' :
  objs w !! this = Some (Some v) → holds w v l → Size v < Capacity v →
  Vector_EmplaceBack this a w = (Throw e, w') →
  heap w' = heap w ∧ objs w' = objs w ∧ log w' = log w ∧
  alloc_limit w' = alloc_limit w ∧ fuse w' = None ∧
  holds w' v l ∧ contents w' v = Some l ∧ balance w' = balance w.
Proof.
  intros Hobj Hh Hroom Hrun.
  destruct (EmplaceBack_room w this v l a Hobj Hh Hroom) as (o & w0 & Hr & Hpost & _).
  rewrite Hrun in Hr. injection Hr as <- <-. subst w'.
  assert (holds (set_fuse None w) v l) as Hh' by (eapply holds_frame; [exact Hh|solve_elem|done..]).
  split_and!; try done. by apply holds_contents.
Qed.

(** X23: a Reserve that throws leaves every Vector object as it was, and for
    a T that is relocated by copy the Vector still holds its elements in its
    old buffer. *)
Theorem Reserve_failure_keeps_elements w this v l k e w' :
  objs w !! this = Some (Some v) → holds w v l → Capacity v < k < 2 ^ 64 →
  Vector_Reserve this k w = (Throw e, w') →
  objs w' = objs w ∧
  (relocate_by_move = false → holds w' v l ∧ contents w' v = contents w v) ∧
  alloc_limit w' = alloc_limit w.
Proof.
  intros Hobj Hh Hk Hrun.
  destruct (Reserve_grow w this v l k Hobj Hh Hk) as (o & w0 & Hr & Hpost & _).
  rewrite Hrun in Hr. injection Hr as <- <-. destruct Hpost as [Hobjs Hkeep].
  split_and!; try done.
  - intros Hcopy. specialize (Hkeep Hcopy). split; [done|].
    by rewrite (holds_contents _ _ _ Hkeep), (holds_contents _ _ _ Hh).
  - by destruct (keeps_env_Reserve _ _ _ _ _ Hrun).
Qed.

(** X24: the copy assignment to an empty Vector whose capacity suffices
    copy-constructs the elements of [rhs] into the existing buffer; the two
    Vectors then hold the same elements. *)
Theorem copy_assign_into_empty_with_capacity w a b va vb lb :
  a ≠ b → objs w !! a = Some (Some va) → objs w !! b = Some (Some vb) →
  holds w va [] → holds w vb lb →
  p_block (begin_ va) ≠ p_block (begin_ vb) →
  fuse w = None → lb ≠ [] → Size vb ≤ Capacity va →
  ∃ w' va', Vector_copy_assign a b w = (Ok tt, w') ∧
        objs w' = <[a := Some va']> (objs w) ∧
        begin_ va' = begin_ va ∧ Capacity va' = Capacity va ∧ Size va' = Size vb ∧
        holds w' va' lb ∧ holds w' vb lb ∧
        contents w' va' = contents w' vb.
Proof.
  intros Hne Ha Hb Hha Hhb Hblk Hf Hnil Hcap.
  unfold begin_, Size, Capacity, RawMemory_Capacity, GetAddress in *.
  destruct (copy_assign_in_place_longer w a b va vb [] lb Hne Ha Hb Hha Hhb Hblk Hf)
    as (w' & Hrun & Hobjs & Hha' & Hhb').
  { destruct lb; [done|simpl; lia]. }
  { by rewrite <- (holds_size _ _ _ Hhb). }
  simpl in Hha'. rewrite Nat.sub_0_r, firstn_all in Hha'.
  exists w', (MkVector (data_ va) (size_ vb)). split_and!; try done.
  by rewrite (holds_contents _ _ _ Hha'), (holds_contents _ _ _ Hhb').
Qed.

(** X25: destroying the Vector a copy construction returned undoes the copy:
    as many elements are destroyed as were constructed, the new block is
    released, the source still holds its elements, and the count of live
    elements is what it was. *)
Theorem copy_then_destroy_restores w other v l a w' :
  objs w !! other = Some (Some v) → holds w v l →
  Vector_copy_ctor other w = (Ok a, w') →
  ∃ w'' v', objs w' !! a = Some (Some v') ∧
         Vector_dtor a w' = (Ok tt, w'') ∧
         objs w'' = objs w ++ [None] ∧
         holds w'' v l ∧
         balance w' = balance w + Size v ∧ balance w'' = balance w ∧
         live_elements w'' = live_elements w ∧
         (∀ b, p_block (begin_ v') = Some b → block_size (heap w'') b = None).
Proof.
  intros Hobj Hh Hctor.
  destruct (Vector_copy_spec w v l Hh) as (o & w1 & Hrun & Hco & Hpost & _).
  pose proof (owns_block_fresh _ _ (holds_block _ _ _ Hh)) as Hfresh.
  assert (holds w1 v l) as Hh1.
  { eapply holds_preserved; [exact Hh|exact Hco|]. intros b Hb <-. congruence. }
  unfold Vector_copy_ctor, bind in Hctor. rewrite (load_obj_ok _ _ _ Hobj), Hrun in Hctor.
  destruct o as [v'|e| | |f]; try done.
  destruct Hpost as (Hsz' & Hcap' & Hbuf' & Hh' & Hl').
  unfold new_obj in Hctor. injection Hctor as <- <-.
  set (w' := set_objs (objs w1 ++ [Some v']) w1).
  assert (holds w' v' l) as Hh'w by (eapply holds_frame; [exact Hh'|solve_elem|done..]).
  assert (holds w' v l) as Hhw by (eapply holds_frame; [exact Hh1|solve_elem|done..]).
  destruct (Vector_destroy_spec w' v' l Hh'w) as (w2 & Hrun2 & Hco2 & Hf2 & Hgone2 & Hl2).
  assert (objs w' !! length (objs w1) = Some (Some v')) as Hobj'
    by (unfold w'; simpl; by rewrite lookup_app_r, Nat.sub_diag by lia).
  exists (set_objs (<[length (objs w1) := None]> (objs w')) w2), v'.
  split; [done|]. split.
  { unfold Vector_dtor, bind. rewrite (load_obj_ok _ _ _ Hobj'), Hrun2.
    unfold kill_obj. by rewrite (co_objs _ _ _ Hco2), Hobj'. }
  assert (balance w1 = balance w + Z.of_nat (length l)) as Hb1
    by (by apply (balance_constructed w w1 _ _ _ _ Hl')).
  assert (balance w2 = balance w' - Z.of_nat (length l)) as Hb2
    by (by apply (balance_destroyed w' w2 _ _ _ Hl2)).
  unfold Size. rewrite (holds_size _ _ _ Hh). simpl.
  split_and!.
  - rewrite (co_objs _ _ _ Hco).
    rewrite insert_app_r_alt, Nat.sub_diag by lia. done.
  - apply (holds_frame w2); [|done..].
    eapply holds_preserved; [exact Hhw|exact Hco2|].
    intros b Hb Hb'. unfold block_of in Hb'.
    destruct Hbuf' as [[Hnull _]|Hnew]; [by rewrite Hnull in Hb'|].
    rewrite Hnew in Hb'. simpl in Hb'. congruence.
  - done.
  - transitivity (balance w2); [done|]. rewrite Hb2.
    transitivity (balance w1 - Z.of_nat (length l)); [done|]. lia.
  - rewrite (live_elements_kill _ _ _ _ Hobj'). unfold w' at 1. simpl.
    rewrite live_elements_new, (co_objs _ _ _ Hco), Hsz', (holds_size _ _ _ Hh).
    rewrite (live_elements_objs w (set_objs (objs w) w2)) by done. lia.
  - intros b Hb. by apply Hgone2.
Qed.

(** X27: Reserve(k) on an empty Vector, for a [k] whose byte count
    [k * sizeof(T)] wraps around [size_t] to a request the allocator grants:
    Reserve returns, Capacity() reports [k], and the buffer is a block of
    fewer than [k] slots, as many as the wrapped byte count holds.  The
    Vector no longer satisfies its invariant: its capacity is not the size of
    its block. *)
Theorem Reserve_wrapped_request_undersized w this v k :
  objs w !! this = Some (Some v) → holds w v [] → Capacity v < k < 2 ^ 64 →
  2 ^ 64 ≤ k * sizeof w → requested_bytes w k ≤ alloc_limit w * sizeof w →
  let v' := MkVector (MkRawMemory (MkPtr (Some (length (heap w))) 0) k) 0 in
  ∃ w', Vector_Reserve this k w = (Ok tt, w') ∧
        objs w' = <[this := Some v']> (objs w) ∧
        Capacity v' = k ∧ Size v' = 0 ∧
        block_size (heap w') (length (heap w)) = Some (granted_slots w k) ∧
        Z.of_nat (granted_slots w k) < k ∧
        ¬ holds w' v' [].
Proof.
  intros Hobj Hh Hk Hwrap Hgrant v'. pose proof Hh as [Hsz Hcap Hblk _ _].
  unfold Capacity, RawMemory_Capacity in Hk. simpl in Hsz.
  pose proof (owns_block_fresh _ _ Hblk) as Hfresh.
  unfold Vector_Reserve, bind. rewrite (load_obj_ok _ _ _ Hobj).
  unfold Capacity, RawMemory_Capacity.
  assert ((k <=? capacity_ (data_ v)) = false) as -> by (apply Z.leb_gt; lia).
  rewrite RawMemory_ctor_cases by lia.
  rewrite (proj2 (Z.leb_le _ _) Hgrant).
  set (nb := length (heap w)) in *. set (m := granted_slots w k).
  set (w1 := set_heap _ w).
  unfold unwinding, catch, destroy_n. rewrite relocate_unfold, Hsz. simpl.
  erewrite store_obj_ok by done.
  rewrite (RawMemory_dtor_frame w _ (data_ v) _ Hblk); [|done|]; cycle 1.
  { intros b Hb. simpl. apply block_size_alloc_old. fold nb. congruence. }
  assert (block_size (release (buffer_ (data_ v)) (heap w1)) nb = Some m) as Hbs.
  { rewrite block_size_release by done. unfold w1, nb. simpl.
    by rewrite block_size_alloc_new, length_replicate. }
  pose proof (granted_slots_wrapped w k ltac:(lia) Hwrap) as Hless. fold m in Hless.
  eexists. split; [done|]. simpl. split_and!; try done.
  intros [_ _ Hown _ _]. destruct Hown as [[? _]|(b & Hb & _ & Hsize)]; [done|].
  unfold v' in Hb, Hsize. simpl in Hb, Hsize. injection Hb as <-.
  change (heap w ++ _) with (heap w1) in Hsize. rewrite Hbs in Hsize.
  injection Hsize as Hsize. lia.
Qed.

End FurtherProperties.

(** ** The theorems at concrete Vectors *)

Import IntScenarios.
Local Open Scope Z_scope.

Lemma holds_three : holds three three_vec [1; 2; 3].
Proof.
  apply holds_intro; [reflexivity|simpl; lia|].
  right. exists 2%nat. split_and!; [reflexivity|simpl; lia|by vm_compute|reflexivity].
Qed.

Lemma holds_two : holds two two_vec [1; 2].
Proof.
  apply holds_intro; [reflexivity|simpl; lia|].
  right. exists 1%nat. split_and!; [reflexivity|simpl; lia|by vm_compute|reflexivity].
Qed.

Lemma holds_ten : holds ten ten_vec [0; 1; 2; 3; 4; 5; 6; 7; 8; 9].
Proof.
  apply holds_intro; [reflexivity|simpl; lia|].
  right. exists 4%nat. split_and!; [reflexivity|simpl; lia|by vm_compute|reflexivity].
Qed.

Lemma holds_throwing_two k :
  holds (ThrowingScenarios.two k) ThrowingScenarios.two_vec [1; 2].
Proof.
  apply holds_intro; [reflexivity|simpl; lia|].
  right. exists 1%nat. split_and!; [reflexivity|simpl; lia|by vm_compute|reflexivity].
Qed.

(** Reserve(10) on [1, 2, 3] with capacity 4. *)
Lemma Reserve_frame_witness :
  objs three !! 0%nat = Some (Some three_vec) ∧ holds three three_vec [1; 2; 3] ∧
  0 ≤ 10 < 2 ^ 64 ∧
  (10 ≤ Capacity three_vec → @Vector_Reserve Z int_elem 0 10 three = (Ok tt, three)) ∧
  (Capacity three_vec < 10 →
     (∀ w', @Vector_Reserve Z int_elem 0 10 three = (Ok tt, w') →
        ∃ v', objs w' !! 0%nat = Some (Some v') ∧
              Z.max 10 (Capacity three_vec) ≤ Capacity v' ∧ Size v' = Size three_vec ∧
              contents w' v' = contents three three_vec ∧
              (10 * sizeof three < 2 ^ 64 → holds w' v' [1; 2; 3])) ∧
     (fuse three = None → 10 ≤ alloc_limit three →
      ∃ w', @Vector_Reserve Z int_elem 0 10 three = (Ok tt, w'))).
Proof.
  assert (objs three !! 0%nat = Some (Some three_vec)) as H1 by reflexivity.
  assert (0 ≤ 10 < 2 ^ 64) as H3 by lia.
  split; [exact H1|]. split; [exact holds_three|]. split; [exact H3|].
  exact (@Reserve_frame Z int_elem three 0%nat three_vec [1; 2; 3] 10 H1 holds_three H3).
Defined.

(** An append to [1, 2] with capacity 2. *)
Lemma append_doubles_capacity_witness :
  objs two !! 0%nat = Some (Some two_vec) ∧ holds two two_vec [1; 2] ∧
  (∀ a r w', @Vector_EmplaceBack Z int_elem 0 a two = (Ok r, w') →
     ∃ v', objs w' !! 0%nat = Some (Some v') ∧ Size v' = Size two_vec + 1 ∧
           contents w' v' = Some ([1; 2] ++ [arg_value a]) ∧
           element w' v' (Z.to_nat (Size v' - 1)) = Some (arg_value a) ∧
           @read Z r w' = (Ok (arg_value a), w') ∧
           (Size two_vec = Capacity two_vec →
            Capacity v' = Z.max 1 (2 * Capacity two_vec))) ∧
  (∀ by_move x w', @Vector_PushBack Z int_elem 0 by_move x two = (Ok tt, w') →
     ∃ v', objs w' !! 0%nat = Some (Some v') ∧ Size v' = Size two_vec + 1 ∧
           contents w' v' = Some ([1; 2] ++ [x]) ∧
           element w' v' (Z.to_nat (Size v' - 1)) = Some x ∧
           (Size two_vec = Capacity two_vec →
            Capacity v' = Z.max 1 (2 * Capacity two_vec))) ∧
  (fuse two = None →
   Size two_vec < Capacity two_vec ∨
   (grown_capacity (Size two_vec) ≤ alloc_limit two ∧ 2 * Size two_vec < 2 ^ 64) →
   ∀ by_move x, ∃ w', @Vector_PushBack Z int_elem 0 by_move x two = (Ok tt, w')).
Proof.
  assert (objs two !! 0%nat = Some (Some two_vec)) as H1 by reflexivity.
  split; [exact H1|]. split; [exact holds_two|].
  exact (@append_doubles_capacity Z int_elem two 0%nat two_vec [1; 2] H1 holds_two).
Defined.

(** A growing EmplaceBack on [1, 2] whose second relocation copy throws. *)
Lemma growing_EmplaceBack_strong_guarantee_witness :
  let w := ThrowingScenarios.two 1 in
  let v := ThrowingScenarios.two_vec in
  let a := MkArgs ArgsCtor 99 in
  let w' := exec (@Vector_EmplaceBack Z throwing_elem 0 a) w in
  let new_block := MkPtr (Some (length (heap w))) 0 in
  let new_element := ptr_add new_block (Size v) in
  objs w !! 0%nat = Some (Some v) ∧ holds w v [1; 2] ∧ Size v = Capacity v ∧
  @Vector_EmplaceBack Z throwing_elem 0 a w = (Throw element_failure, w') ∧
  objs w' = objs w ∧
  balance w' = balance w ∧
  (@relocate_by_move Z throwing_elem = false →
   holds w' v [1; 2] ∧ contents w' v = contents w v) ∧
  (log w' = log w ∨
   (∃ j, (j < length [1; 2])%nat ∧
         log w' = @failed_growth_log Z throwing_elem a new_element new_block
                    (buffer_ (data_ v)) j ++ log w) ∧
   destroyed_at new_element (log w') = S (destroyed_at new_element (log w))).
Proof.
  intros w v a w' new_block new_element.
  assert (objs w !! 0%nat = Some (Some v)) as H1 by reflexivity.
  assert (Size v = Capacity v) as H3 by reflexivity.
  assert (@Vector_EmplaceBack Z throwing_elem 0 a w = (Throw element_failure, w')) as H4
    by (vm_compute; reflexivity).
  split; [exact H1|]. split; [exact (holds_throwing_two 1)|]. split; [exact H3|].
  split; [exact H4|].
  exact (@growing_EmplaceBack_strong_guarantee Z throwing_elem w 0%nat v [1; 2] a
           element_failure w' H1 (holds_throwing_two 1) H3 H4).
Defined.

(** Move construction from [1, 2, 3]. *)
Lemma move_ctor_steals_witness :
  objs three !! 0%nat = Some (Some three_vec) ∧
  ∃ w', @Vector_move_ctor Z int_elem 0 three = (Ok (length (objs three)), w') ∧
        objs w' !! length (objs three) = Some (Some three_vec) ∧
        contents w' three_vec = contents three three_vec ∧
        (∃ o, objs w' !! 0%nat = Some (Some o) ∧ Size o = 0 ∧ Capacity o = 0 ∧
              contents w' o = Some []) ∧
        heap w' = heap three ∧ log w' = log three.
Proof.
  assert (objs three !! 0%nat = Some (Some three_vec)) as H1 by reflexivity.
  split; [exact H1|].
  exact (@move_ctor_steals Z int_elem three 0%nat three_vec H1).
Defined.

(** Erase(begin() + 3) on [0, ..., 9]: the Vector becomes
    [0, 1, 2, 4, 5, 6, 7, 8, 9] and the returned iterator refers to 4. *)
Lemma Erase_shifts_left_witness :
  let l := [0; 1; 2; 3; 4; 5; 6; 7; 8; 9] in
  let pos := ptr_add (begin_ ten_vec) (Z.of_nat 3) in
  objs ten !! 0%nat = Some (Some ten_vec) ∧ holds ten ten_vec l ∧ l !! 3%nat = Some 3 ∧
  (∀ r w', @Vector_Erase Z int_elem 0 pos ten = (Ok r, w') →
     r = pos ∧
     ∃ v', objs w' !! 0%nat = Some (Some v') ∧
        Size v' = Size ten_vec - 1 ∧ Capacity v' = Capacity ten_vec ∧
        begin_ v' = begin_ ten_vec ∧
        holds w' v' (delete 3%nat l) ∧ contents w' v' = Some (delete 3%nat l) ∧
        log w' = EvDestroy (Some (ptr_add (begin_ ten_vec) (Size ten_vec - 1))) ::
                 rev (move_assign_events pos (ptr_add pos 1) 0 (length l - 1 - 3)) ++ log ten ∧
        (∀ y, l !! 4%nat = Some y → @read Z r w' = (Ok y, w'))) ∧
  (@quiet Z int_elem MoveAssign ten →
   ∃ w', @Vector_Erase Z int_elem 0 pos ten = (Ok pos, w')) ∧
  (∃ w', @Vector_Erase Z int_elem 0 pos ten = (Ok pos, w') ∨
         @Vector_Erase Z int_elem 0 pos ten = (Terminate, w')).
Proof.
  intros l pos.
  assert (objs ten !! 0%nat = Some (Some ten_vec)) as H1 by reflexivity.
  assert (l !! 3%nat = Some 3) as H3 by reflexivity.
  split; [exact H1|]. split; [exact holds_ten|]. split; [exact H3|].
  exact (@Erase_shifts_left Z int_elem ten 0%nat ten_vec l 3%nat 3 H1 holds_ten H3).
Defined.

(** Scenario 3 of the specification, by evaluation. *)
Example Erase_scenario :
  ∃ w', @Vector_Erase Z int_elem 0 (ptr_add (begin_ ten_vec) 3) ten =
          (Ok (ptr_add (begin_ ten_vec) 3), w') ∧
        contents_at w' 0 = Some [0; 1; 2; 4; 5; 6; 7; 8; 9] ∧
        outcome (@Vector_Size Z 0) w' = Ok 9 ∧
        outcome (@read Z (ptr_add (begin_ ten_vec) 3)) w' = Ok 4.
Proof. eexists. split; [vm_compute; reflexivity|]. repeat apply conj; vm_compute; reflexivity. Qed.

(** Scenario 1 of the specification: three appends to an empty Vector. *)
Example PushBack_scenario :
  contents_at three 0 = Some [1; 2; 3] ∧ objs three !! 0%nat = Some (Some three_vec) ∧
  Size three_vec = 3 ∧ Capacity three_vec = 4.
Proof. repeat apply conj; vm_compute; reflexivity. Qed.

(** ** The further theorems at concrete Vectors *)

Import PairScenarios.

Lemma holds_pair_first : holds pair first_vec [1; 2].
Proof.
  apply holds_intro; [reflexivity|simpl; lia|].
  right. exists 1%nat. split_and!; [reflexivity|simpl; lia|by vm_compute|reflexivity].
Qed.

Lemma holds_pair_second : holds pair second_vec [7].
Proof.
  apply holds_intro; [reflexivity|simpl; lia|].
  right. exists 2%nat. split_and!; [reflexivity|simpl; lia|by vm_compute|reflexivity].
Qed.

Lemma holds_reserved : holds reserved reserved_vec [].
Proof.
  apply holds_intro; [reflexivity|simpl; lia|].
  right. exists 0%nat. split_and!; [reflexivity|simpl; lia|by vm_compute|reflexivity].
Qed.

Lemma holds_source : holds reserved source_vec [7; 8; 9].
Proof.
  apply holds_intro; [reflexivity|simpl; lia|].
  right. exists 3%nat. split_and!; [reflexivity|simpl; lia|by vm_compute|reflexivity].
Qed.

Lemma holds_throwing_three k : holds (ThrowingRoom.three k) ThrowingRoom.three_vec [1; 2; 3].
Proof.
  apply holds_intro; [reflexivity|simpl; lia|].
  right. exists 2%nat. split_and!; [reflexivity|simpl; lia|by vm_compute|reflexivity].
Qed.

Lemma holds_full : holds full IntScenarios.two_vec [1; 2].
Proof.
  apply holds_intro; [reflexivity|simpl; lia|].
  right. exists 1%nat. split_and!; [reflexivity|simpl; lia|by vm_compute|reflexivity].
Qed.

Lemma holds_empty : holds empty_one empty_vec [].
Proof. apply holds_intro; [reflexivity|simpl; lia|by left]. Qed.

(** [Allocate(2^62 + 1)] for [int] asks for 4 bytes and gets one slot.
    Reserve(2^62 + 1) on [1, 2, 3] then relocates the first element and
    constructs the second one past the end of that block. *)
Lemma wrapped_request_scenario :
  requested_bytes empty_one wrapping_count = 4 ∧
  granted_slots empty_one wrapping_count = 1%nat ∧
  outcome (@Vector_Reserve Z int_elem 0 wrapping_count) three =
    Undefined (NotRaw (MkPtr (Some 3%nat) 1)).
Proof. split_and!; by vm_compute. Qed.

Section IntWitnesses.
#[local] Existing Instance int_elem.

(** The destructor of [1, 2, 3]. *)
Lemma dtor_destroys_every_element_witness :
  (objs three !! 0%nat = Some (Some three_vec)
   ∧ holds three three_vec [1; 2; 3]
     ∧ ∃ w' : World Z,
         Vector_dtor 0 three = (Ok (), w')
         ∧ objs w' = <[0%nat:=None]> (objs three)
           ∧ log w' =
             rev (destroy_events (begin_ three_vec) 0 (length [1; 2; 3])) ++ log three
             ∧ balance w' = balance three - Size three_vec
               ∧ live_elements w' = live_elements three - Size three_vec
                 ∧ (∀ b : nat,
                      p_block (begin_ three_vec) = Some b → block_size (heap w') b = None)
                   ∧ ∀ (q : Ptr) (b : nat),
                       p_block q = Some b
                       → p_block (begin_ three_vec) ≠ Some b
                         → slot_at (heap w') q = slot_at (heap three) q).
Proof.
  assert (objs three !! 0%nat = Some (Some three_vec)) as H1 by (reflexivity).
  assert (holds three three_vec [1; 2; 3]) as H2 by (exact holds_three).
  exact (conj H1 (conj H2 (dtor_destroys_every_element three 0%nat three_vec [1; 2; 3] H1 H2))).
Defined.

(** A copy of [1, 2, 3]. *)
Lemma copy_ctor_deep_copy_witness :
  (objs three !! 0%nat = Some (Some three_vec)
   ∧ holds three three_vec [1; 2; 3]
     ∧ ∃ (o : Outcome nat) (w' : World Z),
         Vector_copy_ctor 0 three = (o, w')
         ∧ holds w' three_vec [1; 2; 3]
           ∧ match o with
             | Ok a =>
                 a = length (objs three)
                 ∧ objs w' !! 0%nat = Some (Some three_vec)
                   ∧ ∃ v' : Vector,
                       objs w' !! a = Some (Some v')
                       ∧ Size v' = Size three_vec
                         ∧ Capacity v' = Size three_vec
                           ∧ holds w' v' [1; 2; 3]
                             ∧ ([1; 2; 3] ≠ []
                                → p_block (begin_ v') ≠ p_block (begin_ three_vec))
                               ∧ balance w' = balance three + Size three_vec
                                 ∧ live_elements w' =
                                   live_elements three + Size three_vec
             | Throw _ => objs w' = objs three ∧ balance w' = balance three
             | _ => False
             end
             ∧ (fuse three = None
                → Size three_vec ≤ alloc_limit three → ∃ a : nat, o = Ok a)).
Proof.
  assert (objs three !! 0%nat = Some (Some three_vec)) as H1 by (reflexivity).
  assert (holds three three_vec [1; 2; 3]) as H2 by (exact holds_three).
  exact (conj H1 (conj H2 (copy_ctor_deep_copy three 0%nat three_vec [1; 2; 3] H1 H2))).
Defined.

(** [7] with capacity 1 is assigned [1, 2]. *)
Lemma copy_assign_reallocates_witness :
  (1%nat ≠ 0%nat
   ∧ objs pair !! 1%nat = Some (Some second_vec)
     ∧ objs pair !! 0%nat = Some (Some first_vec)
       ∧ holds pair second_vec [7]
         ∧ holds pair first_vec [1; 2]
           ∧ p_block (begin_ second_vec) ≠ p_block (begin_ first_vec)
             ∧ Capacity second_vec < Size first_vec
               ∧ ∃ (o : Outcome ()) (w' : World Z),
                   Vector_copy_assign 1 0 pair = (o, w')
                   ∧ holds w' first_vec [1; 2]
                     ∧ objs w' !! 0%nat = Some (Some first_vec)
                       ∧ match o with
                         | Ok _ =>
                             ∃ va' : Vector,
                               objs w' !! 1%nat = Some (Some va')
                               ∧ holds w' va' [1; 2]
                                 ∧ Capacity va' = Size first_vec
                                   ∧ p_block (begin_ va') ≠ p_block (begin_ first_vec)
                                     ∧ (∀ b0 : nat,
                                          p_block (begin_ second_vec) = Some b0
                                          → block_size (heap w') b0 = None)
                                       ∧ balance w' =
                                         balance pair + Size first_vec - Size second_vec
                         | Throw _ =>
                             objs w' = objs pair
                             ∧ holds w' second_vec [7] ∧ balance w' = balance pair
                         | _ => False
                         end
                         ∧ (fuse pair = None
                            → Size first_vec ≤ alloc_limit pair → o = Ok ())).
Proof.
  assert (1%nat ≠ 0%nat) as H1 by (by vm_compute).
  assert (objs pair !! 1%nat = Some (Some second_vec)) as H2 by (reflexivity).
  assert (objs pair !! 0%nat = Some (Some first_vec)) as H3 by (reflexivity).
  assert (holds pair second_vec [7]) as H4 by (exact holds_pair_second).
  assert (holds pair first_vec [1; 2]) as H5 by (exact holds_pair_first).
  assert (p_block (begin_ second_vec) ≠ p_block (begin_ first_vec)) as H6 by (by vm_compute).
  assert (Capacity second_vec < Size first_vec) as H7 by (unfold Size, Capacity, RawMemory_Capacity; simpl; lia).
  exact (conj H1 (conj H2 (conj H3 (conj H4 (conj H5 (conj H6 (conj H7 (copy_assign_reallocates pair 1%nat 0%nat second_vec first_vec [7] [1; 2] H1 H2 H3 H4 H5 H6 H7)))))))).
Defined.

(** [1, 2] is assigned [7]. *)
Lemma copy_assign_not_longer_witness :
  (0%nat ≠ 1%nat
   ∧ objs pair !! 0%nat = Some (Some first_vec)
     ∧ objs pair !! 1%nat = Some (Some second_vec)
       ∧ holds pair first_vec [1; 2]
         ∧ holds pair second_vec [7]
           ∧ separate first_vec second_vec
             ∧ fuse pair = None
               ∧ (length [7] ≤ length [1; 2])%nat
                 ∧ (let va' := {| data_ := data_ first_vec; size_ := size_ second_vec |}
                      in
                    ∃ w' : World Z,
                      Vector_copy_assign 0 1 pair = (Ok (), w')
                      ∧ objs w' = <[0%nat:=Some va']> (objs pair)
                        ∧ holds w' va' [7]
                          ∧ holds w' second_vec [7]
                            ∧ log w' =
                              rev
                                (destroy_events
                                   (ptr_add (begin_ first_vec) (Size second_vec)) 0
                                   (length [1; 2] - length [7])) ++
                              rev
                                (copy_assign_events (begin_ first_vec)
                                   (begin_ second_vec) 0 (length [7])) ++
                              log pair
                              ∧ balance w' =
                                balance pair - (Size first_vec - Size second_vec))).
Proof.
  assert (0%nat ≠ 1%nat) as H1 by (by vm_compute).
  assert (objs pair !! 0%nat = Some (Some first_vec)) as H2 by (reflexivity).
  assert (objs pair !! 1%nat = Some (Some second_vec)) as H3 by (reflexivity).
  assert (holds pair first_vec [1; 2]) as H4 by (exact holds_pair_first).
  assert (holds pair second_vec [7]) as H5 by (exact holds_pair_second).
  assert (separate first_vec second_vec) as H6 by (intros [=]).
  assert (fuse pair = None) as H7 by (reflexivity).
  assert ((length [7] ≤ length [1; 2])%nat) as H8 by (simpl; lia).
  exact (conj H1 (conj H2 (conj H3 (conj H4 (conj H5 (conj H6 (conj H7 (conj H8 (copy_assign_not_longer pair 0%nat 1%nat first_vec second_vec [1; 2] [7] H1 H2 H3 H4 H5 H6 H7 H8))))))))).
Defined.

(** PopBack on [1, 2, 3]. *)
Lemma PopBack_removes_last_witness :
  (objs three !! 0%nat = Some (Some three_vec)
   ∧ holds three three_vec ([1; 2] ++ [3])
     ∧ (let last := ptr_add (end_ three_vec) (-1) in
        ∃ (w' : World Z) (v' : Vector),
          Vector_PopBack 0 three = (Ok (), w')
          ∧ objs w' = <[0%nat:=Some v']> (objs three)
            ∧ Size v' = Size three_vec - 1
              ∧ Capacity v' = Capacity three_vec
                ∧ begin_ v' = begin_ three_vec
                  ∧ holds w' v' [1; 2]
                    ∧ contents w' v' = Some [1; 2]
                      ∧ read last three = (Ok 3, three)
                        ∧ slot_at (heap w') last = Some Raw
                          ∧ (∀ q : Ptr,
                               q ≠ last → slot_at (heap w') q = slot_at (heap three) q)
                            ∧ log w' = EvDestroy (Some last) :: log three
                              ∧ balance w' = balance three - 1
                                ∧ live_elements w' = live_elements three - 1)).
Proof.
  assert (objs three !! 0%nat = Some (Some three_vec)) as H1 by (reflexivity).
  assert (holds three three_vec ([1; 2] ++ [3])) as H2 by (exact holds_three).
  exact (conj H1 (conj H2 (PopBack_removes_last three 0%nat three_vec [1; 2] 3 H1 H2))).
Defined.

(** PopBack on a default-constructed Vector. *)
Lemma PopBack_on_empty_fails_assertion_witness :
  (objs empty_one !! 0%nat = Some (Some empty_vec)
   ∧ Size empty_vec = 0 ∧ Vector_PopBack 0 empty_one = (AssertFail, empty_one)).
Proof.
  assert (objs empty_one !! 0%nat = Some (Some empty_vec)) as H1 by (reflexivity).
  assert (Size empty_vec = 0) as H2 by (reflexivity).
  exact (conj H1 (conj H2 (PopBack_on_empty_fails_assertion empty_one 0%nat empty_vec H1 H2))).
Defined.

(** Index 1 of [1, 2, 3]. *)
Lemma index_checks_size_witness :
  (objs three !! 0%nat = Some (Some three_vec)
   ∧ holds three three_vec [1; 2; 3]
     ∧ 0 ≤ 1
       ∧ (1 < Size three_vec
          → ∃ x : Z,
              [1; 2; 3] !! Z.to_nat 1 = Some x
              ∧ Vector_index 0 1 three = (Ok (ptr_add (begin_ three_vec) 1), three)
                ∧ read (ptr_add (begin_ three_vec) 1) three = (Ok x, three))
         ∧ (Size three_vec ≤ 1 → Vector_index 0 1 three = (AssertFail, three))).
Proof.
  assert (objs three !! 0%nat = Some (Some three_vec)) as H1 by (reflexivity).
  assert (holds three three_vec [1; 2; 3]) as H2 by (exact holds_three).
  assert (0 ≤ 1) as H3 by (lia).
  exact (conj H1 (conj H2 (conj H3 (index_checks_size three 0%nat three_vec [1; 2; 3] 1 H1 H2 H3)))).
Defined.

(** Swap of [1, 2] and [7]. *)
Lemma Swap_exchanges_witness :
  (0%nat ≠ 1%nat
   ∧ objs pair !! 0%nat = Some (Some first_vec)
     ∧ objs pair !! 1%nat = Some (Some second_vec)
       ∧ ∃ w' : World Z,
           Vector_Swap 0 1 pair = (Ok (), w')
           ∧ objs w' = <[1%nat:=Some first_vec]> (<[0%nat:=Some second_vec]> (objs pair))
             ∧ heap w' = heap pair
               ∧ log w' = log pair
                 ∧ fuse w' = fuse pair
                   ∧ contents_at w' 0 = contents_at pair 1
                     ∧ contents_at w' 1 = contents_at pair 0
                       ∧ live_elements w' = live_elements pair).
Proof.
  assert (0%nat ≠ 1%nat) as H1 by (by vm_compute).
  assert (objs pair !! 0%nat = Some (Some first_vec)) as H2 by (reflexivity).
  assert (objs pair !! 1%nat = Some (Some second_vec)) as H3 by (reflexivity).
  exact (conj H1 (conj H2 (conj H3 (Swap_exchanges pair 0%nat 1%nat first_vec second_vec H1 H2 H3)))).
Defined.

(** Two Swaps of [1, 2] and [7]. *)
Lemma Swap_twice_restores_witness :
  (objs pair !! 0%nat = Some (Some first_vec)
   ∧ objs pair !! 1%nat = Some (Some second_vec)
     ∧ bind (Vector_Swap 0 1) (λ _ : (), Vector_Swap 0 1) pair = (Ok (), pair)
       ∧ Vector_Swap 0 1 pair = Vector_Swap 1 0 pair).
Proof.
  assert (objs pair !! 0%nat = Some (Some first_vec)) as H1 by (reflexivity).
  assert (objs pair !! 1%nat = Some (Some second_vec)) as H2 by (reflexivity).
  exact (conj H1 (conj H2 (Swap_twice_restores pair 0%nat 1%nat first_vec second_vec H1 H2))).
Defined.

(** [1, 2] is move-assigned [7]. *)
Lemma move_assign_transfers_witness :
  (0%nat ≠ 1%nat
   ∧ objs pair !! 0%nat = Some (Some first_vec)
     ∧ objs pair !! 1%nat = Some (Some second_vec)
       ∧ holds pair first_vec [1; 2]
         ∧ holds pair second_vec [7]
           ∧ (let vb' := {| data_ := data_ first_vec; size_ := 0 |} in
              ∃ w' : World Z,
                Vector_move_assign 0 1 pair = (Ok (), w')
                ∧ objs w' = <[0%nat:=Some second_vec]> (<[1%nat:=Some vb']> (objs pair))
                  ∧ heap w' = heap pair
                    ∧ log w' = log pair
                      ∧ holds w' second_vec [7]
                        ∧ contents_at w' 0 = Some [7]
                          ∧ contents_at w' 1 = Some []
                            ∧ (∀ (i : nat) (x : Z),
                                 [1; 2] !! i = Some x
                                 → slot_at (heap w') (ptr_add (begin_ vb') (Z.of_nat i)) =
                                   Some (Live x))
                              ∧ balance w' = balance pair
                                ∧ live_elements w' = live_elements pair - Size first_vec)).
Proof.
  assert (0%nat ≠ 1%nat) as H1 by (by vm_compute).
  assert (objs pair !! 0%nat = Some (Some first_vec)) as H2 by (reflexivity).
  assert (objs pair !! 1%nat = Some (Some second_vec)) as H3 by (reflexivity).
  assert (holds pair first_vec [1; 2]) as H4 by (exact holds_pair_first).
  assert (holds pair second_vec [7]) as H5 by (exact holds_pair_second).
  exact (conj H1 (conj H2 (conj H3 (conj H4 (conj H5 (move_assign_transfers pair 0%nat 1%nat first_vec second_vec [1; 2] [7] H1 H2 H3 H4 H5)))))).
Defined.

(** Vector<int>(3) in the empty world. *)
Lemma sized_ctor_value_initialises_witness :
  (0 ≤ 3 < 2 ^ 64
   ∧ ∃ (o : Outcome nat) (w' : World Z),
       Vector_sized_ctor 3 start = (o, w')
       ∧ match o with
         | Ok a =>
             3 * sizeof start < 2 ^ 64
             ∧ a = length (objs start)
               ∧ (∀ (v : Vector) (l : list Z), holds start v l → holds w' v l)
                 ∧ ∃ v' : Vector,
                     objs w' = objs start ++ [Some v']
                     ∧ Size v' = 3
                       ∧ Capacity v' = 3
                         ∧ holds w' v' (replicate (Z.to_nat 3) value_init)
                           ∧ balance w' = balance start + 3
                             ∧ live_elements w' = live_elements start + 3
         | Throw e =>
             (∀ (v : Vector) (l : list Z), holds start v l → holds w' v l)
             ∧ objs w' = objs start
               ∧ balance w' = balance start
                 ∧ (e = bad_alloc ∧ alloc_limit start < 3 ∧ w' = start
                    ∨ e = element_failure
                      ∧ fuse start ≠ None ∧ may_throw DefaultCtor = true)
         | Undefined _ => 2 ^ 64 ≤ 3 * sizeof start
         | _ => False
         end ∧ (quiet DefaultCtor start → 3 ≤ alloc_limit start → ∃ a : nat, o = Ok a)).
Proof.
  assert (0 ≤ 3 < 2 ^ 64) as H1 by (lia).
  exact (conj H1 (sized_ctor_value_initialises start 3 H1)).
Defined.

(** Resize(1) on [1, 2, 3]. *)
Lemma Resize_down_truncates_witness :
  (objs three !! 0%nat = Some (Some three_vec)
   ∧ holds three three_vec [1; 2; 3]
     ∧ (1 ≤ length [1; 2; 3])%nat
       ∧ (let v' := {| data_ := data_ three_vec; size_ := Z.of_nat 1 |} in
          ∃ w' : World Z,
            Vector_Resize 0 (Z.of_nat 1) three = (Ok (), w')
            ∧ objs w' = <[0%nat:=Some v']> (objs three)
              ∧ holds w' v' (take 1 [1; 2; 3])
                ∧ fuse w' = fuse three
                  ∧ log w' =
                    rev
                      (destroy_events (ptr_add (begin_ three_vec) (Z.of_nat 1)) 0
                         (length [1; 2; 3] - 1)) ++
                    log three
                    ∧ balance w' = balance three - (Size three_vec - Z.of_nat 1))).
Proof.
  assert (objs three !! 0%nat = Some (Some three_vec)) as H1 by (reflexivity).
  assert (holds three three_vec [1; 2; 3]) as H2 by (exact holds_three).
  assert ((1 ≤ length [1; 2; 3])%nat) as H3 by (simpl; lia).
  exact (conj H1 (conj H2 (conj H3 (Resize_down_truncates three 0%nat three_vec [1; 2; 3] 1%nat H1 H2 H3)))).
Defined.

(** Resize(6) on [1, 2, 3] with capacity 4. *)
Lemma Resize_up_value_initialises_witness :
  (objs three !! 0%nat = Some (Some three_vec)
   ∧ holds three three_vec [1; 2; 3]
     ∧ Size three_vec < 6 < 2 ^ 64
       ∧ 6 * sizeof three < 2 ^ 64
         ∧ ∃ (o : Outcome ()) (w' : World Z),
             Vector_Resize 0 6 three = (o, w')
             ∧ match o with
               | Ok _ =>
                   ∃ v' : Vector,
                     objs w' = <[0%nat:=Some v']> (objs three)
                     ∧ Size v' = 6
                       ∧ Capacity v' = 6 `max` Capacity three_vec
                         ∧ (6 ≤ Capacity three_vec → data_ v' = data_ three_vec)
                           ∧ holds w' v'
                               ([1; 2; 3] ++
                                replicate (Z.to_nat (6 - Size three_vec)) value_init)
               | Throw _ =>
                   ∃ v1 : Vector,
                     objs w' !! 0%nat = Some (Some v1)
                     ∧ Size v1 = Size three_vec
                       ∧ (relocate_by_move = false → holds w' v1 [1; 2; 3])
               | _ => False
               end ∧ (fuse three = None → 6 ≤ alloc_limit three → o = Ok ())).
Proof.
  assert (objs three !! 0%nat = Some (Some three_vec)) as H1 by (reflexivity).
  assert (holds three three_vec [1; 2; 3]) as H2 by (exact holds_three).
  assert (Size three_vec < 6 < 2 ^ 64) as H3 by (unfold Size, Capacity, RawMemory_Capacity; simpl; lia).
  assert (6 * sizeof three < 2 ^ 64) as H4 by (by vm_compute).
  exact (conj H1 (conj H2 (conj H3 (conj H4 (Resize_up_value_initialises three 0%nat three_vec [1; 2; 3] 6 H1 H2 H3 H4))))).
Defined.

(** Emplace(begin() + 1, 9) on [1, 2, 3] with capacity 4. *)
Lemma Emplace_in_place_inserts_witness :
  (objs three !! 0%nat = Some (Some three_vec)
   ∧ holds three three_vec [1; 2; 3]
     ∧ Size three_vec < Capacity three_vec
       ∧ (1 ≤ length [1; 2; 3])%nat
         ∧ fuse three = None
           ∧ (let pos := ptr_add (begin_ three_vec) (Z.of_nat 1) in
              let l' :=
                take 1 [1; 2; 3] ++
                arg_value {| arg_op := ArgsCtor; arg_value := 9 |} :: drop 1 [1; 2; 3] in
              ∃ (w' : World Z) (v' : Vector),
                Vector_Emplace 0 pos {| arg_op := ArgsCtor; arg_value := 9 |} three =
                (Ok pos, w')
                ∧ objs w' = <[0%nat:=Some v']> (objs three)
                  ∧ Size v' = Size three_vec + 1
                    ∧ Capacity v' = Capacity three_vec
                      ∧ begin_ v' = begin_ three_vec
                        ∧ holds w' v' l'
                          ∧ contents w' v' = Some l'
                            ∧ read pos w' =
                              (Ok (arg_value {| arg_op := ArgsCtor; arg_value := 9 |}),
                               w'))).
Proof.
  assert (objs three !! 0%nat = Some (Some three_vec)) as H1 by (reflexivity).
  assert (holds three three_vec [1; 2; 3]) as H2 by (exact holds_three).
  assert (Size three_vec < Capacity three_vec) as H3 by (unfold Size, Capacity, RawMemory_Capacity; simpl; lia).
  assert ((1 ≤ length [1; 2; 3])%nat) as H4 by (simpl; lia).
  assert (fuse three = None) as H5 by (reflexivity).
  exact (conj H1 (conj H2 (conj H3 (conj H4 (conj H5 (Emplace_in_place_inserts three 0%nat three_vec [1; 2; 3] (MkArgs ArgsCtor 9) 1%nat H1 H2 H3 H4 H5)))))).
Defined.

(** Emplace(begin() + 1, 9) on [1, 2] with capacity 2. *)
Lemma Emplace_growing_inserts_witness :
  (objs two !! 0%nat = Some (Some two_vec)
   ∧ holds two two_vec [1; 2]
     ∧ Size two_vec = Capacity two_vec
       ∧ (1 ≤ length [1; 2])%nat
         ∧ fuse two = None
           ∧ grown_capacity (Size two_vec) ≤ alloc_limit two
             ∧ 2 * Size two_vec < 2 ^ 64
               ∧ (let pos := ptr_add (begin_ two_vec) (Z.of_nat 1) in
                  let l' :=
                    take 1 [1; 2] ++
                    arg_value {| arg_op := ArgsCtor; arg_value := 9 |} :: drop 1 [1; 2]
                    in
                  ∃ (r : Ptr) (w' : World Z) (v' : Vector),
                    Vector_Emplace 0 pos {| arg_op := ArgsCtor; arg_value := 9 |} two =
                    (Ok r, w')
                    ∧ objs w' = <[0%nat:=Some v']> (objs two)
                      ∧ Size v' = Size two_vec + 1
                        ∧ Capacity v' = 1 `max` (2 * Capacity two_vec)
                          ∧ begin_ v' =
                            {| p_block := Some (length (heap two)); p_off := 0 |}
                            ∧ r = ptr_add (begin_ v') (Z.of_nat 1)
                              ∧ holds w' v' l'
                                ∧ contents w' v' = Some l'
                                  ∧ read r w' =
                                    (Ok
                                       (arg_value
                                          {| arg_op := ArgsCtor; arg_value := 9 |}),
                                     w')
                                    ∧ slot_at (heap w') pos = None)).
Proof.
  assert (objs two !! 0%nat = Some (Some two_vec)) as H1 by (reflexivity).
  assert (holds two two_vec [1; 2]) as H2 by (exact holds_two).
  assert (Size two_vec = Capacity two_vec) as H3 by (reflexivity).
  assert ((1 ≤ length [1; 2])%nat) as H4 by (simpl; lia).
  assert (fuse two = None) as H5 by (reflexivity).
  assert (grown_capacity (Size two_vec) ≤ alloc_limit two) as H6 by (by vm_compute).
  assert (2 * Size two_vec < 2 ^ 64) as H7 by (unfold Size, Capacity, RawMemory_Capacity; simpl; lia).
  exact (conj H1 (conj H2 (conj H3 (conj H4 (conj H5 (conj H6 (conj H7 (Emplace_growing_inserts two 0%nat two_vec [1; 2] (MkArgs ArgsCtor 9) 1%nat H1 H2 H3 H4 H5 H6 H7)))))))).
Defined.

(** PushBack(4) then PopBack on [1, 2, 3]. *)
Lemma PushBack_then_PopBack_restores_witness :
  (objs three !! 0%nat = Some (Some three_vec)
   ∧ holds three three_vec [1; 2; 3]
     ∧ Vector_PushBack 0 false 4 three = (Ok (), exec (Vector_PushBack 0 false 4) three)
       ∧ ∃ (w'' : World Z) (v'' : Vector),
           Vector_PopBack 0 (exec (Vector_PushBack 0 false 4) three) = (Ok (), w'')
           ∧ objs w'' !! 0%nat = Some (Some v'')
             ∧ Size v'' = Size three_vec
               ∧ Capacity three_vec ≤ Capacity v''
                 ∧ holds w'' v'' [1; 2; 3]
                   ∧ contents w'' v'' = contents three three_vec
                     ∧ (Size three_vec < Capacity three_vec → v'' = three_vec)).
Proof.
  assert (objs three !! 0%nat = Some (Some three_vec)) as H1 by (reflexivity).
  assert (holds three three_vec [1; 2; 3]) as H2 by (exact holds_three).
  assert (Vector_PushBack 0 false 4 three = (Ok tt, exec (Vector_PushBack 0 false 4) three)) as H3 by (vm_compute; reflexivity).
  exact (conj H1 (conj H2 (conj H3 (PushBack_then_PopBack_restores three 0%nat three_vec [1; 2; 3] false 4 (exec (Vector_PushBack 0 false 4) three) H1 H2 H3)))).
Defined.

(** Erase(begin() + 3) then Insert of 3 on [0, ..., 9]. *)
Lemma Erase_then_Insert_restores_witness :
  (objs ten !! 0%nat = Some (Some ten_vec)
   ∧ holds ten ten_vec [0; 1; 2; 3; 4; 5; 6; 7; 8; 9]
     ∧ [0; 1; 2; 3; 4; 5; 6; 7; 8; 9] !! 3%nat = Some 3
       ∧ fuse ten = None
         ∧ (let pos := ptr_add (begin_ ten_vec) (Z.of_nat 3) in
            ∃ w' : World Z,
              bind (Vector_Erase 0 pos) (λ r : Ptr, Vector_Insert 0 r false 3) ten =
              (Ok pos, w')
              ∧ objs w' = objs ten
                ∧ holds w' ten_vec [0; 1; 2; 3; 4; 5; 6; 7; 8; 9]
                  ∧ contents w' ten_vec = contents ten ten_vec)).
Proof.
  assert (objs ten !! 0%nat = Some (Some ten_vec)) as H1 by (reflexivity).
  assert (holds ten ten_vec [0; 1; 2; 3; 4; 5; 6; 7; 8; 9]) as H2 by (exact holds_ten).
  assert ([0; 1; 2; 3; 4; 5; 6; 7; 8; 9] !! 3%nat = Some 3) as H3 by (reflexivity).
  assert (fuse ten = None) as H4 by (reflexivity).
  exact (conj H1 (conj H2 (conj H3 (conj H4 (Erase_then_Insert_restores ten 0%nat ten_vec [0; 1; 2; 3; 4; 5; 6; 7; 8; 9] 3%nat 3 false H1 H2 H3 H4))))).
Defined.

(** Two appends to [1, 2, 3] with capacity 4. *)
Lemma PushBack_capacity_stays_doubled_witness :
  (objs three !! 0%nat = Some (Some three_vec)
   ∧ holds three three_vec [1; 2; 3]
     ∧ (Capacity three_vec = 0 ∨ doubled (Capacity three_vec))
       ∧ (∀ w' : World Z,
            push_all 0 [4; 5] three = (Ok (), w')
            → ∃ v' : Vector,
                objs w' !! 0%nat = Some (Some v')
                ∧ holds w' v' ([1; 2; 3] ++ [4; 5])
                  ∧ (Capacity v' = 0 ∨ doubled (Capacity v'))
                    ∧ Capacity three_vec ≤ Capacity v'
                      ∧ (Capacity v' = Capacity three_vec ∨ Capacity v' < 2 * Size v'))
         ∧ (fuse three = None
            → 2 * (Size three_vec + Z.of_nat (length [4; 5])) ≤ alloc_limit three
              → 2 * (Size three_vec + Z.of_nat (length [4; 5])) < 2 ^ 64
                → ∃ w' : World Z, push_all 0 [4; 5] three = (Ok (), w'))).
Proof.
  assert (objs three !! 0%nat = Some (Some three_vec)) as H1 by (reflexivity).
  assert (holds three three_vec [1; 2; 3]) as H2 by (exact holds_three).
  assert (Capacity three_vec = 0 ∨ doubled (Capacity three_vec)) as H3 by (right; exists 2%nat; reflexivity).
  exact (conj H1 (conj H2 (conj H3 (PushBack_capacity_stays_doubled three 0%nat three_vec [1; 2; 3] [4; 5] H1 H2 H3)))).
Defined.

(** An empty RawMemory is move-assigned to the buffer of [1, 2, 3]. *)
Lemma RawMemory_move_assign_releases_old_witness :
  (owns_block three (data_ three_vec)
   ∧ (∃ w' : World Z,
        RawMemory_move_assign false (data_ three_vec) RawMemory_default three =
        (Ok (RawMemory_default, RawMemory_default), w')
        ∧ heap w' = release (buffer_ (data_ three_vec)) (heap three)
          ∧ objs w' = objs three
            ∧ log w' = log three
              ∧ fuse w' = fuse three
                ∧ (∀ b : nat,
                     p_block (buffer_ (data_ three_vec)) = Some b
                     → block_size (heap w') b = None)
                  ∧ (owns_block three RawMemory_default
                     → p_block (buffer_ RawMemory_default)
                       ≠ p_block (buffer_ (data_ three_vec))
                       → owns_block w' RawMemory_default)
                    ∧ RawMemory_dtor RawMemory_default w' = (Ok (), w'))
     ∧ RawMemory_move_assign true (data_ three_vec) (data_ three_vec) three =
       (Ok (data_ three_vec, data_ three_vec), three)).
Proof.
  assert (owns_block three (data_ three_vec)) as H1 by (right; exists 2%nat; split_and!; [reflexivity|simpl; lia|by vm_compute|reflexivity]).
  exact (conj H1 (RawMemory_move_assign_releases_old three (data_ three_vec) RawMemory_default H1)).
Defined.

(** Allocation failures on the full Vector [1, 2] when the allocator has nothing left. *)
Lemma failed_allocation_changes_nothing_witness :
  (objs full !! 0%nat = Some (Some two_vec)
   ∧ holds full two_vec [1; 2]
     ∧ Size two_vec = Capacity two_vec
       ∧ Size two_vec ≠ 0
         ∧ alloc_limit full < Size two_vec
           ∧ (∀ a : Args Z, Vector_EmplaceBack 0 a full = (Throw bad_alloc, full))
             ∧ (∀ (a : Args Z) (k : Z),
                  0 ≤ k ≤ Size two_vec
                  → Vector_Emplace 0 (ptr_add (begin_ two_vec) k) a full =
                    (Throw bad_alloc, full))
               ∧ Vector_copy_ctor 0 full = (Throw bad_alloc, full)
                 ∧ ∀ k : Z,
                     Capacity two_vec < k
                     → alloc_limit full * sizeof full < requested_bytes full k
                       → Vector_Reserve 0 k full = (Throw bad_alloc, full)).
Proof.
  assert (objs full !! 0%nat = Some (Some IntScenarios.two_vec)) as H1 by (reflexivity).
  assert (holds full IntScenarios.two_vec [1; 2]) as H2 by (exact holds_full).
  assert (Size IntScenarios.two_vec = Capacity IntScenarios.two_vec) as H3 by (reflexivity).
  assert (Size IntScenarios.two_vec ≠ 0) as H4 by (by vm_compute).
  assert (alloc_limit full < Size IntScenarios.two_vec) as H5 by (by vm_compute).
  exact (conj H1 (conj H2 (conj H3 (conj H4 (conj H5 (failed_allocation_changes_nothing full 0%nat IntScenarios.two_vec [1; 2] H1 H2 H3 H4 H5)))))).
Defined.

(** An empty Vector with capacity 3 is assigned [7, 8, 9]. *)
Lemma copy_assign_into_empty_with_capacity_witness :
  (0%nat ≠ 1%nat
   ∧ objs reserved !! 0%nat = Some (Some reserved_vec)
     ∧ objs reserved !! 1%nat = Some (Some source_vec)
       ∧ holds reserved reserved_vec []
         ∧ holds reserved source_vec [7; 8; 9]
           ∧ p_block (begin_ reserved_vec) ≠ p_block (begin_ source_vec)
             ∧ fuse reserved = None
               ∧ [7; 8; 9] ≠ []
                 ∧ Size source_vec ≤ Capacity reserved_vec
                   ∧ ∃ (w' : World Z) (va' : Vector),
                       Vector_copy_assign 0 1 reserved = (Ok (), w')
                       ∧ objs w' = <[0%nat:=Some va']> (objs reserved)
                         ∧ begin_ va' = begin_ reserved_vec
                           ∧ Capacity va' = Capacity reserved_vec
                             ∧ Size va' = Size source_vec
                               ∧ holds w' va' [7; 8; 9]
                                 ∧ holds w' source_vec [7; 8; 9]
                                   ∧ contents w' va' = contents w' source_vec).
Proof.
  assert (0%nat ≠ 1%nat) as H1 by (by vm_compute).
  assert (objs reserved !! 0%nat = Some (Some reserved_vec)) as H2 by (reflexivity).
  assert (objs reserved !! 1%nat = Some (Some source_vec)) as H3 by (reflexivity).
  assert (holds reserved reserved_vec []) as H4 by (exact holds_reserved).
  assert (holds reserved source_vec [7; 8; 9]) as H5 by (exact holds_source).
  assert (p_block (begin_ reserved_vec) ≠ p_block (begin_ source_vec)) as H6 by (by vm_compute).
  assert (fuse reserved = None) as H7 by (reflexivity).
  assert ([7; 8; 9] ≠ []) as H8 by (by vm_compute).
  assert (Size source_vec ≤ Capacity reserved_vec) as H9 by (unfold Size, Capacity, RawMemory_Capacity; simpl; lia).
  exact (conj H1 (conj H2 (conj H3 (conj H4 (conj H5 (conj H6 (conj H7 (conj H8 (conj H9 (copy_assign_into_empty_with_capacity reserved 0%nat 1%nat reserved_vec source_vec [7; 8; 9] H1 H2 H3 H4 H5 H6 H7 H8 H9)))))))))).
Defined.

(** A copy of [1, 2, 3] is made and destroyed. *)
Lemma copy_then_destroy_restores_witness :
  (objs three !! 0%nat = Some (Some three_vec)
   ∧ holds three three_vec [1; 2; 3]
     ∧ Vector_copy_ctor 0 three = (Ok 1%nat, exec (Vector_copy_ctor 0) three)
       ∧ ∃ (w'' : World Z) (v' : Vector),
           objs (exec (Vector_copy_ctor 0) three) !! 1%nat = Some (Some v')
           ∧ Vector_dtor 1 (exec (Vector_copy_ctor 0) three) = (Ok (), w'')
             ∧ objs w'' = objs three ++ [None]
               ∧ holds w'' three_vec [1; 2; 3]
                 ∧ balance (exec (Vector_copy_ctor 0) three) =
                   balance three + Size three_vec
                   ∧ balance w'' = balance three
                     ∧ live_elements w'' = live_elements three
                       ∧ ∀ b : nat,
                           p_block (begin_ v') = Some b → block_size (heap w'') b = None).
Proof.
  assert (objs three !! 0%nat = Some (Some three_vec)) as H1 by (reflexivity).
  assert (holds three three_vec [1; 2; 3]) as H2 by (exact holds_three).
  assert (Vector_copy_ctor 0 three = (Ok 1%nat, exec (Vector_copy_ctor 0) three)) as H3 by (vm_compute; reflexivity).
  exact (conj H1 (conj H2 (conj H3 (copy_then_destroy_restores three 0%nat three_vec [1; 2; 3] 1%nat (exec (Vector_copy_ctor 0) three) H1 H2 H3)))).
Defined.

(** Reserve(2^62 + 1) on an empty Vector<int>: the request is one of 4 bytes. *)
Lemma Reserve_wrapped_request_undersized_witness :
  (objs empty_one !! 0%nat = Some (Some empty_vec)
   ∧ holds empty_one empty_vec []
     ∧ Capacity empty_vec < wrapping_count < 2 ^ 64
       ∧ 2 ^ 64 ≤ wrapping_count * sizeof empty_one
         ∧ requested_bytes empty_one wrapping_count
           ≤ alloc_limit empty_one * sizeof empty_one
           ∧ (let v' :=
                {|
                  data_ :=
                    {|
                      buffer_ :=
                        {| p_block := Some (length (heap empty_one)); p_off := 0 |};
                      capacity_ := wrapping_count
                    |};
                  size_ := 0
                |} in
              ∃ w' : World Z,
                Vector_Reserve 0 wrapping_count empty_one = (Ok (), w')
                ∧ objs w' = <[0%nat:=Some v']> (objs empty_one)
                  ∧ Capacity v' = wrapping_count
                    ∧ Size v' = 0
                      ∧ block_size (heap w') (length (heap empty_one)) =
                        Some (granted_slots empty_one wrapping_count)
                        ∧ Z.of_nat (granted_slots empty_one wrapping_count) <
                          wrapping_count ∧ ¬ holds w' v' [])).
Proof.
  assert (objs empty_one !! 0%nat = Some (Some empty_vec)) as H1 by (reflexivity).
  assert (holds empty_one empty_vec []) as H2 by (exact holds_empty).
  assert (Capacity empty_vec < wrapping_count < 2 ^ 64) as H3 by (by vm_compute).
  assert (2 ^ 64 ≤ wrapping_count * sizeof empty_one) as H4 by (by vm_compute).
  assert (requested_bytes empty_one wrapping_count ≤ alloc_limit empty_one * sizeof empty_one) as H5 by (by vm_compute).
  exact (conj H1 (conj H2 (conj H3 (conj H4 (conj H5 (Reserve_wrapped_request_undersized empty_one 0%nat empty_vec wrapping_count H1 H2 H3 H4 H5)))))).
Defined.

End IntWitnesses.

Section ThrowingWitnesses.
#[local] Existing Instance throwing_elem.

(** EmplaceBack by a copy that throws, on [1, 2, 3] with capacity 4. *)
Lemma EmplaceBack_in_place_failure_changes_nothing_witness :
  (objs (ThrowingRoom.three 0) !! 0%nat = Some (Some ThrowingRoom.three_vec)
   ∧ holds (ThrowingRoom.three 0) ThrowingRoom.three_vec [1; 2; 3]
     ∧ Size ThrowingRoom.three_vec < Capacity ThrowingRoom.three_vec
       ∧ Vector_EmplaceBack 0 {| arg_op := CopyCtor; arg_value := 9 |}
           (ThrowingRoom.three 0) =
         (Throw element_failure,
          exec (Vector_EmplaceBack 0 {| arg_op := CopyCtor; arg_value := 9 |})
            (ThrowingRoom.three 0))
         ∧ heap
             (exec (Vector_EmplaceBack 0 {| arg_op := CopyCtor; arg_value := 9 |})
                (ThrowingRoom.three 0)) =
           heap (ThrowingRoom.three 0)
           ∧ objs
               (exec (Vector_EmplaceBack 0 {| arg_op := CopyCtor; arg_value := 9 |})
                  (ThrowingRoom.three 0)) =
             objs (ThrowingRoom.three 0)
             ∧ log
                 (exec (Vector_EmplaceBack 0 {| arg_op := CopyCtor; arg_value := 9 |})
                    (ThrowingRoom.three 0)) =
               log (ThrowingRoom.three 0)
               ∧ alloc_limit
                   (exec (Vector_EmplaceBack 0 {| arg_op := CopyCtor; arg_value := 9 |})
                      (ThrowingRoom.three 0)) =
                 alloc_limit (ThrowingRoom.three 0)
                 ∧ fuse
                     (exec
                        (Vector_EmplaceBack 0 {| arg_op := CopyCtor; arg_value := 9 |})
                        (ThrowingRoom.three 0)) =
                   None
                   ∧ holds
                       (exec
                          (Vector_EmplaceBack 0 {| arg_op := CopyCtor; arg_value := 9 |})
                          (ThrowingRoom.three 0))
                       ThrowingRoom.three_vec [1; 2; 3]
                     ∧ contents
                         (exec
                            (Vector_EmplaceBack 0
                               {| arg_op := CopyCtor; arg_value := 9 |})
                            (ThrowingRoom.three 0))
                         ThrowingRoom.three_vec =
                       Some [1; 2; 3]
                       ∧ balance
                           (exec
                              (Vector_EmplaceBack 0
                                 {| arg_op := CopyCtor; arg_value := 9 |})
                              (ThrowingRoom.three 0)) =
                         balance (ThrowingRoom.three 0)).
Proof.
  assert (objs (ThrowingRoom.three 0) !! 0%nat = Some (Some ThrowingRoom.three_vec)) as H1 by (reflexivity).
  assert (holds (ThrowingRoom.three 0) ThrowingRoom.three_vec [1; 2; 3]) as H2 by (exact (holds_throwing_three 0)).
  assert (Size ThrowingRoom.three_vec < Capacity ThrowingRoom.three_vec) as H3 by (unfold Size, Capacity, RawMemory_Capacity; simpl; lia).
  assert (Vector_EmplaceBack 0 (MkArgs CopyCtor 9) (ThrowingRoom.three 0) = (Throw element_failure, exec (Vector_EmplaceBack 0 (MkArgs CopyCtor 9)) (ThrowingRoom.three 0))) as H4 by (vm_compute; reflexivity).
  exact (conj H1 (conj H2 (conj H3 (conj H4 (EmplaceBack_in_place_failure_changes_nothing (ThrowingRoom.three 0) 0%nat ThrowingRoom.three_vec [1; 2; 3] (MkArgs CopyCtor 9) element_failure (exec (Vector_EmplaceBack 0 (MkArgs CopyCtor 9)) (ThrowingRoom.three 0)) H1 H2 H3 H4))))).
Defined.

(** Reserve(10) on [1, 2] whose second relocation copy throws. *)
Lemma Reserve_failure_keeps_elements_witness :
  (objs (ThrowingScenarios.two 1) !! 0%nat = Some (Some ThrowingScenarios.two_vec)
   ∧ holds (ThrowingScenarios.two 1) ThrowingScenarios.two_vec [1; 2]
     ∧ Capacity ThrowingScenarios.two_vec < 10 < 2 ^ 64
       ∧ Vector_Reserve 0 10 (ThrowingScenarios.two 1) =
         (Throw element_failure, exec (Vector_Reserve 0 10) (ThrowingScenarios.two 1))
         ∧ objs (exec (Vector_Reserve 0 10) (ThrowingScenarios.two 1)) =
           objs (ThrowingScenarios.two 1)
           ∧ (relocate_by_move = false
              → holds (exec (Vector_Reserve 0 10) (ThrowingScenarios.two 1))
                  ThrowingScenarios.two_vec [1; 2]
                ∧ contents (exec (Vector_Reserve 0 10) (ThrowingScenarios.two 1))
                    ThrowingScenarios.two_vec =
                  contents (ThrowingScenarios.two 1) ThrowingScenarios.two_vec)
             ∧ alloc_limit (exec (Vector_Reserve 0 10) (ThrowingScenarios.two 1)) =
               alloc_limit (ThrowingScenarios.two 1)).
Proof.
  assert (objs (ThrowingScenarios.two 1) !! 0%nat = Some (Some ThrowingScenarios.two_vec)) as H1 by (reflexivity).
  assert (holds (ThrowingScenarios.two 1) ThrowingScenarios.two_vec [1; 2]) as H2 by (exact (holds_throwing_two 1)).
  assert (Capacity ThrowingScenarios.two_vec < 10 < 2 ^ 64) as H3 by (unfold Size, Capacity, RawMemory_Capacity; simpl; lia).
  assert (Vector_Reserve 0 10 (ThrowingScenarios.two 1) = (Throw element_failure, exec (Vector_Reserve 0 10) (ThrowingScenarios.two 1))) as H4 by (vm_compute; reflexivity).
  exact (conj H1 (conj H2 (conj H3 (conj H4 (Reserve_failure_keeps_elements (ThrowingScenarios.two 1) 0%nat ThrowingScenarios.two_vec [1; 2] 10 element_failure (exec (Vector_Reserve 0 10) (ThrowingScenarios.two 1)) H1 H2 H3 H4))))).
Defined.

End ThrowingWitnesses.
